(** * Relax VM executable codec and structural-equality engine

    A shallow embedding of [src/runtime/vm/executable.cc] and
    [src/node/structural_equal.cc], with the properties of the specification
    stated and settled against it. *)

From Stdlib Require Import ZArith List String Ascii Lia Bool DecimalString.
From stdpp Require Import base gmap strings.
Import ListNotations.
Local Open Scope Z_scope.

(** ** Outcomes shared by both subsystems

    [ICHECK]/[LOG(FATAL)] abort the call with a diagnostic; a read of a local
    that was never written has no defined value. *)
Inductive Result (A : Type) : Type :=
| Ok (a : A)
| Fatal (msg : string)
| Unspecified.
Arguments Ok {A} a.
Arguments Fatal {A} msg.
Arguments Unspecified {A}.

#[global] Instance Result_ret : MRet Result := fun A a => Ok a.
#[global] Instance Result_bind : MBind Result := fun A B k r =>
  match r with
  | Ok a => k a
  | Fatal m => Fatal m
  | Unspecified => Unspecified
  end.

(** ** Binary I/O primitives *)
Module Stream.

(** The blob is a [std::string]; a byte is a [char]. *)
Abbreviation byte := ascii (only parsing).
Abbreviation stream := (list ascii) (only parsing).

Definition byte_of_Z (z : Z) : byte := ascii_of_N (Z.to_N (z mod 256)).
Definition Z_of_byte (b : byte) : Z := Z.of_N (N_of_ascii b).

(** Little-endian image of the low [n] bytes of [z] (two's complement for
    negative [z]). *)
Fixpoint le_bytes (n : nat) (z : Z) : list byte :=
  match n with
  | O => []
  | S n' => byte_of_Z (z mod 256) :: le_bytes n' (z / 256)
  end.

Fixpoint le_value (bs : list byte) : Z :=
  match bs with
  | [] => 0
  | b :: bs' => Z_of_byte b + 256 * le_value bs'
  end.

(** Reinterpretation of a [bits]-wide pattern as a signed integer. *)
Definition to_signed (bits : Z) (z : Z) : Z :=
  if z <? 2 ^ (bits - 1) then z else z - 2 ^ bits.

(** Modelled from the spec: the stream library ([dmlc::Stream],
    [dmlc::MemoryStringStream] and the [dmlc::serializer] handlers) is a
    third-party collaborator that is not part of the sources; section 4.1 and
    section 6 fix its wire format: little-endian scalars, strings and vectors
    prefixed by a 64-bit length, every typed read yielding a success flag. *)

(** [Stream::Write] of a scalar of [size] bytes. *)
Definition Write_scalar (size : nat) (z : Z) : stream := le_bytes size z.

(** [MemoryStringStream::Read(ptr, size)]: copies what is left, at most
    [size] bytes, and advances by that much. *)
Definition Read_raw (size : nat) (s : stream) : list byte * stream :=
  (firstn size s, skipn size s).

(** Typed read of an unsigned scalar: succeeds iff all bytes were there. *)
Definition Read_uint (size : nat) (s : stream) : option Z * stream :=
  let '(bs, s') := Read_raw size s in
  (if Nat.eqb (length bs) size then Some (le_value bs) else None, s').

(** Typed read of a signed scalar. *)
Definition Read_int (size : nat) (s : stream) : option Z * stream :=
  let '(r, s') := Read_uint size s in
  (option_map (to_signed (8 * Z.of_nat size)) r, s').

Definition zero_byte : byte := byte_of_Z 0.

(** [Write(std::string)]: 64-bit length, then the characters. *)
Definition Write_bytes (v : list byte) : stream :=
  Write_scalar 8 (Z.of_nat (length v)) ++ v.

Definition Write_string (v : string) : stream :=
  Write_bytes (list_ascii_of_string v).

(** [Read(std::string* )] into a fresh string: the length is read, the string
    is resized to it (zero filled), then the characters are copied; the flag
    tells whether all of them were there.  The string is returned also on
    failure, as a caller may ignore the flag. *)
Definition Read_bytes (s : stream) : (bool * list byte) * stream :=
  match Read_uint 8 s with
  | (None, s') => ((false, []), s')
  | (Some sz, s') =>
      let n := Z.to_nat sz in
      let '(bs, s'') := Read_raw n s' in
      ((Nat.eqb (length bs) n, bs ++ repeat zero_byte (n - length bs)), s'')
  end.

Definition Read_string (s : stream) : option string * stream :=
  let '((ok, v), s') := Read_bytes s in
  (if ok then Some (string_of_list_ascii v) else None, s').

(** Reading [n] elements in a row with an element reader; stops at the first
    failure. *)
Fixpoint Read_array {A} (rd : stream -> option A * stream) (n : nat)
    (s : stream) : option (list A) * stream :=
  match n with
  | O => (Some [], s)
  | S n' =>
      match rd s with
      | (None, s') => (None, s')
      | (Some a, s') =>
          match Read_array rd n' s' with
          | (None, s'') => (None, s'')
          | (Some l, s'') => (Some (a :: l), s'')
          end
      end
  end.

(** [Write(std::vector<T>)]: 64-bit length, then the elements. *)
Definition Write_vector {A} (wr : A -> stream) (v : list A) : stream :=
  Write_scalar 8 (Z.of_nat (length v)) ++ concat (map wr v).

Definition Read_vector {A} (rd : stream -> option A * stream) (s : stream)
    : option (list A) * stream :=
  match Read_uint 8 s with
  | (None, s') => (None, s')
  | (Some sz, s') => Read_array rd (Z.to_nat sz) s'
  end.

End Stream.

(** ** The VM executable *)
Module VM.
Import Stream.

(** The magic number for the serialized VM bytecode file. *)
Definition kTVMVMBytecodeMagic : Z := 0xD225DE2F4214151D.

Definition newline : string := String (ascii_of_nat 10) EmptyString.

(** [STREAM_CHECK(val, section)]'s diagnostic. *)
Definition format_error (section : string) : string :=
  "Invalid VM file format in the " +:+ section +:+ " section." +:+ newline.

(** [std::to_string] / [operator<<] of a 64-bit integer. *)
Definition to_string (z : Z) : string :=
  DecimalString.NilZero.string_of_int (Z.to_int z).

(** Declarations of the headers that the sources include but that are not
    part of them: the version macro, the numbering of the enumerations, the
    two sentinel registers and the packing of an instruction argument into
    one word.  The development is parametric in them. *)
Record Decls := {
  VM_VERSION : string;
  (* VMFuncInfo::FuncKind *)
  kPackedFunc : Z;
  kVMFunc : Z;
  kVMTIRFunc : Z;
  (* Opcode *)
  Opcode_Call : Z;
  Opcode_Ret : Z;
  Opcode_Goto : Z;
  Opcode_If : Z;
  (* Instruction::ArgKind *)
  kRegister : Z;
  kImmediate : Z;
  kConstIdx : Z;
  kFuncIdx : Z;
  (* Instruction::Arg::kind() and Instruction::Arg::value() *)
  Arg_kind : Z -> Z;
  Arg_value : Z -> Z;
  kVoidRegister : Z;
  kVMRegister : Z;
  (* ffi::TypeIndex *)
  kTVMFFINDArray : Z;
  kTVMFFIShape : Z;
  kTVMFFIStr : Z;
  kTVMFFIInt : Z;
  kTVMFFIFloat : Z;
  kTVMFFIDataType : Z;
  TypeIndexToTypeKey : Z -> string
}.

(** An entry of the constant pool: an [ffi::Any]. *)
Inductive Constant (Tensor : Type) : Type :=
| CNDArray (t : Tensor)
| CShape (dims : list Z)
| CString (s : string)
| CInt (v : Z)
| CFloat (pattern : Z)
| CDataType (code bits lanes : Z)
| COther (type_key : string).
Arguments CNDArray {Tensor} t.
Arguments CShape {Tensor} dims.
Arguments CString {Tensor} s.
Arguments CInt {Tensor} v.
Arguments CFloat {Tensor} pattern.
Arguments CDataType {Tensor} code bits lanes.
Arguments COther {Tensor} type_key.

Record VMFuncInfo := {
  kind : Z;
  name : string;
  start_instr : Z;
  end_instr : Z;
  num_args : Z;
  register_file_size : Z;
  param_names : list string
}.

Record VMExecutable (Tensor : Type) := {
  constants : list (Constant Tensor);
  func_table : list VMFuncInfo;
  func_map : gmap string Z;
  instr_offset : list Z;
  instr_data : list Z
}.
Arguments constants {Tensor} _.
Arguments func_table {Tensor} _.
Arguments func_map {Tensor} _.
Arguments instr_offset {Tensor} _.
Arguments instr_data {Tensor} _.

Section Codec.
Context (D : Decls).
(** The tensor serializer ([SaveDLTensor], [NDArray::Load]) is an external
    collaborator. *)
Context {Tensor : Type}.
Context (SaveDLTensor : Tensor -> stream).
Context (NDArray_Load : stream -> Result (Tensor * stream)).

Definition SaveHeader : stream :=
  Write_scalar 8 kTVMVMBytecodeMagic ++ Write_string (VM_VERSION D).

Definition LoadHeader (strm : stream) : Result stream :=
  match Read_uint 8 strm with
  | (None, _) => Fatal (format_error "header")
  | (Some header, strm1) =>
      if negb (header =? kTVMVMBytecodeMagic) then Fatal (format_error "header")
      else
        match Read_string strm1 with
        | (None, _) => Fatal (format_error "version")
        | (Some version, strm2) =>
            if negb (String.eqb version (VM_VERSION D))
            then Fatal (format_error "version")
            else Ok strm2
        end
  end.

Definition VMFuncInfo_Save (f : VMFuncInfo) : stream :=
  Write_scalar 4 (kind f) ++ Write_string (name f)
  ++ Write_scalar 8 (start_instr f) ++ Write_scalar 8 (end_instr f)
  ++ Write_scalar 8 (num_args f) ++ Write_scalar 8 (register_file_size f)
  ++ Write_vector Write_string (param_names f).

Definition VMFuncInfo_Load (strm : stream) : option VMFuncInfo * stream :=
  match Read_int 4 strm with
  | (None, s) => (None, s)
  | (Some temp_kind, s) =>
  match Read_string s with
  | (None, s) => (None, s)
  | (Some name, s) =>
  match Read_int 8 s with
  | (None, s) => (None, s)
  | (Some start_instr, s) =>
  match Read_int 8 s with
  | (None, s) => (None, s)
  | (Some end_instr, s) =>
  match Read_int 8 s with
  | (None, s) => (None, s)
  | (Some num_args, s) =>
  match Read_int 8 s with
  | (None, s) => (None, s)
  | (Some register_file_size, s) =>
  match Read_vector Read_string s with
  | (None, s) => (None, s)
  | (Some param_names, s) =>
      (Some {| kind := temp_kind; name := name; start_instr := start_instr;
               end_instr := end_instr; num_args := num_args;
               register_file_size := register_file_size;
               param_names := param_names |}, s)
  end end end end end end end.

Definition SaveGlobalSection (e : VMExecutable Tensor) : stream :=
  Write_vector VMFuncInfo_Save (func_table e).

(** The loop of [LoadGlobalSection]: [func_map[func_table[i].name] = i]. *)
Fixpoint setup_func_map (tbl : list VMFuncInfo) (i : Z) (m : gmap string Z)
    : gmap string Z :=
  match tbl with
  | [] => m
  | f :: tl => setup_func_map tl (i + 1) (<[name f := i]> m)
  end.

Definition LoadGlobalSection (strm : stream)
    : Result (list VMFuncInfo * gmap string Z * stream) :=
  match Read_vector VMFuncInfo_Load strm with
  | (None, _) => Fatal (format_error "Global Section")
  | (Some tbl, strm') => Ok (tbl, setup_func_map tbl 0 ∅, strm')
  end.

Definition SaveConstant (c : Constant Tensor) : Result stream :=
  match c with
  | CNDArray t => Ok (Write_scalar 4 (kTVMFFINDArray D) ++ SaveDLTensor t)
  | CShape shape =>
      Ok (Write_scalar 4 (kTVMFFIShape D)
          ++ Write_scalar 8 (Z.of_nat (length shape))
          ++ concat (map (Write_scalar 8) shape))
  | CString str =>
      Ok (Write_scalar 4 (kTVMFFIStr D)
          ++ Write_scalar 8 (Z.of_nat (String.length str))
          ++ concat (map (fun ch => Write_scalar 1 (Z_of_byte ch))
                         (list_ascii_of_string str)))
  | CInt v => Ok (Write_scalar 4 (kTVMFFIInt D) ++ Write_scalar 8 v)
  | CFloat v => Ok (Write_scalar 4 (kTVMFFIFloat D) ++ Write_scalar 8 v)
  | CDataType code bits lanes =>
      Ok (Write_scalar 4 (kTVMFFIDataType D)
          ++ Write_scalar 1 code ++ Write_scalar 1 bits ++ Write_scalar 2 lanes)
  | COther key => Fatal ("Unsupported constant pool type " +:+ key)
  end.

Fixpoint SaveConstants (cs : list (Constant Tensor)) : Result stream :=
  match cs with
  | [] => Ok []
  | c :: tl =>
      b ← SaveConstant c; rest ← SaveConstants tl; Ok (b ++ rest)
  end.

Definition SaveConstantSection (e : VMExecutable Tensor) : Result stream :=
  body ← SaveConstants (constants e);
  Ok (Write_scalar 8 (Z.of_nat (length (constants e))) ++ body).

Definition SaveCodeSection (e : VMExecutable Tensor) : stream :=
  Write_vector (Write_scalar 8) (instr_offset e)
  ++ Write_vector (Write_scalar 8) (instr_data e).

(** [SaveToBinary]: the four sections go to a string, which is written to the
    outer stream with its length in front. *)
Definition SaveSections (e : VMExecutable Tensor) : Result stream :=
  cs ← SaveConstantSection e;
  Ok (SaveHeader ++ SaveGlobalSection e ++ cs ++ SaveCodeSection e).

Definition SaveToBinary (e : VMExecutable Tensor) : Result stream :=
  code ← SaveSections e; Ok (Write_bytes code).

(** [n] unchecked reads of a [size]-byte element into a zero-initialised
    vector: an element whose bytes are not all there keeps zeros in the bytes
    that could not be copied. *)
Fixpoint Read_elems_unchecked (size n : nat) (s : stream) : list Z * stream :=
  match n with
  | O => ([], s)
  | S n' =>
      let '(bs, s') := Read_raw size s in
      let '(l, s'') := Read_elems_unchecked size n' s' in
      (le_value bs :: l, s'')
  end.

Definition DLDataType_of_bytes (bs : list byte) : Constant Tensor :=
  CDataType (le_value (firstn 1 bs)) (le_value (firstn 1 (skipn 1 bs)))
            (le_value (firstn 2 (skipn 2 bs))).

(** One iteration of the loop of [LoadConstantSection].  [dtype] is the local
    [DLDataType dtype], declared before the loop: [None] until it is first
    written.  A local that is read before all of its bytes were written has
    no defined value. *)
Definition LoadConstant (dtype : option (list byte)) (strm : stream)
    : Result (Constant Tensor * option (list byte) * stream) :=
  let '(tag, s) := Read_raw 4 strm in
  if Nat.eqb (length tag) 0 then Fatal (format_error "constant")
  else if negb (Nat.eqb (length tag) 4) then Unspecified
  else
    let constant_type := to_signed 32 (le_value tag) in
    if constant_type =? kTVMFFINDArray D then
      '(t, s') ← NDArray_Load s; Ok (CNDArray t, dtype, s')
    else if constant_type =? kTVMFFIShape D then
      match Read_uint 8 s with
      | (None, _) => Unspecified
      | (Some size, s1) =>
          let '(data, s2) := Read_elems_unchecked 8 (Z.to_nat size) s1 in
          Ok (CShape (map (to_signed 64) data), dtype, s2)
      end
    else if constant_type =? kTVMFFIDataType D then
      let '(bs, s1) := Read_raw 4 s in
      if Nat.eqb (length bs) 4 then Ok (DLDataType_of_bytes bs, Some bs, s1)
      else
        match dtype with
        | None => Unspecified
        | Some old =>
            let cur := bs ++ skipn (length bs) old in
            Ok (DLDataType_of_bytes cur, Some cur, s1)
        end
    else if constant_type =? kTVMFFIStr D then
      match Read_uint 8 s with
      | (None, _) => Unspecified
      | (Some size, s1) =>
          let '(data, s2) := Read_elems_unchecked 1 (Z.to_nat size) s1 in
          Ok (CString (string_of_list_ascii (map byte_of_Z data)), dtype, s2)
      end
    else if constant_type =? kTVMFFIInt D then
      match Read_int 8 s with
      | (None, _) => Unspecified
      | (Some value, s1) => Ok (CInt value, dtype, s1)
      end
    else if constant_type =? kTVMFFIFloat D then
      match Read_uint 8 s with
      | (None, _) => Unspecified
      | (Some value, s1) => Ok (CFloat value, dtype, s1)
      end
    else
      Fatal ("Constant pool can only contain NDArray and DLDataType, but got "
             +:+ TypeIndexToTypeKey D constant_type
             +:+ " when loading the VM constant pool.").

Fixpoint LoadConstants (n : nat) (dtype : option (list byte))
    (constants : list (Constant Tensor)) (strm : stream)
    : Result (list (Constant Tensor) * stream) :=
  match n with
  | O => Ok (constants, strm)
  | S n' =>
      '(c, dtype', strm') ← LoadConstant dtype strm;
      LoadConstants n' dtype' (constants ++ [c]) strm'
  end.

Definition LoadConstantSection (strm : stream)
    : Result (list (Constant Tensor) * stream) :=
  let '(bs, s) := Read_raw 8 strm in
  if Nat.eqb (length bs) 0 then Fatal (format_error "constant")
  else if negb (Nat.eqb (length bs) 8) then Unspecified
  else LoadConstants (Z.to_nat (le_value bs)) None [] s.

Definition LoadCodeSection (strm : stream)
    : Result (list Z * list Z * stream) :=
  match Read_vector (Read_int 8) strm with
  | (None, _) => Fatal (format_error "instr offset")
  | (Some instr_offset, s) =>
      match Read_vector (Read_int 8) s with
      | (None, _) => Fatal (format_error "instr data")
      | (Some instr_data, s') => Ok (instr_offset, instr_data, s')
      end
  end.

(** What [LoadFromBinary] does with the string it has read. *)
Definition LoadSections (code : stream) : Result (VMExecutable Tensor) :=
  strm ← LoadHeader code;
  '(tbl, fmap, strm) ← LoadGlobalSection strm;
  '(consts, strm) ← LoadConstantSection strm;
  '(offs, data, _) ← LoadCodeSection strm;
  Ok {| constants := consts; func_table := tbl; func_map := fmap;
        instr_offset := offs; instr_data := data |}.

(** [LoadFromBinary]: the flag of the outer read is not looked at. *)
Definition LoadFromBinary (stream : stream) : Result (VMExecutable Tensor) :=
  let '((_, code), _) := Read_bytes stream in
  LoadSections code.

(** *** Instructions and disassembly *)

Inductive Instruction :=
| Call (func_idx num_args args dst : Z)   (* [args]: where the arguments start *)
| Ret (result : Z)
| Goto (pc_offset : Z)
| If (cond false_offset : Z).

(** [v[i]] of a [std::vector]; out of range it has no defined value. *)
Definition at_index (v : list Z) (i : Z) : Result Z :=
  if i <? 0 then Unspecified
  else match v !! Z.to_nat i with
       | Some w => Ok w
       | None => Unspecified
       end.

Definition GetInstruction (e : VMExecutable Tensor) (i : Z)
    : Result Instruction :=
  offset ← at_index (instr_offset e) i;
  op ← at_index (instr_data e) offset;
  if op =? Opcode_Call D then
    dst ← at_index (instr_data e) (offset + 1);
    func_idx ← at_index (instr_data e) (offset + 2);
    num_args ← at_index (instr_data e) (offset + 3);
    Ok (Call func_idx num_args (offset + 4) dst)
  else if op =? Opcode_Ret D then
    result ← at_index (instr_data e) (offset + 1);
    Ok (Ret result)
  else if op =? Opcode_Goto D then
    pc_offset ← at_index (instr_data e) (offset + 1);
    Ok (Goto pc_offset)
  else if op =? Opcode_If D then
    cond ← at_index (instr_data e) (offset + 1);
    false_offset ← at_index (instr_data e) (offset + 2);
    Ok (If cond false_offset)
  else Fatal ("should never hit this case: " +:+ to_string op).

(** [StrJoin(items, 0, cnt, delim, repr)]; [item i] is [repr(items[i])]. *)
Fixpoint StrJoin_loop (item : Z -> Result string) (delim : string)
    (n : nat) (i : Z) (acc : string) : Result string :=
  match n with
  | O => Ok acc
  | S n' =>
      x ← item i; StrJoin_loop item delim n' (i + 1) (acc +:+ delim +:+ x)
  end.

Definition StrJoin (item : Z -> Result string) (cnt : Z) (delim : string)
    : Result string :=
  if cnt =? 0 then Ok ""
  else x ← item 0; StrJoin_loop item delim (Z.to_nat (cnt - 1)) 1 x.

Definition RegNameToStr (reg : Z) : string :=
  if reg =? kVoidRegister D then "%void"
  else if reg =? kVMRegister D then "%vm"
  else "%" +:+ to_string reg.

(** [os << std::setw(w) << std::left << s]. *)
Definition setw_left (w : nat) (s : string) : string :=
  s +:+ string_of_list_ascii (repeat " "%char (w - String.length s)).

Definition in_table (e : VMExecutable Tensor) (index : Z) : bool :=
  (0 <=? index) && (index <? Z.of_nat (length (func_table e))).

Definition func_name_at (e : VMExecutable Tensor) (index : Z) : string :=
  match func_table e !! Z.to_nat index with
  | Some f => name f
  | None => ""
  end.

(** The value of an [Index] converted to [size_t], and of an [Index]
    converted to [int]. *)
Definition to_size_t (z : Z) : Z := z mod 2 ^ 64.
Definition to_int (z : Z) : Z := to_signed 32 (z mod 2 ^ 32).

(** The instructions [start_instr, end_instr) of a function, as the
    [size_t] loop visits them. *)
Definition instr_range (f : VMFuncInfo) : list Z :=
  let s := to_size_t (start_instr f) in
  let e := to_size_t (end_instr f) in
  map (fun k => to_signed 64 (s + Z.of_nat k)) (seq 0 (Z.to_nat (e - s))).

Fixpoint concat_results (l : list (Result string)) : Result string :=
  match l with
  | [] => Ok ""
  | r :: tl => x ← r; rest ← concat_results tl; Ok (x +:+ rest)
  end.

Definition kind_check_failed : string :=
  "Check failed: (gfunc.kind == VMFuncInfo::FuncKind::kVMFunc) is false: ".

Section AsText.
Context (e : VMExecutable Tensor).

Definition AsText_get_func_name (index : Z) : string :=
  if in_table e index then func_name_at e index
  else "unknown_func_index(" +:+ to_string index +:+ ")".

Definition instr_to_str (arg : Z) : Result string :=
  let k := Arg_kind D arg in
  if k =? kRegister D then Ok (RegNameToStr (Arg_value D arg))
  else if k =? kImmediate D then Ok ("i" +:+ to_string (Arg_value D arg))
  else if k =? kConstIdx D then Ok ("c[" +:+ to_string (Arg_value D arg) +:+ "]")
  else if k =? kFuncIdx D then
    Ok ("f[" +:+ AsText_get_func_name (Arg_value D arg) +:+ "]")
  else Fatal ("Wrong instruction kind: " +:+ to_string k).

Definition AsText_instr (idx : Z) : Result string :=
  instr ← GetInstruction e idx;
  match instr with
  | Call func_idx num_args args dst =>
      joined ← StrJoin (fun i => w ← at_index (instr_data e) (args + i);
                                 instr_to_str w)
                       (to_int num_args) ", ";
      Ok ("  " +:+ setw_left 6 "call"
          +:+ setw_left 16 (AsText_get_func_name func_idx)
          +:+ " in: " +:+ setw_left 12 joined
          +:+ " dst: " +:+ RegNameToStr dst +:+ newline)
  | Ret result =>
      Ok ("  " +:+ setw_left 6 "ret " +:+ RegNameToStr result +:+ newline)
  | Goto pc_offset =>
      Ok ("  " +:+ setw_left 6 "goto" +:+ to_string pc_offset +:+ newline)
  | If cond false_offset =>
      Ok ("  " +:+ setw_left 6 "If" +:+ RegNameToStr cond +:+ ", "
          +:+ to_string false_offset +:+ newline)
  end.

Definition AsText_func (gfunc : VMFuncInfo) : Result string :=
  if kind gfunc =? kPackedFunc D then
    Ok ("@" +:+ name gfunc +:+ " packed_func;" +:+ newline +:+ newline)
  else if kind gfunc =? kVMTIRFunc D then
    Ok ("@" +:+ name gfunc +:+ " num_inputs=" +:+ to_string (num_args gfunc)
        +:+ " vm_tir_func;" +:+ newline +:+ newline)
  else if negb (kind gfunc =? kVMFunc D) then Fatal kind_check_failed
  else
    body ← concat_results (map AsText_instr (instr_range gfunc));
    Ok ("@" +:+ name gfunc +:+ ":" +:+ newline +:+ body +:+ newline).

Definition AsText : Result string :=
  concat_results (map AsText_func (func_table e)).

End AsText.

Section AsPython.
Context (e : VMExecutable Tensor).

Definition quote : string := String (ascii_of_nat 34) EmptyString.

Definition AsPython_get_func_name (index : Z) : string :=
  if in_table e index then quote +:+ func_name_at e index +:+ quote
  else "ib.unknown_func_index(" +:+ to_string index +:+ ")".

Definition arg_to_py_str (arg : Z) : Result string :=
  let k := Arg_kind D arg in
  if k =? kRegister D then
    if Arg_value D arg =? kVMRegister D then Ok "ib.r(vm)"
    else Ok ("ib.r(" +:+ to_string (Arg_value D arg) +:+ ")")
  else if k =? kImmediate D then
    Ok ("ib.imm(" +:+ to_string (Arg_value D arg) +:+ ")")
  else if k =? kConstIdx D then
    Ok ("ib.c(" +:+ to_string (Arg_value D arg) +:+ ")")
  else if k =? kFuncIdx D then
    Ok ("ib.f(" +:+ AsPython_get_func_name (Arg_value D arg) +:+ ")")
  else Fatal ("Wrong instruction kind: " +:+ to_string k).

Definition AsPython_instr (idx : Z) : Result string :=
  instr ← GetInstruction e idx;
  match instr with
  | Call func_idx num_args args dst =>
      joined ← StrJoin (fun i => w ← at_index (instr_data e) (args + i);
                                 arg_to_py_str w)
                       (to_int num_args) ", ";
      Ok ("    ib.emit_call(" +:+ AsPython_get_func_name func_idx
          +:+ ", args=[" +:+ joined +:+ "]"
          +:+ (if negb (dst =? kVoidRegister D)
               then ", dst=ib.r(" +:+ to_string dst +:+ ")" else "")
          +:+ ")" +:+ newline)
  | Ret result =>
      Ok ("    ib.emit_ret(ib.r(" +:+ to_string result +:+ "))" +:+ newline)
  | Goto pc_offset =>
      Ok ("    ib.emit_goto(" +:+ to_string pc_offset +:+ ")" +:+ newline)
  | If cond false_offset =>
      Ok ("    ib.emit_if(ib.r(" +:+ to_string cond +:+ "), "
          +:+ to_string false_offset +:+ ")" +:+ newline)
  end.

Definition AsPython_func (gfunc : VMFuncInfo) : Result string :=
  if kind gfunc =? kPackedFunc D then Ok ""
  else if kind gfunc =? kVMTIRFunc D then Ok ""
  else if negb (kind gfunc =? kVMFunc D) then Fatal kind_check_failed
  else
    body ← concat_results (map AsPython_instr (instr_range gfunc));
    Ok ("with ib.function(" +:+ quote +:+ name gfunc +:+ quote
        +:+ ", num_inputs=" +:+ to_string (num_args gfunc) +:+ "):"
        +:+ newline +:+ body).

Definition AsPython_preamble : string := "ib = rx.Builder()" +:+ newline.

Definition AsPython : Result string :=
  body ← concat_results (map AsPython_func (func_table e));
  Ok (AsPython_preamble +:+ body).

End AsPython.

End Codec.

(** The numbering used by the headers of the repository at the revision of
    the sources; the closed examples below are evaluated with it. *)
Definition tvm_decls : Decls := {|
  VM_VERSION := "0.14";
  kPackedFunc := 0; kVMFunc := 1; kVMTIRFunc := 2;
  Opcode_Call := 1; Opcode_Ret := 2; Opcode_Goto := 3; Opcode_If := 4;
  kRegister := 0; kImmediate := 1; kConstIdx := 2; kFuncIdx := 3;
  Arg_kind := fun w => Z.land (Z.shiftr w 56) 255;
  Arg_value := fun w => to_signed 56 (Z.land w (2 ^ 56 - 1));
  kVoidRegister := 2 ^ 54;
  kVMRegister := 2 ^ 54 + 1;
  kTVMFFINDArray := 70; kTVMFFIShape := 69; kTVMFFIStr := 65;
  kTVMFFIInt := 1; kTVMFFIFloat := 3; kTVMFFIDataType := 5;
  TypeIndexToTypeKey := fun z => "type_index(" +:+ to_string z +:+ ")"
|}.

(** [Instruction::Arg(kind, value)]. *)
Definition Arg (kind value : Z) : Z :=
  to_signed 64 (Z.lor (Z.shiftl kind 56) (Z.land value (2 ^ 56 - 1))).

(** *** Statistics, lookup and patching *)

(** A [std::ostringstream]: the characters written so far, the put position
    and the fail bit.  [operator<<] writes at the put position, over what is
    there, and does nothing once the fail bit is set. *)
Record ostringstream := {
  oss_str : list ascii;
  oss_pos : nat;
  oss_fail : bool
}.

Definition oss_new : ostringstream :=
  {| oss_str := []; oss_pos := 0; oss_fail := false |}.

Definition oss_put (s : string) (o : ostringstream) : ostringstream :=
  if oss_fail o then o
  else
    let l := list_ascii_of_string s in
    {| oss_str := firstn (oss_pos o) (oss_str o) ++ l
                  ++ skipn (oss_pos o + length l) (oss_str o);
       oss_pos := oss_pos o + length l;
       oss_fail := false |}.

(** [oss.seekp(off, oss.cur)]: a position outside of the characters written
    sets the fail bit. *)
Definition oss_seekp_cur (off : Z) (o : ostringstream) : ostringstream :=
  if oss_fail o then o
  else
    let p := Z.of_nat (oss_pos o) + off in
    if (p <? 0) || (Z.of_nat (length (oss_str o)) <? p)
    then {| oss_str := oss_str o; oss_pos := oss_pos o; oss_fail := true |}
    else {| oss_str := oss_str o; oss_pos := Z.to_nat p; oss_fail := false |}.

Section Inspection.
Context (D : Decls) {Tensor : Type}.
(** [NDArray::Shape] and the printing of a [DataType] are external
    collaborators. *)
Context (NDArray_Shape : Tensor -> list Z).
Context (DataType_str : Z -> Z -> Z -> string).

(** The loops [for (auto s : shape) oss << s << ", "]. *)
Definition Stats_dims (dims : list Z) (o : ostringstream) : ostringstream :=
  fold_left (fun o s => oss_put ", " (oss_put (to_string s) o)) dims o.

(** One iteration of the loop over the constant pool of [Stats]. *)
Definition Stats_constant (c : Constant Tensor) (o : ostringstream)
    : Result ostringstream :=
  match c with
  | CNDArray t =>
      match NDArray_Shape t with
      | [] => Ok (oss_put "scalar, " o)
      | shape =>
          Ok (oss_put "], "
                (oss_seekp_cur (-2) (Stats_dims shape (oss_put "[" o))))
      end
  | CShape shape =>
      Ok (oss_put "], "
            (oss_seekp_cur (-2) (Stats_dims shape (oss_put "shapetuple[" o))))
  | CString f => Ok (oss_put (quote +:+ ", ") (oss_put f (oss_put quote o)))
  | CInt v => Ok (oss_put ", " (oss_put (to_string v) o))
  | CDataType code bits lanes =>
      Ok (oss_put ", " (oss_put (DataType_str code bits lanes) o))
  | CFloat _ =>
      Fatal ("Unsupported constant pool type "
             +:+ TypeIndexToTypeKey D (kTVMFFIFloat D))
  | COther key => Fatal ("Unsupported constant pool type " +:+ key)
  end.

Fixpoint Stats_constants (cs : list (Constant Tensor)) (o : ostringstream)
    : Result ostringstream :=
  match cs with
  | [] => Ok o
  | c :: tl => o' ← Stats_constant c o; Stats_constants tl o'
  end.

Definition Stats_globals (tbl : list VMFuncInfo) (o : ostringstream)
    : ostringstream :=
  fold_left (fun o f => oss_put ", " (oss_put (name f) o)) tbl o.

Definition Stats (e : VMExecutable Tensor) : Result string :=
  let o := oss_put newline (oss_put "Relax VM executable statistics:" oss_new) in
  let o := oss_put "): ["
             (oss_put (to_string (Z.of_nat (length (constants e))))
                      (oss_put "  Constant pool (# " o)) in
  o ← Stats_constants (constants e) o;
  let o := match constants e with
           | [] => o
           | _ :: _ => oss_seekp_cur (-2) o
           end in
  let o := oss_put newline (oss_put "]" o) in
  let o := oss_put "): ["
             (oss_put (to_string (Z.of_nat (length (func_table e))))
                      (oss_put "  Globals (#" o)) in
  let o := Stats_globals (func_table e) o in
  let o := if bool_decide (func_map e = ∅) then o else oss_seekp_cur (-2) o in
  let o := oss_put newline (oss_put "]" o) in
  Ok (string_of_list_ascii (oss_str o)).

(** [SetInstructionData]: the two bounds are checked in [size_t]; the sum of
    two [Index] values that does not fit 64 bits has no defined value. *)
Definition SetInstructionData (e : VMExecutable Tensor) (i j val : Z)
    : Result (VMExecutable Tensor) :=
  if negb (to_size_t i <? Z.of_nat (length (instr_offset e)))
  then Fatal "Check failed: i < instr_offset.size()"
  else
    instr_idx ← at_index (instr_offset e) i;
    let k := instr_idx + j in
    if (k <? - 2 ^ 63) || (2 ^ 63 <=? k) then Unspecified
    else if negb (to_size_t k <? Z.of_nat (length (instr_data e)))
    then Fatal "Check failed: instr_idx + j < instr_data.size()"
    else
      Ok {| constants := constants e; func_table := func_table e;
            func_map := func_map e; instr_offset := instr_offset e;
            instr_data := <[Z.to_nat k := val]> (instr_data e) |}.

(** [HasFunction]: [func_map.count(name)]. *)
Definition HasFunction (e : VMExecutable Tensor) (name : string) : bool :=
  bool_decide (is_Some (func_map e !! name)).

End Inspection.

End VM.

(** ** The structural-equality engine *)
Module SEqual.

(** An object reference is the address of the object, or undefined. *)
Definition ObjectRef := option positive.

Definition same_as (a b : ObjectRef) : bool := bool_decide (a = b).

(** Modelled from the spec: [ObjectPath] ([object_path.h] is not part of the
    sources).  A path is the root followed by segments; [Attr] with no name
    appends [Missing]. *)
Inductive Segment :=
| AttrSegment (name : string)
| IndexSegment (i : Z)
| MissingSegment.

Definition ObjectPath := list Segment.
Definition Root : ObjectPath := [].
Definition Attr (path : ObjectPath) (attr_key : option string) : ObjectPath :=
  path ++ [match attr_key with
           | Some k => AttrSegment k
           | None => MissingSegment
           end].
Definition Index (path : ObjectPath) (i : Z) : ObjectPath :=
  path ++ [IndexSegment i].

Record ObjectPathPair := { lhs_path : ObjectPath; rhs_path : ObjectPath }.

(** [ffi::Any]: a type index with a 64-bit payload, or an object. *)
Inductive Any :=
| AnyPOD (type_index : Z) (v_uint64 : Z)
| AnyObject (obj : positive).

(** [Impl::Task]. *)
Record Task := {
  lhs : ObjectRef;
  rhs : ObjectRef;
  current_paths : option ObjectPathPair;
  map_free_vars : bool;
  children_expanded : bool;
  graph_equal : bool;
  force_fail : bool
}.

Definition new_Task (lhs rhs : ObjectRef) (map_free_vars : bool)
    (current_paths : option ObjectPathPair) : Task :=
  {| lhs := lhs; rhs := rhs; current_paths := current_paths;
     map_free_vars := map_free_vars; children_expanded := false;
     graph_equal := false; force_fail := false |}.

Definition ForceFail_Task (current_paths : ObjectPathPair) : Task :=
  {| lhs := None; rhs := None; current_paths := Some current_paths;
     map_free_vars := false; children_expanded := false;
     graph_equal := false; force_fail := true |}.

(** The state of [SEqualHandlerDefault::Impl].  [task_stack_] is kept with
    its back first; [pending_tasks_] in the order of [emplace_back].
    [first_mismatch_] is [None] for a null pointer (path tracing disabled)
    and otherwise holds the content of the slot pointed to. *)
Record Impl := {
  pending_tasks_ : list Task;
  task_stack_ : list Task;
  allow_push_to_stack_ : bool;
  assert_mode_ : bool;
  first_mismatch_ : option (option ObjectPathPair);
  equal_map_lhs_ : gmap ObjectRef ObjectRef;
  equal_map_rhs_ : gmap ObjectRef ObjectRef;
  root_lhs_ : option Any;
  root_rhs_ : option Any;
  defer_fails_ : bool
}.

Definition set_pending (st : Impl) (p : list Task) : Impl :=
  {| pending_tasks_ := p; task_stack_ := task_stack_ st;
     allow_push_to_stack_ := allow_push_to_stack_ st;
     assert_mode_ := assert_mode_ st; first_mismatch_ := first_mismatch_ st;
     equal_map_lhs_ := equal_map_lhs_ st; equal_map_rhs_ := equal_map_rhs_ st;
     root_lhs_ := root_lhs_ st; root_rhs_ := root_rhs_ st;
     defer_fails_ := defer_fails_ st |}.

Definition set_stack (st : Impl) (s : list Task) : Impl :=
  {| pending_tasks_ := pending_tasks_ st; task_stack_ := s;
     allow_push_to_stack_ := allow_push_to_stack_ st;
     assert_mode_ := assert_mode_ st; first_mismatch_ := first_mismatch_ st;
     equal_map_lhs_ := equal_map_lhs_ st; equal_map_rhs_ := equal_map_rhs_ st;
     root_lhs_ := root_lhs_ st; root_rhs_ := root_rhs_ st;
     defer_fails_ := defer_fails_ st |}.

Definition set_allow_push (st : Impl) (b : bool) : Impl :=
  {| pending_tasks_ := pending_tasks_ st; task_stack_ := task_stack_ st;
     allow_push_to_stack_ := b;
     assert_mode_ := assert_mode_ st; first_mismatch_ := first_mismatch_ st;
     equal_map_lhs_ := equal_map_lhs_ st; equal_map_rhs_ := equal_map_rhs_ st;
     root_lhs_ := root_lhs_ st; root_rhs_ := root_rhs_ st;
     defer_fails_ := defer_fails_ st |}.

Definition set_first_mismatch (st : Impl) (m : option (option ObjectPathPair))
    : Impl :=
  {| pending_tasks_ := pending_tasks_ st; task_stack_ := task_stack_ st;
     allow_push_to_stack_ := allow_push_to_stack_ st;
     assert_mode_ := assert_mode_ st; first_mismatch_ := m;
     equal_map_lhs_ := equal_map_lhs_ st; equal_map_rhs_ := equal_map_rhs_ st;
     root_lhs_ := root_lhs_ st; root_rhs_ := root_rhs_ st;
     defer_fails_ := defer_fails_ st |}.

Definition set_maps (st : Impl) (ml mr : gmap ObjectRef ObjectRef) : Impl :=
  {| pending_tasks_ := pending_tasks_ st; task_stack_ := task_stack_ st;
     allow_push_to_stack_ := allow_push_to_stack_ st;
     assert_mode_ := assert_mode_ st; first_mismatch_ := first_mismatch_ st;
     equal_map_lhs_ := ml; equal_map_rhs_ := mr;
     root_lhs_ := root_lhs_ st; root_rhs_ := root_rhs_ st;
     defer_fails_ := defer_fails_ st |}.

Definition set_roots (st : Impl) (l r : option Any) : Impl :=
  {| pending_tasks_ := pending_tasks_ st; task_stack_ := task_stack_ st;
     allow_push_to_stack_ := allow_push_to_stack_ st;
     assert_mode_ := assert_mode_ st; first_mismatch_ := first_mismatch_ st;
     equal_map_lhs_ := equal_map_lhs_ st; equal_map_rhs_ := equal_map_rhs_ st;
     root_lhs_ := l; root_rhs_ := r;
     defer_fails_ := defer_fails_ st |}.

(** [Impl(parent, assert_mode, first_mismatch, defer_fails)]. *)
Definition new_Impl (assert_mode : bool)
    (first_mismatch : option (option ObjectPathPair)) (defer_fails : bool)
    : Impl :=
  {| pending_tasks_ := []; task_stack_ := [];
     allow_push_to_stack_ := true;
     assert_mode_ := assert_mode; first_mismatch_ := first_mismatch;
     equal_map_lhs_ := ∅; equal_map_rhs_ := ∅;
     root_lhs_ := None; root_rhs_ := None;
     defer_fails_ := defer_fails |}.

(** What a per-type reduction callback can do with the reducer it is given:
    the calls on the handler ([equal->...]) and the accesses to the
    first-mismatch slot of its tracing data.  A callback is a program over
    these operations. *)
Inductive Prog (A : Type) : Type :=
| Return (a : A)
| Abort (msg : string)
| SEqualReduceOp (lhs rhs : ObjectRef) (map_free_vars : bool)
    (current_paths : option ObjectPathPair) (k : bool -> Prog A)
| DeferFailOp (mismatch_paths : ObjectPathPair) (k : Prog A)
| IsFailDeferralEnabledOp (k : bool -> Prog A)
| MarkGraphNodeOp (k : Prog A)
| MapLhsToRhsOp (lhs : ObjectRef) (k : ObjectRef -> Prog A)
| FirstMismatchDefinedOp (k : bool -> Prog A)
| FirstMismatchStoreOp (paths : ObjectPathPair) (k : Prog A).
Arguments Return {A} a.
Arguments Abort {A} msg.
Arguments SEqualReduceOp {A} lhs rhs map_free_vars current_paths k.
Arguments DeferFailOp {A} mismatch_paths k.
Arguments IsFailDeferralEnabledOp {A} k.
Arguments MarkGraphNodeOp {A} k.
Arguments MapLhsToRhsOp {A} lhs k.
Arguments FirstMismatchDefinedOp {A} k.
Arguments FirstMismatchStoreOp {A} paths k.

Fixpoint Prog_bind {A B} (k : A -> Prog B) (p : Prog A) : Prog B :=
  match p with
  | Return a => k a
  | Abort m => Abort m
  | SEqualReduceOp l r m c k' =>
      SEqualReduceOp l r m c (fun b => Prog_bind k (k' b))
  | DeferFailOp c k' => DeferFailOp c (Prog_bind k k')
  | IsFailDeferralEnabledOp k' =>
      IsFailDeferralEnabledOp (fun b => Prog_bind k (k' b))
  | MarkGraphNodeOp k' => MarkGraphNodeOp (Prog_bind k k')
  | MapLhsToRhsOp l k' => MapLhsToRhsOp l (fun o => Prog_bind k (k' o))
  | FirstMismatchDefinedOp k' =>
      FirstMismatchDefinedOp (fun b => Prog_bind k (k' b))
  | FirstMismatchStoreOp c k' => FirstMismatchStoreOp c (Prog_bind k k')
  end.

#[global] Instance Prog_ret : MRet Prog := fun A a => Return a.
#[global] Instance Prog_mbind : MBind Prog := fun A B k p => Prog_bind k p.

(** [if (!first_mismatch->defined()) *first_mismatch = paths]. *)
Definition store_if_undefined (paths : ObjectPathPair) : Prog unit :=
  FirstMismatchDefinedOp (fun defined =>
    if defined then Return tt else FirstMismatchStoreOp paths (Return tt)).

(** [SEqualReducer::PathTracingData]; its [first_mismatch] is the slot of the
    engine. *)
Record PathTracingData := {
  td_current_paths : ObjectPathPair;
  lhs_object : ObjectRef;
  rhs_object : ObjectRef
}.

(** [SEqualReducer]. *)
Record SEqualReducer := {
  tracing_data_ : option PathTracingData;
  map_free_vars_ : bool
}.

Section Engine.
(** The collaborators of the engine: the type index of an object, the first
    type index of objects, the reflection table of per-type callbacks
    ([None]: not registered) and the reflection lookup of an attribute name
    by the address of the attribute. *)
Context (type_index : positive -> Z).
Context (kTVMFFIStaticObjectBegin : Z).
Context (fsequal_reduce_ :
           Z -> option (positive -> positive -> SEqualReducer -> Prog bool)).
Context (GetAttrKeyByAddress : ObjectRef -> Z -> option string).

Definition not_registered : string :=
  "TypeError: SEqualReduce is not registered via TVM_REGISTER_NODE_TYPE.".

(** [ReflectionVTable::SEqualReduce]. *)
Definition ReflectionVTable_SEqualReduce (self other : positive)
    (equal : SEqualReducer) : Prog bool :=
  match fsequal_reduce_ (type_index self) with
  | None => Abort not_registered
  | Some f => f self other equal
  end.

Definition GetAttrPath (obj : ObjectRef) (attr_address : Z) (path : ObjectPath)
    : ObjectPath :=
  Attr path (GetAttrKeyByAddress obj attr_address).

Definition GetPathsForAttrs (td : PathTracingData) (lhs_address rhs_address : Z)
    : ObjectPathPair :=
  {| lhs_path := GetAttrPath (lhs_object td) lhs_address
                             (lhs_path (td_current_paths td));
     rhs_path := GetAttrPath (rhs_object td) rhs_address
                             (rhs_path (td_current_paths td)) |}.

(** *** The reducer facade.  References are passed with their addresses,
    which the path synthesis looks up. *)

Definition ObjectAttrsEqual (equal : SEqualReducer) (lhs rhs : ObjectRef)
    (lhs_address rhs_address : Z) (map_free_vars : bool)
    (paths : option ObjectPathPair) : Prog bool :=
  match tracing_data_ equal with
  | None => SEqualReduceOp lhs rhs map_free_vars None Return
  | Some td =>
      let new_paths := match paths with
                       | None => GetPathsForAttrs td lhs_address rhs_address
                       | Some p => p
                       end in
      SEqualReduceOp lhs rhs map_free_vars (Some new_paths) (fun ok =>
        if ok then Return true
        else _ ← store_if_undefined new_paths; Return false)
  end.

(** [SEqualReducer::operator()(const ObjectRef&, const ObjectRef&)]. *)
Definition reduce_object (equal : SEqualReducer) (lhs rhs : ObjectRef)
    (lhs_address rhs_address : Z) : Prog bool :=
  match tracing_data_ equal with
  | None => SEqualReduceOp lhs rhs (map_free_vars_ equal) None Return
  | Some _ =>
      ObjectAttrsEqual equal lhs rhs lhs_address rhs_address
                       (map_free_vars_ equal) None
  end.

Definition DefEqual (equal : SEqualReducer) (lhs rhs : ObjectRef)
    (lhs_address rhs_address : Z) : Prog bool :=
  match tracing_data_ equal with
  | None => SEqualReduceOp lhs rhs true None Return
  | Some _ => ObjectAttrsEqual equal lhs rhs lhs_address rhs_address true None
  end.

Definition GetPathsFromAttrAddressesAndStoreMismatch
    (lhs_address rhs_address : Z) (tracing_data : option PathTracingData)
    : Prog unit :=
  match tracing_data with
  | None => Return tt
  | Some td =>
      store_if_undefined (GetPathsForAttrs td lhs_address rhs_address)
  end.

(** [CompareAttributeValues]; [values_equal] is the verdict of
    [BaseValueEqual] on the two values. *)
Definition CompareAttributeValues (values_equal : bool)
    (lhs_address rhs_address : Z) (tracing_data : option PathTracingData)
    (paths : option ObjectPathPair) : Prog bool :=
  if values_equal then Return true
  else
    match tracing_data with
    | None => Return false
    | Some td =>
        FirstMismatchDefinedOp (fun defined =>
          if defined then Return false
          else
            match paths with
            | Some p => FirstMismatchStoreOp p (Return false)
            | None =>
                _ ← GetPathsFromAttrAddressesAndStoreMismatch
                      lhs_address rhs_address tracing_data;
                Return false
            end)
    end.

(** [SEqualReducer::operator()] on [int64_t]. *)
Definition reduce_int64 (equal : SEqualReducer) (lhs rhs : Z)
    (lhs_address rhs_address : Z) (paths : option ObjectPathPair) : Prog bool :=
  CompareAttributeValues (lhs =? rhs) lhs_address rhs_address
                         (tracing_data_ equal) paths.

Definition EnumAttrsEqual (equal : SEqualReducer) (lhs rhs : Z)
    (lhs_address rhs_address : Z) (paths : option ObjectPathPair) : Prog bool :=
  if lhs =? rhs then Return true
  else
    match tracing_data_ equal with
    | None => Return false
    | Some td =>
        FirstMismatchDefinedOp (fun defined =>
          if defined then Return false
          else
            match paths with
            | Some p => FirstMismatchStoreOp p (Return false)
            | None =>
                _ ← GetPathsFromAttrAddressesAndStoreMismatch
                      lhs_address rhs_address (tracing_data_ equal);
                Return false
            end)
    end.

Definition GetCurrentObjectPaths (equal : SEqualReducer) : Prog ObjectPathPair :=
  match tracing_data_ equal with
  | None =>
      Abort "GetCurrentObjectPaths() can only be called when path tracing is enabled"
  | Some td => Return (td_current_paths td)
  end.

Definition RecordMismatchPaths (equal : SEqualReducer) (paths : ObjectPathPair)
    : Prog unit :=
  match tracing_data_ equal with
  | None =>
      Abort "RecordMismatchPaths() can only be called when path tracing is enabled"
  | Some _ => store_if_undefined paths
  end.

(** *** The handler *)

Definition IsPathTracingEnabled (st : Impl) : bool :=
  match first_mismatch_ st with Some _ => true | None => false end.

Definition IsFailDeferralEnabled (st : Impl) : bool := defer_fails_ st.

Definition first_mismatch_defined (st : Impl) : bool :=
  match first_mismatch_ st with Some (Some _) => true | _ => false end.

Definition check_failed : string :=
  "ValueError: StructuralEqual check failed".

(** [CheckResult]; the two references are only printed. *)
Definition CheckResult (result : bool) (current_paths : option ObjectPathPair)
    (st : Impl) : Result (bool * Impl) :=
  let st1 :=
    if IsPathTracingEnabled st && negb result && negb (first_mismatch_defined st)
    then set_first_mismatch st (Some current_paths) else st in
  if assert_mode_ st && negb result then Fatal check_failed
  else Ok (result, st1).

Definition defined (o : ObjectRef) : bool :=
  match o with Some _ => true | None => false end.

Definition ref_type_index (o : ObjectRef) : Z :=
  match o with Some a => type_index a | None => 0 end.

(** The early-result rules of [SEqualReduce], in order. *)
Definition early_result (lhs rhs : ObjectRef) (st : Impl) : option bool :=
  if negb (defined lhs) && negb (defined rhs) then Some true
  else if negb (defined lhs) && defined rhs then Some false
  else if negb (defined rhs) && defined lhs then Some false
  else if negb (ref_type_index lhs =? ref_type_index rhs) then Some false
  else
    match equal_map_lhs_ st !! lhs with
    | Some it => Some (same_as it rhs)
    | None =>
        match equal_map_rhs_ st !! rhs with
        | Some _ => Some false
        | None => None
        end
    end.

Definition DeferFail (mismatch_paths : ObjectPathPair) (st : Impl) : Impl :=
  set_pending st (pending_tasks_ st ++ [ForceFail_Task mismatch_paths]).

Definition SEqualReduce (lhs rhs : ObjectRef) (map_free_vars : bool)
    (current_paths : option ObjectPathPair) (st : Impl) : Result (bool * Impl) :=
  let '(run, st1) :=
    match early_result lhs rhs st with
    | Some true => (true, st)
    | Some false =>
        match current_paths with
        | Some paths =>
            if IsPathTracingEnabled st && IsFailDeferralEnabled st
            then (true, DeferFail paths st)
            else (false, st)
        | None => (false, st)
        end
    | None =>
        (true, set_pending st (pending_tasks_ st
                               ++ [new_Task lhs rhs map_free_vars current_paths]))
    end in
  CheckResult run current_paths st1.

Definition mark_graph_equal (t : Task) : Task :=
  {| lhs := lhs t; rhs := rhs t; current_paths := current_paths t;
     map_free_vars := map_free_vars t;
     children_expanded := children_expanded t;
     graph_equal := true; force_fail := force_fail t |}.

Definition mark_children_expanded (t : Task) : Task :=
  {| lhs := lhs t; rhs := rhs t; current_paths := current_paths t;
     map_free_vars := map_free_vars t;
     children_expanded := true;
     graph_equal := graph_equal t; force_fail := force_fail t |}.

Definition MarkGraphNode (st : Impl) : Result Impl :=
  match task_stack_ st with
  | back :: rest =>
      if negb (allow_push_to_stack_ st)
      then Ok (set_stack st (mark_graph_equal back :: rest))
      else Fatal "Check failed: (!allow_push_to_stack_ && !task_stack_.empty()) is false"
  | [] => Fatal "Check failed: (!allow_push_to_stack_ && !task_stack_.empty()) is false"
  end.

Definition MapLhsToRhs (lhs : ObjectRef) (st : Impl) : ObjectRef :=
  match equal_map_lhs_ st !! lhs with
  | Some it => it
  | None => lhs
  end.

(** Running a callback against the handler. *)
Fixpoint run {A} (p : Prog A) (st : Impl) : Result (A * Impl) :=
  match p with
  | Return a => Ok (a, st)
  | Abort msg => Fatal msg
  | SEqualReduceOp l r m c k =>
      '(b, st') ← SEqualReduce l r m c st; run (k b) st'
  | DeferFailOp c k => run k (DeferFail c st)
  | IsFailDeferralEnabledOp k => run (k (IsFailDeferralEnabled st)) st
  | MarkGraphNodeOp k => st' ← MarkGraphNode st; run k st'
  | MapLhsToRhsOp l k => run (k (MapLhsToRhs l st)) st
  | FirstMismatchDefinedOp k =>
      match first_mismatch_ st with
      | None => Unspecified
      | Some slot =>
          run (k (match slot with Some _ => true | None => false end)) st
      end
  | FirstMismatchStoreOp c k =>
      match first_mismatch_ st with
      | None => Unspecified
      | Some _ => run k (set_first_mismatch st (Some (Some c)))
      end
  end.

(** [DispatchSEqualReduce]: the default equal as registered in the
    structural equal vtable. *)
Definition DispatchSEqualReduce (lhs rhs : ObjectRef) (map_free_vars : bool)
    (current_paths : option ObjectPathPair) (st : Impl) : Result (bool * Impl) :=
  '(compute, st1) ←
    match lhs, rhs with
    | Some l, Some r =>
        if negb (type_index l =? type_index r)
        then Fatal "Check failed: lhs.defined() && rhs.defined() && lhs->type_index() == rhs->type_index()"
        else
          match equal_map_lhs_ st !! lhs with
          | Some it => Ok (same_as it rhs, st)
          | None =>
              match equal_map_rhs_ st !! rhs with
              | Some _ => Ok (false, st)
              | None =>
                  if negb (IsPathTracingEnabled st) then
                    run (ReflectionVTable_SEqualReduce l r
                           {| tracing_data_ := None;
                              map_free_vars_ := map_free_vars |}) st
                  else
                    match current_paths with
                    | None => Fatal "Bad optional access"
                    | Some paths =>
                        run (ReflectionVTable_SEqualReduce l r
                               {| tracing_data_ :=
                                    Some {| td_current_paths := paths;
                                            lhs_object := lhs;
                                            rhs_object := rhs |};
                                  map_free_vars_ := map_free_vars |}) st
                    end
              end
          end
    | _, _ => Fatal "Check failed: lhs.defined() && rhs.defined() && lhs->type_index() == rhs->type_index()"
    end;
  CheckResult compute current_paths st1.

(** The loop that moves [pending_tasks_] onto the stack, back first. *)
Fixpoint push_pending (pending_back_first : list Task) (stack : list Task)
    : list Task :=
  match pending_back_first with
  | [] => stack
  | t :: rest => push_pending rest (t :: stack)
  end.

(** The end of a task whose children have all been visited: both maps get
    an entry if the task is about graph equality, and the task is popped. *)
Definition complete_entry (entry : Task) (rest : list Task) (st : Impl) : Impl :=
  set_stack
    (if graph_equal entry
     then set_maps st (<[lhs entry := rhs entry]> (equal_map_lhs_ st))
                      (<[rhs entry := lhs entry]> (equal_map_rhs_ st))
     else st) rest.

(** One iteration of the loop of [RunTasks]: the call is over with a result,
    or the loop goes on. *)
Inductive Step :=
| Done (r : Result (bool * Impl))
| Continue (st : Impl).

Definition RunTasks_step (st : Impl) : Step :=
  match task_stack_ st with
  | [] => Done (Ok (true, st))
  | entry :: rest =>
      if force_fail entry then Done (CheckResult false (current_paths entry) st)
      else if children_expanded entry then
        match equal_map_lhs_ st !! lhs entry with
        | Some it =>
            if same_as it (rhs entry) then Continue (complete_entry entry rest st)
            else Done (Fatal "Check failed: (it->second.same_as(entry.rhs)) is false")
        | None => Continue (complete_entry entry rest st)
        end
      else
        let st1 := set_stack st (mark_children_expanded entry :: rest) in
        match pending_tasks_ st1 with
        | _ :: _ => Done (Fatal "Check failed: pending_tasks_.size() == 0U")
        | [] =>
            let st2 := set_allow_push st1 false in
            match DispatchSEqualReduce (lhs entry) (rhs entry)
                                       (map_free_vars entry)
                                       (current_paths entry) st2 with
            | Ok (false, st3) => Done (Ok (false, st3))
            | Ok (true, st3) =>
                let st4 := set_allow_push st3 true in
                Continue
                  (set_pending
                     (set_stack st4 (push_pending (rev (pending_tasks_ st4))
                                                  (task_stack_ st4)))
                     [])
            | Fatal m => Done (Fatal m)
            | Unspecified => Done Unspecified
            end
        end
  end.

(** [RunTasks], with a bound on the number of iterations: [None] when the
    loop is still running after [fuel] iterations. *)
Fixpoint RunTasks (fuel : nat) (st : Impl) : option (Result (bool * Impl)) :=
  match fuel with
  | O => None
  | S fuel' =>
      match RunTasks_step st with
      | Done r => Some r
      | Continue st' => RunTasks fuel' st'
      end
  end.

Definition Any_type_index (a : Any) : Z :=
  match a with
  | AnyPOD t _ => t
  | AnyObject o => type_index o
  end.

(** The function that implements the actual equality check, up to the call
    of [RunTasks]: the result, when there is one before the loop, or the
    state in which the loop is entered. *)
Definition Equal_enter (lhs rhs : Any) (map_free_vars : bool) (st : Impl)
    : Result (bool * Impl) + Impl :=
  let st := set_roots (set_maps (set_pending (set_stack st []) []) ∅ ∅)
                      (Some lhs) (Some rhs) in
  let current_paths :=
    if IsPathTracingEnabled st
    then Some {| lhs_path := Root; rhs_path := Root |} else None in
  if negb (Any_type_index lhs =? Any_type_index rhs)
  then inl (CheckResult false current_paths st)
  else
    match lhs, rhs with
    | AnyPOD tl vl, AnyPOD _ vr =>
        if tl <? kTVMFFIStaticObjectBegin then
          if vl =? vr then inl (Ok (true, st))
          else inl (CheckResult false current_paths st)
        else inl Unspecified
    | AnyObject l, AnyObject r =>
        if type_index l <? kTVMFFIStaticObjectBegin then inl Unspecified
        else
          match SEqualReduce (Some l) (Some r) map_free_vars current_paths st with
          | Ok (false, st1) => inl (Ok (false, st1))
          | Ok (true, st1) =>
              match pending_tasks_ st1 with
              | [t] =>
                  if allow_push_to_stack_ st1 then
                    inr (set_pending (set_stack st1 (t :: task_stack_ st1)) [])
                  else inl (Fatal "Check failed: (allow_push_to_stack_) is false")
              | _ => inl (Fatal "Check failed: pending_tasks_.size() == 1U")
              end
          | Fatal m => inl (Fatal m)
          | Unspecified => inl Unspecified
          end
    | _, _ => inl Unspecified
    end.

Definition Equal (fuel : nat) (lhs rhs : Any) (map_free_vars : bool)
    (st : Impl) : option (Result (bool * Impl)) :=
  match Equal_enter lhs rhs map_free_vars st with
  | inl r => Some r
  | inr st' => RunTasks fuel st'
  end.

(** [SEqualHandlerDefault(assert_mode, first_mismatch, defer_fails).Equal]. *)
Definition SEqualHandlerDefault_Equal (fuel : nat) (assert_mode : bool)
    (first_mismatch : option (option ObjectPathPair)) (defer_fails : bool)
    (lhs rhs : Any) (map_free_vars : bool) : option (Result (bool * Impl)) :=
  Equal fuel lhs rhs map_free_vars (new_Impl assert_mode first_mismatch defer_fails).

(** The registered callables. *)
Definition node_StructuralEqual (fuel : nat) (lhs rhs : Any)
    (assert_mode map_free_vars : bool) : option (Result bool) :=
  let defer_fails := assert_mode in
  match SEqualHandlerDefault_Equal fuel assert_mode (Some None) defer_fails
                                   lhs rhs map_free_vars with
  | None => None
  | Some r => Some ('(b, _) ← r; Ok b)
  end.

Definition node_GetFirstStructuralMismatch (fuel : nat) (lhs rhs : Any)
    (map_free_vars : bool) : option (Result (option ObjectPathPair)) :=
  match SEqualHandlerDefault_Equal fuel false (Some None) true
                                   lhs rhs map_free_vars with
  | None => None
  | Some r =>
      Some ('(equal, st) ← r;
            if Bool.eqb equal (negb (first_mismatch_defined st))
            then Ok (match first_mismatch_ st with
                     | Some slot => slot
                     | None => None
                     end)
            else Fatal "Check failed: (equal == !first_mismatch.defined()) is false")
  end.

(** An [ObjectRef] seen as an [Any]: an undefined reference is the [None]
    value, of type index 0. *)
Definition Any_of_ObjectRef (o : ObjectRef) : Any :=
  match o with
  | Some a => AnyObject a
  | None => AnyPOD 0 0
  end.

(** [StructuralEqual::operator()]. *)
Definition StructuralEqual (fuel : nat) (lhs rhs : ObjectRef)
    (map_free_params : bool) : option (Result bool) :=
  match SEqualHandlerDefault_Equal fuel false None false
                                   (Any_of_ObjectRef lhs) (Any_of_ObjectRef rhs)
                                   map_free_params with
  | None => None
  | Some r => Some ('(b, _) ← r; Ok b)
  end.

(** *** Tensor leaves *)

(** The fields of an [NDArray::Container] that the comparison reads; [data]
    is the memory at the data pointer, [shape_address] the address of the
    first dimension. *)
Record Container := {
  device_type : Z;
  shape : list Z;
  dtype_code : Z;
  dtype_bits : Z;
  dtype_lanes : Z;
  strides : option (list Z);
  data : list Stream.byte;
  shape_address : Z
}.

Definition ndim (c : Container) : Z := Z.of_nat (length (shape c)).

(** [kDLCPU], [runtime::IsContiguous] and [runtime::GetDataSize] come from
    the tensor runtime. *)
Context (kDLCPU : Z).
Context (IsContiguous : Container -> bool).
Context (GetDataSize : Container -> nat).

(** The loop over the dimensions. *)
Fixpoint shape_loop (equal : SEqualReducer) (i : Z) (la ra : Z)
    (ls rs : list Z) : Prog bool :=
  match ls, rs with
  | l :: ls', r :: rs' =>
      ok ← reduce_int64 equal l r (la + 8 * i) (ra + 8 * i) None;
      if negb ok then Return false
      else shape_loop equal (i + 1) la ra ls' rs'
  | _, _ => Return true
  end.

Definition memcmp (a b : list Stream.byte) (n : nat) : bool :=
  bool_decide (firstn n a = firstn n b).

Definition NDArrayEqual (mem : positive -> Container) (lhs rhs : positive)
    (equal : SEqualReducer) (compare_data : bool) : Prog bool :=
  if bool_decide (lhs = rhs) then Return true
  else
    let l := mem lhs in
    let r := mem rhs in
    if negb (device_type l =? kDLCPU) then Abort "can only compare CPU tensor"
    else if negb (device_type r =? kDLCPU) then Abort "can only compare CPU tensor"
    else if negb (IsContiguous l) then Abort "Can only compare contiguous tensor"
    else if negb (IsContiguous r) then Abort "Can only compare contiguous tensor"
    else if negb (ndim l =? ndim r) then Return false
    else
      dims ← shape_loop equal 0 (shape_address l) (shape_address r)
                        (shape l) (shape r);
      if negb dims then Return false
      else if (dtype_code l =? dtype_code r) && (dtype_lanes l =? dtype_lanes r)
              && (dtype_bits l =? dtype_bits r)
      then
        let data_size := GetDataSize l in
        if compare_data then Return (memcmp (data l) (data r) data_size)
        else Return true
      else Return false.

Definition NDArrayContainerTrait_SEqualReduce (mem : positive -> Container)
    (lhs rhs : positive) (equal : SEqualReducer) : Prog bool :=
  NDArrayEqual mem lhs rhs equal true.

(** *** Per-type callbacks *)

(** Modelled from the spec: the per-type reduction callbacks are registered
    by the node types of the repository, outside of the sources at hand.
    The glossary has a reducer be a per-type callback that compares two
    nodes by reducing them to comparisons of their children, and the design
    notes have potentially shared interior nodes call [MarkGraphNode].  A
    node carries one integer attribute and a list of object attributes; its
    callback marks the node if it is a graph node, compares the integers,
    then the objects one pair after the other, and is over with false at the
    first comparison that returns false. *)
Record Node := {
  node_value : Z;
  node_children : list ObjectRef;
  node_is_graph : bool
}.

Fixpoint reduce_children (equal : SEqualReducer) (i : Z)
    (ls rs : list ObjectRef) : Prog bool :=
  match ls, rs with
  | l :: ls', r :: rs' =>
      reduce_object equal l r i i ≫= fun ok : bool =>
      if ok then reduce_children equal (i + 1) ls' rs' else Return false
  | _, _ => Return true
  end.

Definition node_reduce_body (heap : positive -> Node) (self other : positive)
    (equal : SEqualReducer) : Prog bool :=
  reduce_int64 equal (node_value (heap self)) (node_value (heap other))
               0 0 None ≫= fun ok : bool =>
  if ok then reduce_children equal 1 (node_children (heap self))
                             (node_children (heap other))
  else Return false.

Definition Node_SEqualReduce (heap : positive -> Node) (self other : positive)
    (equal : SEqualReducer) : Prog bool :=
  if node_is_graph (heap self)
  then MarkGraphNodeOp (node_reduce_body heap self other equal)
  else node_reduce_body heap self other equal.

End Engine.

End SEqual.

(** * Properties *)

(** ** Facts about the binary I/O primitives *)
Module StreamFacts.
Import Stream.

Lemma Z_of_byte_range (b : byte) : 0 <= Z_of_byte b < 256.
Proof.
  unfold Z_of_byte. pose proof (N_ascii_bounded b). lia.
Qed.

Lemma Z_of_byte_of_Z (z : Z) : Z_of_byte (byte_of_Z z) = z mod 256.
Proof.
  unfold Z_of_byte, byte_of_Z.
  assert (H : 0 <= z mod 256 < 256) by (apply Z.mod_pos_bound; lia).
  rewrite N_ascii_embedding by lia.
  rewrite Z2N.id by lia. reflexivity.
Qed.

Lemma byte_of_Z_of_byte (b : byte) : byte_of_Z (Z_of_byte b) = b.
Proof.
  unfold byte_of_Z. rewrite Z.mod_small by apply Z_of_byte_range.
  unfold Z_of_byte. rewrite N2Z.id. apply ascii_N_embedding.
Qed.

Lemma length_le_bytes (n : nat) (z : Z) : length (le_bytes n z) = n.
Proof.
  revert z. induction n as [|n IH]; intros z; simpl; [reflexivity|].
  now rewrite IH.
Qed.

Lemma le_value_le_bytes (n : nat) (z : Z) :
  le_value (le_bytes n z) = z mod 2 ^ (8 * Z.of_nat n).
Proof.
  revert z. induction n as [|n IH]; intros z.
  - simpl. now rewrite Z.mod_1_r.
  - cbn [le_bytes le_value]. rewrite IH, Z_of_byte_of_Z.
    rewrite Z.mod_mod by lia.
    replace (8 * Z.of_nat (S n)) with (8 + 8 * Z.of_nat n) by lia.
    rewrite Z.pow_add_r by lia.
    change (2 ^ 8) with 256.
    rewrite Z.rem_mul_r by lia. reflexivity.
Qed.

Lemma le_value_range (bs : list byte) :
  0 <= le_value bs < 2 ^ (8 * Z.of_nat (length bs)).
Proof.
  induction bs as [|b bs IH].
  - simpl. lia.
  - cbn [le_value length].
    replace (8 * Z.of_nat (S (length bs))) with (8 + 8 * Z.of_nat (length bs)) by lia.
    rewrite Z.pow_add_r by lia. change (2 ^ 8) with 256.
    pose proof (Z_of_byte_range b). nia.
Qed.

Lemma to_signed_wrap (bits z : Z) :
  0 < bits -> - 2 ^ (bits - 1) <= z < 2 ^ (bits - 1) ->
  to_signed bits (z mod 2 ^ bits) = z.
Proof.
  intros Hb Hz. unfold to_signed.
  assert (Hp : 2 ^ bits = 2 * 2 ^ (bits - 1)).
  { replace bits with (1 + (bits - 1)) at 1 by lia.
    rewrite Z.pow_add_r by lia. reflexivity. }
  assert (Hpos : 0 < 2 ^ (bits - 1)) by (apply Z.pow_pos_nonneg; lia).
  destruct (Z.ltb_spec z 0) as [Hneg|Hnn].
  - replace (z mod 2 ^ bits) with (z + 2 ^ bits).
    + destruct (Z.ltb_spec (z + 2 ^ bits) (2 ^ (bits - 1))); lia.
    + symmetry. symmetry. apply Z.mod_unique with (q := -1); lia.
  - rewrite Z.mod_small by lia.
    destruct (Z.ltb_spec z (2 ^ (bits - 1))); lia.
Qed.

Lemma Read_raw_app (bs rest : stream) :
  Read_raw (length bs) (bs ++ rest) = (bs, rest).
Proof.
  unfold Read_raw. f_equal.
  - rewrite firstn_app, Nat.sub_diag, firstn_all. simpl. apply app_nil_r.
  - rewrite skipn_app, Nat.sub_diag, skipn_all. reflexivity.
Qed.

Lemma Read_uint_Write (n : nat) (z : Z) (rest : stream) :
  Read_uint n (Write_scalar n z ++ rest) = (Some (z mod 2 ^ (8 * Z.of_nat n)), rest).
Proof.
  unfold Read_uint, Write_scalar.
  pose proof (Read_raw_app (le_bytes n z) rest) as H.
  rewrite length_le_bytes in H. rewrite H.
  rewrite length_le_bytes, Nat.eqb_refl, le_value_le_bytes. reflexivity.
Qed.

Lemma Read_uint_Write_small (n : nat) (z : Z) (rest : stream) :
  0 <= z < 2 ^ (8 * Z.of_nat n) ->
  Read_uint n (Write_scalar n z ++ rest) = (Some z, rest).
Proof.
  intros H. rewrite Read_uint_Write, Z.mod_small by assumption. reflexivity.
Qed.

Lemma Read_int_Write (n : nat) (z : Z) (rest : stream) :
  (0 < n)%nat ->
  - 2 ^ (8 * Z.of_nat n - 1) <= z < 2 ^ (8 * Z.of_nat n - 1) ->
  Read_int n (Write_scalar n z ++ rest) = (Some z, rest).
Proof.
  intros Hn Hz. unfold Read_int. rewrite Read_uint_Write. simpl.
  rewrite to_signed_wrap by lia. reflexivity.
Qed.

Lemma Read_bytes_Write (v : list byte) (rest : stream) :
  Z.of_nat (length v) < 2 ^ 64 ->
  Read_bytes (Write_bytes v ++ rest) = ((true, v), rest).
Proof.
  intros Hlen. unfold Read_bytes, Write_bytes.
  rewrite <- app_assoc, Read_uint_Write_small by (simpl; lia).
  rewrite Nat2Z.id, Read_raw_app, Nat.eqb_refl, Nat.sub_diag.
  simpl. now rewrite app_nil_r.
Qed.

Lemma Read_string_Write (v : string) (rest : stream) :
  Z.of_nat (String.length v) < 2 ^ 64 ->
  Read_string (Write_string v ++ rest) = (Some v, rest).
Proof.
  intros Hlen. unfold Read_string, Write_string.
  assert (Hl : length (list_ascii_of_string v) = String.length v).
  { clear. induction v; simpl; congruence. }
  rewrite Read_bytes_Write by (rewrite Hl; exact Hlen).
  now rewrite string_of_list_ascii_of_string.
Qed.

(** A vector survives the trip if each of its elements does. *)
Lemma Read_array_Write {A} (wr : A -> stream) (rd : stream -> option A * stream)
    (v : list A) (rest : stream) :
  Forall (fun a => forall r, rd (wr a ++ r) = (Some a, r)) v ->
  Read_array rd (length v) (concat (map wr v) ++ rest) = (Some v, rest).
Proof.
  induction 1 as [|a v Ha _ IH]; simpl; [reflexivity|].
  rewrite <- app_assoc, Ha, IH. reflexivity.
Qed.

Lemma Read_vector_Write {A} (wr : A -> stream) (rd : stream -> option A * stream)
    (v : list A) (rest : stream) :
  Z.of_nat (length v) < 2 ^ 64 ->
  Forall (fun a => forall r, rd (wr a ++ r) = (Some a, r)) v ->
  Read_vector rd (Write_vector wr v ++ rest) = (Some v, rest).
Proof.
  intros Hlen Hall. unfold Read_vector, Write_vector.
  rewrite <- app_assoc, Read_uint_Write_small by (simpl; lia).
  rewrite Nat2Z.id. now apply Read_array_Write.
Qed.

End StreamFacts.

(** ** Facts about the executable *)
Module VMFacts.
Import Stream StreamFacts VM.

Definition int32 (z : Z) : Prop := - 2 ^ 31 <= z < 2 ^ 31.
Definition int64 (z : Z) : Prop := - 2 ^ 63 <= z < 2 ^ 63.
Definition size_ok (n : nat) : Prop := Z.of_nat n < 2 ^ 64.

(** The six type tags are 32-bit integers that differ from each other. *)
Definition tags_ok (D : Decls) : Prop :=
  Forall int32 [kTVMFFINDArray D; kTVMFFIShape D; kTVMFFIStr D;
                kTVMFFIInt D; kTVMFFIFloat D; kTVMFFIDataType D]
  /\ NoDup [kTVMFFINDArray D; kTVMFFIShape D; kTVMFFIStr D;
            kTVMFFIInt D; kTVMFFIFloat D; kTVMFFIDataType D].

Definition wf_func (f : VMFuncInfo) : Prop :=
  int32 (kind f) /\ size_ok (String.length (name f))
  /\ int64 (start_instr f) /\ int64 (end_instr f)
  /\ int64 (num_args f) /\ int64 (register_file_size f)
  /\ size_ok (length (param_names f))
  /\ Forall (fun p => size_ok (String.length p)) (param_names f).

Definition wf_constant {Tensor} (tensor_ok : Tensor -> Prop)
    (c : Constant Tensor) : Prop :=
  match c with
  | CNDArray t => tensor_ok t
  | CShape dims => size_ok (length dims) /\ Forall int64 dims
  | CString s => size_ok (String.length s)
  | CInt v => int64 v
  | CFloat p => 0 <= p < 2 ^ 64
  | CDataType code bits lanes =>
      0 <= code < 2 ^ 8 /\ 0 <= bits < 2 ^ 8 /\ 0 <= lanes < 2 ^ 16
  | COther _ => False
  end.

(** What the loop of [LoadGlobalSection] leaves in the function map. *)
Lemma setup_func_map_lookup (tbl : list VMFuncInfo) :
  forall (k : Z) (m : gmap string Z) (n : string),
    (n ∉ map name tbl -> setup_func_map tbl k m !! n = m !! n)
    /\ (n ∈ map name tbl ->
        exists i f,
          tbl !! i = Some f /\ name f = n
          /\ setup_func_map tbl k m !! n = Some (k + Z.of_nat i)
          /\ forall j g, (i < j)%nat -> tbl !! j = Some g -> name g <> n).
Proof.
  induction tbl as [|f tbl IH]; intros k m n.
  - split; [reflexivity|]. intros H. inversion H.
  - cbn [map setup_func_map].
    destruct (IH (k + 1) (<[name f := k]> m) n) as [IHout IHin].
    split.
    + intros H. apply not_elem_of_cons in H as [Hne H].
      rewrite IHout by exact H. now rewrite lookup_insert_ne.
    + intros H. destruct (decide (n ∈ map name tbl)) as [Hin|Hout].
      * destruct (IHin Hin) as (i & g & Hi & Hg & Hl & Hlast).
        exists (S i), g. split; [exact Hi|]. split; [exact Hg|].
        split; [rewrite Hl; f_equal; lia|].
        intros [|j] g' Hj Hg'; [lia|]. apply (Hlast j g'); [lia | exact Hg'].
      * apply elem_of_cons in H as [->|H]; [|contradiction].
        exists 0%nat, f. split; [reflexivity|]. split; [reflexivity|].
        split.
        -- rewrite IHout by exact Hout. rewrite lookup_insert_eq. f_equal. lia.
        -- intros [|j] g Hj Hg; [lia|]. cbn in Hg. intros E. apply Hout.
           rewrite <- E. apply list_elem_of_In, in_map, list_elem_of_In.
           eapply list_elem_of_lookup_2. exact Hg.
Qed.

Section RoundTrip.
Context (D : Decls) {Tensor : Type}.
Context (SaveDLTensor : Tensor -> stream).
Context (NDArray_Load : stream -> Result (Tensor * stream)).
Context (tensor_ok : Tensor -> Prop).

(** A well-formed executable: every field fits the type the code gives it,
    the constants are of the six kinds the pool can hold, and the image fits
    a string. *)
Definition wf_exec (e : VMExecutable Tensor) : Prop :=
  size_ok (length (func_table e)) /\ Forall wf_func (func_table e)
  /\ size_ok (length (constants e))
  /\ Forall (wf_constant tensor_ok) (constants e)
  /\ size_ok (length (instr_offset e)) /\ Forall int64 (instr_offset e)
  /\ size_ok (length (instr_data e)) /\ Forall int64 (instr_data e)
  /\ (forall code, SaveSections D SaveDLTensor e = Ok code -> size_ok (length code)).

(** The executable that [LoadFromBinary] is to give back: the fields of [e],
    with the function map set up from the function table. *)
Definition reloaded (e : VMExecutable Tensor) : VMExecutable Tensor :=
  {| constants := constants e; func_table := func_table e;
     func_map := setup_func_map (func_table e) 0 ∅;
     instr_offset := instr_offset e; instr_data := instr_data e |}.

Lemma Read_int64_Write (z : Z) (rest : stream) :
  int64 z -> Read_int 8 (Write_scalar 8 z ++ rest) = (Some z, rest).
Proof. intros H. apply Read_int_Write; [lia | exact H]. Qed.

Lemma Read_int32_Write (z : Z) (rest : stream) :
  int32 z -> Read_int 4 (Write_scalar 4 z ++ rest) = (Some z, rest).
Proof. intros H. apply Read_int_Write; [lia | exact H]. Qed.

Lemma VMFuncInfo_Load_Save (f : VMFuncInfo) (rest : stream) :
  wf_func f -> VMFuncInfo_Load (VMFuncInfo_Save f ++ rest) = (Some f, rest).
Proof.
  intros (Hk & Hn & Hs & He & Ha & Hr & Hpl & Hp).
  unfold VMFuncInfo_Load, VMFuncInfo_Save.
  repeat rewrite <- app_assoc.
  rewrite Read_int32_Write by assumption.
  rewrite Read_string_Write by assumption.
  rewrite !Read_int64_Write by assumption.
  rewrite Read_vector_Write.
  - destruct f; reflexivity.
  - exact Hpl.
  - eapply Forall_impl; [exact Hp|]. intros p Hlen r.
    now apply Read_string_Write.
Qed.

Lemma LoadGlobalSection_Save (e : VMExecutable Tensor) (rest : stream) :
  size_ok (length (func_table e)) -> Forall wf_func (func_table e) ->
  LoadGlobalSection (SaveGlobalSection e ++ rest)
  = Ok (func_table e, setup_func_map (func_table e) 0 ∅, rest).
Proof.
  intros Hlen Hall. unfold LoadGlobalSection, SaveGlobalSection.
  rewrite Read_vector_Write; [reflexivity | exact Hlen |].
  eapply Forall_impl; [exact Hall|]. intros f Hf r.
  now apply VMFuncInfo_Load_Save.
Qed.

Lemma LoadCodeSection_Save (e : VMExecutable Tensor) (rest : stream) :
  size_ok (length (instr_offset e)) -> Forall int64 (instr_offset e) ->
  size_ok (length (instr_data e)) -> Forall int64 (instr_data e) ->
  LoadCodeSection (SaveCodeSection e ++ rest)
  = Ok (instr_offset e, instr_data e, rest).
Proof.
  intros Hlo Ho Hld Hd. unfold LoadCodeSection, SaveCodeSection.
  rewrite <- app_assoc.
  rewrite Read_vector_Write;
    [| exact Hlo | eapply Forall_impl; [exact Ho|]; intros z Hz r;
                   now apply Read_int64_Write].
  rewrite Read_vector_Write;
    [| exact Hld | eapply Forall_impl; [exact Hd|]; intros z Hz r;
                   now apply Read_int64_Write].
  reflexivity.
Qed.

Lemma LoadHeader_Save (rest : stream) :
  size_ok (String.length (VM_VERSION D)) ->
  LoadHeader D (SaveHeader D ++ rest) = Ok rest.
Proof.
  intros Hv. unfold LoadHeader, SaveHeader.
  rewrite <- app_assoc.
  rewrite Read_uint_Write_small by (unfold kTVMVMBytecodeMagic; simpl; lia).
  rewrite Z.eqb_refl. simpl negb. cbv iota.
  rewrite Read_string_Write by exact Hv.
  now rewrite String.eqb_refl.
Qed.

Lemma Read_elems_unchecked_Write (size : nat) (v : list Z) (rest : stream) :
  Read_elems_unchecked size (length v)
                       (concat (map (Write_scalar size) v) ++ rest)
  = (map (fun z => z mod 2 ^ (8 * Z.of_nat size)) v, rest).
Proof.
  induction v as [|z v IH]; [reflexivity|].
  cbn [length map concat Read_elems_unchecked].
  rewrite <- app_assoc.
  pose proof (Read_raw_app (le_bytes size z) (concat (map (Write_scalar size) v) ++ rest)) as H.
  rewrite length_le_bytes in H. unfold Write_scalar at 1. rewrite H, IH.
  now rewrite le_value_le_bytes.
Qed.

Lemma tags_distinct :
  tags_ok D ->
  kTVMFFINDArray D <> kTVMFFIShape D /\ kTVMFFINDArray D <> kTVMFFIStr D
  /\ kTVMFFINDArray D <> kTVMFFIInt D /\ kTVMFFINDArray D <> kTVMFFIFloat D
  /\ kTVMFFINDArray D <> kTVMFFIDataType D
  /\ kTVMFFIShape D <> kTVMFFIStr D /\ kTVMFFIShape D <> kTVMFFIInt D
  /\ kTVMFFIShape D <> kTVMFFIFloat D /\ kTVMFFIShape D <> kTVMFFIDataType D
  /\ kTVMFFIStr D <> kTVMFFIInt D /\ kTVMFFIStr D <> kTVMFFIFloat D
  /\ kTVMFFIStr D <> kTVMFFIDataType D
  /\ kTVMFFIInt D <> kTVMFFIFloat D /\ kTVMFFIInt D <> kTVMFFIDataType D
  /\ kTVMFFIFloat D <> kTVMFFIDataType D.
Proof.
  intros [_ H]. rewrite !NoDup_cons, !not_elem_of_cons in H. tauto.
Qed.

(** Reading back the tag that [SaveConstant] wrote. *)
Lemma read_tag (tag : Z) (rest : stream) :
  int32 tag ->
  Read_raw 4 (Write_scalar 4 tag ++ rest) = (le_bytes 4 tag, rest)
  /\ length (le_bytes 4 tag) = 4%nat
  /\ to_signed 32 (le_value (le_bytes 4 tag)) = tag.
Proof.
  intros Ht. split; [|split].
  - pose proof (Read_raw_app (le_bytes 4 tag) rest) as H.
    now rewrite length_le_bytes in H.
  - apply length_le_bytes.
  - rewrite le_value_le_bytes. apply to_signed_wrap; [lia | exact Ht].
Qed.

Ltac tag_tests Hd :=
  destruct Hd as (? & ? & ? & ? & ? & ? & ? & ? & ? & ? & ? & ? & ? & ? & ?);
  repeat match goal with
         | |- context [?a =? ?a] => rewrite (Z.eqb_refl a)
         | |- context [?a =? ?b] =>
             rewrite (proj2 (Z.eqb_neq a b)) by congruence
         end.

Ltac same_constant :=
  match goal with
  | |- Ok (?c1, _, _) = Ok (?c2, _, _) =>
      cut (c1 = c2); [intros ->; reflexivity|]
  end.

Lemma LoadConstant_Save (c : Constant Tensor) (rest : stream)
    (dtype : option (list ascii)) :
  tags_ok D ->
  (forall t r, tensor_ok t -> NDArray_Load (SaveDLTensor t ++ r) = Ok (t, r)) ->
  wf_constant tensor_ok c ->
  exists b dtype',
    SaveConstant D SaveDLTensor c = Ok b
    /\ LoadConstant D NDArray_Load dtype (b ++ rest) = Ok (c, dtype', rest).
Proof.
  intros Htags Hten Hwf.
  pose proof (tags_distinct Htags) as Hd.
  destruct Htags as [Hrange _].
  rewrite !Forall_cons in Hrange.
  destruct Hrange as (Hnd & Hsh & Hst & Hin & Hfl & Hdt & _).
  unfold LoadConstant.
  destruct c as [t|dims|str|v|p|code bits lanes|key]; cbn [wf_constant] in Hwf;
    try contradiction;
    eexists; eexists; (split; [reflexivity|]); rewrite <- ?app_assoc.
  - destruct (read_tag (kTVMFFINDArray D) rest) as (_ & Hl & Hv); [assumption|].
    destruct (read_tag (kTVMFFINDArray D) (SaveDLTensor t ++ rest) Hnd) as (-> & _ & _).
    rewrite Hl, Hv. simpl Nat.eqb. cbv iota. simpl negb. cbv iota.
    rewrite Z.eqb_refl, Hten by assumption. reflexivity.
  - destruct Hwf as [Hlen Hall].
    destruct (read_tag (kTVMFFIShape D) rest) as (_ & Hl & Hv); [assumption|].
    match goal with |- context [Read_raw 4 (_ ++ ?r)] =>
      destruct (read_tag _ r Hsh) as (-> & _ & _) end.
    rewrite Hl, Hv. simpl Nat.eqb. cbv iota. simpl negb. cbv iota.
    tag_tests Hd.
    rewrite Read_uint_Write_small by (unfold size_ok in Hlen; simpl; lia).
    rewrite Nat2Z.id, Read_elems_unchecked_Write.
    same_constant. f_equal.
    rewrite map_map. rewrite <- (map_id dims) at 2.
    apply map_ext_in. intros z Hz.
    rewrite Forall_forall in Hall. apply to_signed_wrap; [lia|].
    apply Hall. now apply list_elem_of_In.
  - destruct (read_tag (kTVMFFIStr D) rest) as (_ & Hl & Hv); [assumption|].
    match goal with |- context [Read_raw 4 (_ ++ ?r)] =>
      destruct (read_tag _ r Hst) as (-> & _ & _) end.
    rewrite Hl, Hv. simpl Nat.eqb. cbv iota. simpl negb. cbv iota.
    tag_tests Hd.
    rewrite Read_uint_Write_small by (unfold size_ok in Hwf; simpl; lia).
    rewrite Nat2Z.id.
    assert (Hlen : String.length str = length (map Z_of_byte (list_ascii_of_string str))).
    { rewrite length_map. clear. induction str; simpl; congruence. }
    rewrite Hlen.
    replace (map (fun ch => Write_scalar 1 (Z_of_byte ch)) (list_ascii_of_string str))
      with (map (Write_scalar 1) (map Z_of_byte (list_ascii_of_string str)))
      by (now rewrite map_map).
    rewrite Read_elems_unchecked_Write.
    same_constant. f_equal.
    rewrite !map_map.
    rewrite <- (string_of_list_ascii_of_string str) at 2. f_equal.
    rewrite <- (map_id (list_ascii_of_string str)) at 2.
    apply map_ext. intros a.
    rewrite Z.mod_small by (pose proof (Z_of_byte_range a); simpl; lia).
    apply byte_of_Z_of_byte.
  - destruct (read_tag (kTVMFFIInt D) rest) as (_ & Hl & Hv); [assumption|].
    match goal with |- context [Read_raw 4 (_ ++ ?r)] =>
      destruct (read_tag _ r Hin) as (-> & _ & _) end.
    rewrite Hl, Hv. simpl Nat.eqb. cbv iota. simpl negb. cbv iota.
    tag_tests Hd.
    rewrite Read_int64_Write by assumption. reflexivity.
  - destruct (read_tag (kTVMFFIFloat D) rest) as (_ & Hl & Hv); [assumption|].
    match goal with |- context [Read_raw 4 (_ ++ ?r)] =>
      destruct (read_tag _ r Hfl) as (-> & _ & _) end.
    rewrite Hl, Hv. simpl Nat.eqb. cbv iota. simpl negb. cbv iota.
    tag_tests Hd.
    rewrite Read_uint_Write_small by (simpl; lia). reflexivity.
  - destruct Hwf as (Hc & Hb & Hla).
    destruct (read_tag (kTVMFFIDataType D) rest) as (_ & Hl & Hv); [assumption|].
    match goal with |- context [Read_raw 4 (_ ++ ?r)] =>
      destruct (read_tag _ r Hdt) as (-> & _ & _) end.
    rewrite Hl, Hv. simpl Nat.eqb. cbv iota. simpl negb. cbv iota.
    tag_tests Hd.
    pose proof (Read_raw_app (Write_scalar 1 code ++ Write_scalar 1 bits ++ Write_scalar 2 lanes) rest) as Hraw.
    rewrite <- !app_assoc in Hraw.
    change (length (Write_scalar 1 code ++ Write_scalar 1 bits ++ Write_scalar 2 lanes)) with 4%nat in Hraw.
    rewrite Hraw.
    change (length (Write_scalar 1 code ++ Write_scalar 1 bits ++ Write_scalar 2 lanes)) with 4%nat.
    simpl Nat.eqb. cbv iota.
    same_constant. f_equal.
    unfold DLDataType_of_bytes.
    change (firstn 1 (Write_scalar 1 code ++ Write_scalar 1 bits ++ Write_scalar 2 lanes))
      with (le_bytes 1 code).
    change (firstn 1 (skipn 1 (Write_scalar 1 code ++ Write_scalar 1 bits ++ Write_scalar 2 lanes)))
      with (le_bytes 1 bits).
    change (firstn 2 (skipn 2 (Write_scalar 1 code ++ Write_scalar 1 bits ++ Write_scalar 2 lanes)))
      with (le_bytes 2 lanes).
    rewrite !le_value_le_bytes.
    rewrite !Z.mod_small by (simpl; lia). reflexivity.
Qed.

Lemma LoadConstants_Save (cs : list (Constant Tensor)) :
  tags_ok D ->
  (forall t r, tensor_ok t -> NDArray_Load (SaveDLTensor t ++ r) = Ok (t, r)) ->
  Forall (wf_constant tensor_ok) cs ->
  forall body rest dtype acc,
    SaveConstants D SaveDLTensor cs = Ok body ->
    LoadConstants D NDArray_Load (length cs) dtype acc (body ++ rest)
    = Ok (acc ++ cs, rest).
Proof.
  intros Htags Hten. induction 1 as [|c cs Hc _ IH]; intros body rest dtype acc Hsave.
  - simpl in *. injection Hsave as <-. now rewrite app_nil_r.
  - simpl in Hsave.
    destruct (SaveConstant D SaveDLTensor c) as [b| |] eqn:Hb; try discriminate.
    simpl in Hsave.
    destruct (SaveConstants D SaveDLTensor cs) as [bs| |] eqn:Hbs; try discriminate.
    simpl in Hsave. injection Hsave as <-.
    cbn [length LoadConstants]. rewrite <- app_assoc.
    destruct (LoadConstant_Save c (bs ++ rest) dtype Htags Hten Hc)
      as (b' & dtype' & Hb' & Hload).
    assert (b' = b) as -> by congruence.
    rewrite Hload.
    simpl. rewrite (IH bs rest dtype' (acc ++ [c]) eq_refl).
    now rewrite <- app_assoc.
Qed.

Lemma SaveConstants_Ok (cs : list (Constant Tensor)) :
  Forall (wf_constant tensor_ok) cs ->
  exists body, SaveConstants D SaveDLTensor cs = Ok body.
Proof.
  induction 1 as [|c cs Hc _ [body IH]]; simpl; [eauto|].
  rewrite IH. destruct c; simpl in *; try contradiction; eauto.
Qed.

Lemma LoadConstantSection_Save (e : VMExecutable Tensor) (cs rest : stream) :
  tags_ok D ->
  (forall t r, tensor_ok t -> NDArray_Load (SaveDLTensor t ++ r) = Ok (t, r)) ->
  size_ok (length (constants e)) ->
  Forall (wf_constant tensor_ok) (constants e) ->
  SaveConstantSection D SaveDLTensor e = Ok cs ->
  LoadConstantSection D NDArray_Load (cs ++ rest) = Ok (constants e, rest).
Proof.
  intros Htags Hten Hlen Hall Hsave. unfold SaveConstantSection in Hsave.
  destruct (SaveConstants D SaveDLTensor (constants e)) as [body| |] eqn:Hbody;
    try discriminate.
  assert (cs = Write_scalar 8 (Z.of_nat (length (constants e))) ++ body) as ->
    by (change (Ok (Write_scalar 8 (Z.of_nat (length (constants e))) ++ body) = Ok cs) in Hsave;
        congruence).
  unfold LoadConstantSection. rewrite <- app_assoc.
  pose proof (Read_raw_app (le_bytes 8 (Z.of_nat (length (constants e)))) (body ++ rest)) as H.
  rewrite length_le_bytes in H. unfold Write_scalar. rewrite H.
  rewrite length_le_bytes. simpl Nat.eqb. cbv iota. simpl negb. cbv iota.
  rewrite le_value_le_bytes, Z.mod_small by (unfold size_ok in Hlen; simpl; lia).
  rewrite Nat2Z.id.
  now rewrite (LoadConstants_Save (constants e) Htags Hten Hall body rest None [] Hbody).
Qed.

(** What [SaveToBinary] writes is read back by [LoadFromBinary]. *)
Lemma save_load_reloaded (e : VMExecutable Tensor) (rest : stream) :
  tags_ok D ->
  size_ok (String.length (VM_VERSION D)) ->
  (forall t r, tensor_ok t -> NDArray_Load (SaveDLTensor t ++ r) = Ok (t, r)) ->
  wf_exec e ->
  exists blob,
    SaveToBinary D SaveDLTensor e = Ok blob
    /\ LoadFromBinary D NDArray_Load (blob ++ rest) = Ok (reloaded e).
Proof.
  intros Htags Hver Hten (Hlf & Hf & Hlc & Hc & Hlo & Ho & Hld & Hd & Hfit).
  destruct (SaveConstants_Ok (constants e) Hc) as [body Hbody].
  assert (Hcs : SaveConstantSection D SaveDLTensor e
                = Ok (Write_scalar 8 (Z.of_nat (length (constants e))) ++ body)).
  { unfold SaveConstantSection. now rewrite Hbody. }
  set (cs := Write_scalar 8 (Z.of_nat (length (constants e))) ++ body) in *.
  set (code := SaveHeader D ++ SaveGlobalSection e ++ cs ++ SaveCodeSection e).
  assert (Hcode : SaveSections D SaveDLTensor e = Ok code).
  { unfold SaveSections. now rewrite Hcs. }
  exists (Write_bytes code). split.
  - unfold SaveToBinary. now rewrite Hcode.
  - unfold LoadFromBinary.
    rewrite Read_bytes_Write by (apply Hfit; exact Hcode).
    unfold LoadSections, code. unfold mbind, Result_bind.
    rewrite LoadHeader_Save by exact Hver.
    rewrite LoadGlobalSection_Save by assumption.
    rewrite (LoadConstantSection_Save e cs (SaveCodeSection e) Htags Hten Hlc Hc Hcs).
    pose proof (LoadCodeSection_Save e [] Hlo Ho Hld Hd) as Hcode'.
    rewrite app_nil_r in Hcode'. rewrite Hcode'.
    reflexivity.
Qed.

(** C1. Save/load round trip: for a well-formed executable [e], what
    [SaveToBinary] writes is read back by [LoadFromBinary] as an executable
    with the constants, the function table, the instruction offsets and the
    instruction data of [e], and with the function map reconstructed from
    the function table: a name is bound iff an entry of the table has it,
    and it is bound to the index of the last such entry.  So the loaded
    executable is [e] itself when the function map of [e] is the one its
    table determines.  The tensor serializer is assumed to read back what it
    wrote; the six type tags are distinct. *)
Theorem save_load_round_trip (e : VMExecutable Tensor) (rest : stream) :
  tags_ok D ->
  size_ok (String.length (VM_VERSION D)) ->
  (forall t r, tensor_ok t -> NDArray_Load (SaveDLTensor t ++ r) = Ok (t, r)) ->
  wf_exec e ->
  exists blob loaded,
    SaveToBinary D SaveDLTensor e = Ok blob
    /\ LoadFromBinary D NDArray_Load (blob ++ rest) = Ok loaded
    /\ constants loaded = constants e
    /\ func_table loaded = func_table e
    /\ instr_offset loaded = instr_offset e
    /\ instr_data loaded = instr_data e
    /\ (forall n idx,
           func_map loaded !! n = Some idx <->
           exists i f,
             idx = Z.of_nat i /\ func_table e !! i = Some f /\ name f = n
             /\ forall j g, (i < j)%nat -> func_table e !! j = Some g ->
                            name g <> n)
    /\ ((forall n idx,
            func_map e !! n = Some idx <->
            exists i f,
              idx = Z.of_nat i /\ func_table e !! i = Some f /\ name f = n
              /\ forall j g, (i < j)%nat -> func_table e !! j = Some g ->
                             name g <> n) ->
        loaded = e).
Proof.
  intros Htags Hver Hten Hwf.
  destruct (save_load_reloaded e rest Htags Hver Hten Hwf) as (blob & Hs & Hl).
  exists blob, (reloaded e). split; [exact Hs|]. split; [exact Hl|].
  do 4 (split; [reflexivity|]).
  assert (Hmap : forall n idx,
             setup_func_map (func_table e) 0 ∅ !! n = Some idx <->
             exists i f,
               idx = Z.of_nat i /\ func_table e !! i = Some f /\ name f = n
               /\ forall j g, (i < j)%nat -> func_table e !! j = Some g ->
                              name g <> n).
  { intros n idx.
    destruct (setup_func_map_lookup (func_table e) 0 ∅ n) as [Hout Hin].
    destruct (decide (n ∈ map name (func_table e))) as [H|H].
    - destruct (Hin H) as (i & f & Hi & Hf & Hlk & Hlast). rewrite Hlk. split.
      + intros E. injection E as <-. exists i, f. repeat split; auto.
      + intros (i' & f' & -> & Hi' & Hf' & Hlast'). f_equal.
        destruct (Nat.lt_trichotomy i i') as [Hlt|[->|Hlt]]; [|reflexivity|].
        * exfalso. exact (Hlast i' f' Hlt Hi' Hf').
        * exfalso. exact (Hlast' i f Hlt Hi Hf).
    - rewrite Hout, lookup_empty by exact H. split; [discriminate|].
      intros (i & f & _ & Hi & Hf & _). exfalso. apply H. rewrite <- Hf.
      apply list_elem_of_In, in_map, list_elem_of_In.
      eapply list_elem_of_lookup_2. exact Hi. }
  split; [exact Hmap|].
  intros He. unfold reloaded.
  assert (Hsame : setup_func_map (func_table e) 0 ∅ = func_map e).
  { apply map_eq. intros n. apply option_eq. intros idx.
    rewrite Hmap. symmetry. apply He. }
  rewrite Hsame. destruct e; reflexivity.
Qed.

End RoundTrip.

(** The function map set up by [LoadGlobalSection] sends the name of each
    entry to its index, when no two entries share a name. *)
Lemma setup_func_map_spec (tbl : list VMFuncInfo) (k : Z) (m : gmap string Z) :
  NoDup (map name tbl) ->
  (forall i f, tbl !! i = Some f ->
               setup_func_map tbl k m !! name f = Some (k + Z.of_nat i))
  /\ (forall n, n ∉ map name tbl -> setup_func_map tbl k m !! n = m !! n).
Proof.
  revert k m. induction tbl as [|g tbl IH]; intros k m Hnd.
  - split; [intros i f H; destruct i; discriminate | reflexivity].
  - cbn [map] in Hnd. apply NoDup_cons in Hnd as [Hg Hnd].
    cbn [setup_func_map].
    destruct (IH (k + 1) (<[name g := k]> m) Hnd) as [IH1 IH2].
    split.
    + intros [|i] f Hf.
      * injection Hf as ->. rewrite IH2 by exact Hg.
        rewrite lookup_insert_eq. f_equal. lia.
      * rewrite (IH1 i f Hf). f_equal. lia.
    + intros n Hn. cbn [map] in Hn. apply not_elem_of_cons in Hn as [Hne Hn].
      rewrite IH2 by exact Hn. now rewrite lookup_insert_ne.
Qed.

(** An executable to evaluate the codec on: the function of scenario S1, the
    pool of scenario S2 and one tensor.  A tensor is taken to be its bytes,
    serialized with their length in front. *)
Definition sample : VMExecutable (list ascii) := {|
  constants := [CInt 7; CString "abc"; CShape [2; 3]; CDataType 2 32 1;
                CNDArray ["t"%char]; CFloat 4607182418800017408];
  func_table := [ {| kind := 1; name := "main"; start_instr := 0;
                     end_instr := 3; num_args := 1; register_file_size := 2;
                     param_names := ["x"%string] |} ];
  func_map := {[ "main"%string := 0 ]};
  instr_offset := [0; 6; 8];
  instr_data := [1; 1; 0; 2; Arg 0 0; Arg 1 3; 3; 1; 2; 1]
|}.

Definition sample_tensor_load (s : list ascii) : Result (list ascii * list ascii) :=
  match Read_bytes s with
  | ((true, t), s') => Ok (t, s')
  | ((false, _), _) => Fatal "Invalid DLTensor file format"
  end.

Lemma tvm_tags_ok : tags_ok tvm_decls.
Proof.
  split.
  - repeat constructor; unfold int32; simpl; lia.
  - simpl. rewrite !NoDup_cons, !not_elem_of_cons.
    repeat split; try discriminate; try apply not_elem_of_nil; apply NoDup_nil_2.
Defined.

Lemma sample_wf : wf_exec tvm_decls Write_bytes (fun t => size_ok (length t)) sample.
Proof.
  assert (Hint : forall z, (-2 ^ 63 <=? z) && (z <? 2 ^ 63) = true -> int64 z).
  { intros z H. unfold int64. apply andb_true_iff in H as [H1 H2]. lia. }
  unfold wf_exec. repeat apply conj.
  - vm_compute. reflexivity.
  - repeat constructor; try (apply Hint; vm_compute; reflexivity);
      vm_compute; try reflexivity; congruence.
  - vm_compute. reflexivity.
  - repeat constructor; try (apply Hint; vm_compute; reflexivity);
      vm_compute; try reflexivity; congruence.
  - vm_compute. reflexivity.
  - repeat constructor; apply Hint; vm_compute; reflexivity.
  - vm_compute. reflexivity.
  - repeat constructor; apply Hint; vm_compute; reflexivity.
  - intros code H. vm_compute in H. injection H as <-. vm_compute. reflexivity.
Defined.

Lemma sample_func_map (n : string) (idx : Z) :
  func_map sample !! n = Some idx <->
  exists i f,
    idx = Z.of_nat i /\ func_table sample !! i = Some f /\ name f = n
    /\ forall j g, (i < j)%nat -> func_table sample !! j = Some g -> name g <> n.
Proof.
  cbn [func_map func_table sample]. split.
  - intros H. apply lookup_singleton_Some in H as [<- <-].
    exists 0%nat. eexists. repeat split.
    intros [|j] g Hj Hg; [lia | destruct j; discriminate].
  - intros (i & f & -> & Hi & Hf & _).
    destruct i as [|i]; [|destruct i; discriminate].
    injection Hi as <-. cbn in Hf. subst n. apply lookup_singleton_eq.
Defined.

Lemma save_load_round_trip_witness :
  exists blob,
    SaveToBinary tvm_decls Write_bytes sample = Ok blob
    /\ LoadFromBinary tvm_decls sample_tensor_load (blob ++ []) = Ok sample
    /\ func_map sample !! "main"%string = Some 0.
Proof.
  destruct (save_load_round_trip tvm_decls Write_bytes sample_tensor_load
              (fun t => size_ok (length t)) sample [])
    as (blob & loaded & Hs & Hl & _ & _ & _ & _ & _ & Heq).
  - exact tvm_tags_ok.
  - vm_compute. reflexivity.
  - intros t r Ht. unfold sample_tensor_load.
    now rewrite Read_bytes_Write by exact Ht.
  - exact sample_wf.
  - exists blob. split; [exact Hs|]. split; [|reflexivity].
    rewrite Hl. f_equal. apply Heq. exact sample_func_map.
Defined.

(** *** Format errors *)

Section FormatErrors.
Context (D : Decls) {Tensor : Type}.
Context (NDArray_Load : stream -> Result (Tensor * stream)).

(** A magic number that is not there or differs is reported in the header
    section. *)
Lemma LoadHeader_bad_magic (code : stream) :
  (forall rest, Read_uint 8 code <> (Some kTVMVMBytecodeMagic, rest)) ->
  LoadSections D NDArray_Load code = Fatal (format_error "header").
Proof.
  intros H. unfold LoadSections, LoadHeader.
  destruct (Read_uint 8 code) as [[header|] s1] eqn:Hr; [|reflexivity].
  destruct (Z.eqb_spec header kTVMVMBytecodeMagic) as [->|Hne]; [|reflexivity].
  now destruct (H s1).
Qed.

(** A version string that is not there or differs is reported in the version
    section. *)
Lemma LoadHeader_bad_version (code s1 : stream) :
  Read_uint 8 code = (Some kTVMVMBytecodeMagic, s1) ->
  (forall rest, Read_string s1 <> (Some (VM_VERSION D), rest)) ->
  LoadSections D NDArray_Load code = Fatal (format_error "version").
Proof.
  intros Hm Hv. unfold LoadSections, LoadHeader. rewrite Hm, Z.eqb_refl.
  simpl negb. cbv iota.
  destruct (Read_string s1) as [[version|] s2] eqn:Hr; [|reflexivity].
  destruct (String.eqb_spec version (VM_VERSION D)) as [->|Hne]; [|reflexivity].
  now destruct (Hv s2).
Qed.


(** A function table, a vector of instruction offsets or a vector of
    instruction data that cannot be read is reported in its section. *)
Lemma LoadGlobalSection_truncated (strm rest : stream) :
  Read_vector VMFuncInfo_Load strm = (None, rest) ->
  LoadGlobalSection strm = Fatal (format_error "Global Section").
Proof. intros H. unfold LoadGlobalSection. now rewrite H. Qed.

Lemma LoadCodeSection_truncated_offset (strm rest : stream) :
  Read_vector (Read_int 8) strm = (None, rest) ->
  LoadCodeSection strm = Fatal (format_error "instr offset").
Proof. intros H. unfold LoadCodeSection. now rewrite H. Qed.

Lemma LoadCodeSection_truncated_data (strm s1 rest : stream) (offs : list Z) :
  Read_vector (Read_int 8) strm = (Some offs, s1) ->
  Read_vector (Read_int 8) s1 = (None, rest) ->
  LoadCodeSection strm = Fatal (format_error "instr data").
Proof. intros H1 H2. unfold LoadCodeSection. now rewrite H1, H2. Qed.

End FormatErrors.

(** An image whose constant section announces one string of two characters
    and ends after the first of them: the header, the empty function table,
    the count, the tag, the size and one character. *)
Definition truncated_constant_image : list ascii :=
  SaveHeader tvm_decls
  ++ Write_vector VMFuncInfo_Save []
  ++ Write_scalar 8 1
  ++ Write_scalar 4 (kTVMFFIStr tvm_decls) ++ Write_scalar 8 2 ++ ["a"%char].

(** C2. On the image above, of which the constant section is cut short
    inside the payload of a string, [LoadFromBinary] does fail, but with the
    diagnostic of the instr offset section: the characters of a string
    constant are read without a check, and the first checked read that
    finds the stream at its end is the one of the code section. *)
Theorem truncated_constant_reported_elsewhere :
  LoadFromBinary tvm_decls sample_tensor_load
                 (Write_bytes truncated_constant_image)
  = Fatal (format_error "instr offset").
Proof. vm_compute. reflexivity. Qed.

(** The empty executable, and its image without the last 32 bytes, that is
    without the function table, the constant pool and the code: the outer
    length still announces them. *)
Definition empty_exec : VMExecutable (list ascii) :=
  {| constants := []; func_table := []; func_map := ∅;
     instr_offset := []; instr_data := [] |}.

Definition empty_image : list ascii :=
  SaveHeader tvm_decls ++ Write_vector VMFuncInfo_Save []
  ++ Write_scalar 8 0 ++ Write_vector (Write_scalar 8) []
  ++ Write_vector (Write_scalar 8) [].

(** The outer read is not checked either: a blob that ends after the version
    string is still loaded, as the string it is read into was zero filled. *)
Lemma truncated_blob_loads :
  SaveToBinary tvm_decls Write_bytes empty_exec = Ok (Write_bytes empty_image)
  /\ LoadFromBinary tvm_decls sample_tensor_load
       (firstn (length (Write_bytes empty_image) - 32) (Write_bytes empty_image))
     = Ok empty_exec.
Proof. split; vm_compute; reflexivity. Qed.

(** *** Disassembly *)

(** [needle] occurs in [text]. *)
Definition occurs (needle text : string) : Prop :=
  exists m, substring m (String.length needle) text = needle.

Lemma index_occurs (needle text : string) (m : nat) :
  index 0 needle text = Some m -> occurs needle text.
Proof. intros H. exists m. now apply (index_correct1 0). Qed.

Lemma index_not_occurs (needle text : string) :
  needle <> EmptyString -> index 0 needle text = None -> ~ occurs needle text.
Proof.
  intros Hne H [m Hm].
  apply (index_correct3 0 m needle text H Hne); [lia | exact Hm].
Qed.

(** Scenario S1: one VMFunc [main] with the instructions
    [call f0 in:%0,i3 dst:%1; goto 1; ret %1], no constants.  The fields the
    scenario leaves open are arguments. *)
Definition S1 (num_args register_file_size : Z) (param_names : list string)
    (func_map : gmap string Z) : VMExecutable (list ascii) := {|
  constants := [];
  func_table := [ {| kind := kVMFunc tvm_decls; name := "main";
                     start_instr := 0; end_instr := 3; num_args := num_args;
                     register_file_size := register_file_size;
                     param_names := param_names |} ];
  func_map := func_map;
  instr_offset := [0; 6; 8];
  instr_data := [Opcode_Call tvm_decls; 1; 0; 2;
                 Arg (kRegister tvm_decls) 0; Arg (kImmediate tvm_decls) 3;
                 Opcode_Goto tvm_decls; 1;
                 Opcode_Ret tvm_decls; 1]
|}.

Definition S1_text : string :=
  "@main:" +:+ newline
  +:+ "  call  main             in: %0, i3       dst: %1" +:+ newline
  +:+ "  goto  1" +:+ newline
  +:+ "  ret   %1" +:+ newline +:+ newline.

Lemma AsText_S1 (n r : Z) (ps : list string) (m : gmap string Z) :
  AsText tvm_decls (S1 n r ps m) = Ok S1_text.
Proof. reflexivity. Qed.

(** C3, as stated, fails: the disassembly of S1 has [@main:] and [call] in
    it, but not [ret %1]. *)
Lemma AsText_S1_has_no_ret_1 :
  AsText tvm_decls (S1 1 2 ["x"%string] {[ "main"%string := 0 ]}) = Ok S1_text
  /\ occurs "@main:" S1_text /\ occurs "call" S1_text
  /\ ~ occurs "ret %1" S1_text.
Proof.
  split; [reflexivity|]. repeat split.
  - apply (index_occurs _ _ 0). reflexivity.
  - apply (index_occurs _ _ 9). reflexivity.
  - apply index_not_occurs; [discriminate | reflexivity].
Qed.

(** C3, amended. The disassembly of S1 contains [@main:], [call] and the
    line of the return with its opcode padded to six characters, that is
    [ret   %1] with three spaces. *)
Theorem AsText_S1_contents (n r : Z) (ps : list string) (m : gmap string Z) :
  exists text,
    AsText tvm_decls (S1 n r ps m) = Ok text
    /\ occurs "@main:" text /\ occurs "call" text /\ occurs "ret   %1" text.
Proof.
  exists S1_text. split; [apply AsText_S1|]. repeat split.
  - apply (index_occurs _ _ 0). reflexivity.
  - apply (index_occurs _ _ 9). reflexivity.
  - apply (index_occurs _ _ 69). reflexivity.
Qed.

Section Python.
Context (D : Decls) {Tensor : Type}.

Definition declared_only (e : VMExecutable Tensor) : Prop :=
  Forall (fun f => kind f = kPackedFunc D \/ kind f = kVMTIRFunc D)
         (func_table e).

Lemma AsPython_func_declared (e : VMExecutable Tensor) (f : VMFuncInfo) :
  kind f = kPackedFunc D \/ kind f = kVMTIRFunc D ->
  AsPython_func D e f = Ok "".
Proof.
  intros Hf. unfold AsPython_func. destruct Hf as [-> | ->].
  - now rewrite Z.eqb_refl.
  - rewrite Z.eqb_refl. now destruct (_ =? _).
Qed.

Lemma AsPython_funcs_declared_only (e : VMExecutable Tensor)
    (tbl : list VMFuncInfo) :
  Forall (fun f => kind f = kPackedFunc D \/ kind f = kVMTIRFunc D) tbl ->
  concat_results (map (AsPython_func D e) tbl) = Ok "".
Proof.
  induction 1 as [|f tbl Hf _ IH]; [reflexivity|].
  cbn [map concat_results]. now rewrite IH, AsPython_func_declared.
Qed.

Lemma AsPython_func_unknown (e : VMExecutable Tensor) (f : VMFuncInfo) :
  kind f <> kPackedFunc D -> kind f <> kVMTIRFunc D -> kind f <> kVMFunc D ->
  AsPython_func D e f = Fatal kind_check_failed.
Proof.
  intros Hp Ht Hv. unfold AsPython_func.
  rewrite (proj2 (Z.eqb_neq _ _) Hp), (proj2 (Z.eqb_neq _ _) Ht),
    (proj2 (Z.eqb_neq _ _) Hv).
  reflexivity.
Qed.

(** C4, amended. [AsPython] emits only the preamble when every entry of the
    function table is a PackedFunc or a VMTIRFunc: these are skipped.  An
    entry of any other kind than these two and VMFunc is not skipped: the
    check on its kind fails. *)
Theorem AsPython_declared_only (e : VMExecutable Tensor) :
  (declared_only e -> AsPython D e = Ok AsPython_preamble)
  /\ (forall pre f post,
        func_table e = pre ++ f :: post ->
        Forall (fun g => kind g = kPackedFunc D \/ kind g = kVMTIRFunc D) pre ->
        kind f <> kPackedFunc D -> kind f <> kVMTIRFunc D ->
        kind f <> kVMFunc D ->
        AsPython D e = Fatal kind_check_failed).
Proof.
  split.
  - intros H. unfold AsPython.
    rewrite (AsPython_funcs_declared_only e _ H). reflexivity.
  - intros pre f post Htbl Hpre Hp Ht Hv. unfold AsPython. rewrite Htbl.
    clear Htbl. induction Hpre as [|g pre Hg _ IH].
    + cbn [app map concat_results].
      now rewrite (AsPython_func_unknown e f Hp Ht Hv).
    + cbn [app map concat_results].
      rewrite (AsPython_func_declared e g Hg).
      destruct (concat_results (map (AsPython_func D e) (pre ++ f :: post)))
        as [x|msg|]; try discriminate.
      exact IH.
Qed.

End Python.

(** An executable with one PackedFunc declaration, and one with an entry of
    kind 7. *)
Definition packed_only : VMExecutable (list ascii) :=
  {| constants := [];
     func_table := [ {| kind := 0; name := "ext"; start_instr := 0;
                        end_instr := 0; num_args := 0;
                        register_file_size := 0; param_names := [] |} ];
     func_map := {[ "ext"%string := 0 ]};
     instr_offset := []; instr_data := [] |}.

Definition unknown_kind : VMExecutable (list ascii) :=
  {| constants := [];
     func_table := [ {| kind := 7; name := "future"; start_instr := 0;
                        end_instr := 0; num_args := 0;
                        register_file_size := 0; param_names := [] |} ];
     func_map := {[ "future"%string := 0 ]};
     instr_offset := []; instr_data := [] |}.

(** C4, as stated, fails: the table of [unknown_kind] has no VMFunc, and its
    only entry is of none of the three kinds; [AsPython] does not skip it. *)
Lemma AsPython_unknown_kind_fails :
  AsPython tvm_decls unknown_kind = Fatal kind_check_failed.
Proof. reflexivity. Qed.

Lemma AsPython_declared_only_witness :
  AsPython tvm_decls packed_only = Ok AsPython_preamble
  /\ AsPython tvm_decls unknown_kind = Fatal kind_check_failed.
Proof.
  split.
  - apply (proj1 (AsPython_declared_only tvm_decls packed_only)).
    repeat constructor.
  - apply (proj2 (AsPython_declared_only tvm_decls unknown_kind)
             [] _ [] eq_refl); [constructor | discriminate..].
Defined.

(** ** More of the executable: loading errors, lookup, patching *)

Lemma le_bytes_le_value (bs : list ascii) :
  le_bytes (length bs) (le_value bs) = bs.
Proof.
  induction bs as [|b bs IH]; [reflexivity|].
  cbn [length le_bytes le_value].
  pose proof (StreamFacts.Z_of_byte_range b) as Hb.
  assert (Hm : (Z_of_byte b + 256 * le_value bs) mod 256 = Z_of_byte b).
  { rewrite Z.mul_comm, Z_mod_plus_full. apply Z.mod_small. exact Hb. }
  assert (Hd : (Z_of_byte b + 256 * le_value bs) / 256 = le_value bs).
  { rewrite Z.mul_comm, Z.div_add by lia. rewrite Z.div_small by exact Hb. lia. }
  rewrite Hm, Hd, IH. f_equal.
  apply StreamFacts.byte_of_Z_of_byte.
Qed.

(** A typed read gives [z] iff the stream starts with the bytes of [z]. *)
Lemma Read_uint_Some (n : nat) (z : Z) (s : list ascii) :
  0 <= z < 2 ^ (8 * Z.of_nat n) ->
  (exists rest, Read_uint n s = (Some z, rest)) <-> firstn n s = le_bytes n z.
Proof.
  intros Hz. unfold Read_uint, Read_raw. split.
  - intros (rest & H).
    destruct (Nat.eqb_spec (length (firstn n s)) n) as [Hl|Hl]; [|discriminate].
    injection H as H _. rewrite <- H, <- Hl at 1.
    rewrite <- Hl at 2. symmetry. rewrite Hl. rewrite <- Hl at 1.
    apply le_bytes_le_value.
  - intros H. rewrite H, StreamFacts.length_le_bytes, Nat.eqb_refl.
    rewrite StreamFacts.le_value_le_bytes, Z.mod_small by exact Hz. eauto.
Qed.

Section LoadErrors.
Context (D : Decls) {Tensor : Type}.
Context (NDArray_Load : list ascii -> Result (Tensor * list ascii)).

(** X1. [LoadFromBinary] reads one string from its stream and checks how it
    starts: a string whose first eight bytes are not the magic number is
    refused with the diagnostic of the header section, and one that has the
    magic number but not the version string of this build after it is
    refused with the diagnostic of the version section. *)
Theorem LoadFromBinary_header_errors (strm : list ascii) (ok : bool)
    (code rest : list ascii) :
  Read_bytes strm = ((ok, code), rest) ->
  (firstn 8 code <> le_bytes 8 kTVMVMBytecodeMagic ->
   LoadFromBinary D NDArray_Load strm = Fatal (format_error "header"))
  /\ (firstn 8 code = le_bytes 8 kTVMVMBytecodeMagic ->
      (forall r, Read_string (skipn 8 code) <> (Some (VM_VERSION D), r)) ->
      LoadFromBinary D NDArray_Load strm = Fatal (format_error "version")).
Proof.
  intros Hr. unfold LoadFromBinary. rewrite Hr. split.
  - intros Hm. apply LoadHeader_bad_magic.
    intros r H. apply Hm. apply (Read_uint_Some 8); [|eauto].
    unfold kTVMVMBytecodeMagic. simpl. lia.
  - intros Hm Hv.
    apply (proj2 (Read_uint_Some 8 kTVMVMBytecodeMagic code
                    ltac:(unfold kTVMVMBytecodeMagic; simpl; lia))) in Hm
      as (r & Hm).
    eapply LoadHeader_bad_version; [exact Hm|].
    unfold Read_uint, Read_raw in Hm.
    destruct (Nat.eqb _ _); [|discriminate]. injection Hm as _ <-. exact Hv.
Qed.

End LoadErrors.

Lemma LoadFromBinary_header_errors_witness :
  LoadFromBinary tvm_decls sample_tensor_load (Write_string "not a module")
  = Fatal (format_error "header")
  /\ LoadFromBinary tvm_decls sample_tensor_load
       (Write_bytes (Write_scalar 8 kTVMVMBytecodeMagic ++ Write_string "0.13"))
     = Fatal (format_error "version").
Proof.
  split.
  - refine (proj1 (LoadFromBinary_header_errors tvm_decls sample_tensor_load
                     (Write_string "not a module") true
                     (list_ascii_of_string "not a module") [] _) _).
    + vm_compute. reflexivity.
    + vm_compute. discriminate.
  - refine (proj2 (LoadFromBinary_header_errors tvm_decls sample_tensor_load
                     (Write_bytes (Write_scalar 8 kTVMVMBytecodeMagic
                                   ++ Write_string "0.13")) true
                     (Write_scalar 8 kTVMVMBytecodeMagic ++ Write_string "0.13")
                     [] _) _ _).
    + vm_compute. reflexivity.
    + vm_compute. reflexivity.
    + intros r. vm_compute. discriminate.
Defined.

Section ConstantErrors.
Context (D : Decls) {Tensor : Type}.
Context (NDArray_Load : list ascii -> Result (Tensor * list ascii)).


End ConstantErrors.


(** *** Truncated code sections *)

(** The number of bytes that a vector of 64-bit words takes at the head of
    [s], when all of it is there: the count and the words. *)
Definition vector_fits (s : list ascii) : option nat :=
  if (length s <? 8)%nat then None
  else
    let n := Z.to_nat (le_value (firstn 8 s)) in
    if (length s - 8 <? 8 * n)%nat then None else Some (8 + 8 * n)%nat.

Lemma Read_int_8_enough (s : list ascii) :
  (8 <= length s)%nat ->
  exists z, Read_int 8 s = (Some z, skipn 8 s).
Proof.
  intros H. unfold Read_int, Read_uint, Read_raw.
  rewrite length_firstn, Nat.min_l by exact H. simpl Nat.eqb. cbv iota.
  eexists. reflexivity.
Qed.

Lemma Read_int_8_short (s : list ascii) :
  (length s < 8)%nat -> Read_int 8 s = (None, skipn 8 s).
Proof.
  intros H. unfold Read_int, Read_uint, Read_raw.
  rewrite length_firstn, Nat.min_r by lia.
  destruct (Nat.eqb_spec (length s) 8); [lia | reflexivity].
Qed.

Lemma Read_array_int_enough (n : nat) :
  forall s, (8 * n <= length s)%nat ->
  exists l, Read_array (Read_int 8) n s = (Some l, skipn (8 * n) s)
            /\ length l = n.
Proof.
  induction n as [|n IH]; intros s H.
  - exists []. split; reflexivity.
  - cbn [Read_array].
    destruct (Read_int_8_enough s) as [z ->]; [lia|].
    destruct (IH (skipn 8 s)) as (l & -> & Hl).
    { rewrite length_skipn. lia. }
    exists (z :: l). split; [|simpl; congruence].
    f_equal. rewrite skipn_skipn. f_equal. lia.
Qed.

Lemma Read_array_int_short (n : nat) :
  forall s, (length s < 8 * n)%nat ->
  exists r, Read_array (Read_int 8) n s = (None, r).
Proof.
  induction n as [|n IH]; intros s H; [lia|].
  cbn [Read_array].
  destruct (le_lt_dec 8 (length s)) as [Hs|Hs].
  - destruct (Read_int_8_enough s Hs) as [z ->].
    destruct (IH (skipn 8 s)) as (r & ->); [|eauto].
    rewrite length_skipn. lia.
  - rewrite Read_int_8_short by exact Hs. eauto.
Qed.

Lemma Read_vector_fits (s : list ascii) :
  match vector_fits s with
  | None => exists r, Read_vector (Read_int 8) s = (None, r)
  | Some k => exists l, Read_vector (Read_int 8) s = (Some l, skipn k s)
                        /\ (8 + 8 * length l = k)%nat
  end.
Proof.
  unfold vector_fits, Read_vector, Read_uint, Read_raw.
  destruct (Nat.ltb_spec (length s) 8) as [Hs|Hs].
  - rewrite length_firstn, Nat.min_r by lia.
    destruct (Nat.eqb_spec (length s) 8); [lia | eauto].
  - rewrite length_firstn, Nat.min_l by exact Hs. simpl Nat.eqb. cbv iota.
    set (n := Z.to_nat (le_value (firstn 8 s))).
    destruct (Nat.ltb_spec (length s - 8) (8 * n)) as [Hn|Hn].
    + apply Read_array_int_short. rewrite length_skipn. exact Hn.
    + destruct (Read_array_int_enough n (skipn 8 s)) as (l & -> & Hl).
      { rewrite length_skipn. exact Hn. }
      exists l. split; [|lia]. f_equal. rewrite skipn_skipn. f_equal. lia.
Qed.

(** X3. [LoadCodeSection] reads two vectors of 64-bit words.  If the bytes
    of the first are not all there, the load fails with the diagnostic of
    the instruction offsets; if those of the second are not, with the
    diagnostic of the instruction data; otherwise it succeeds, and has read
    as many words as the two counts announce. *)
Theorem LoadCodeSection_truncation (strm : list ascii) :
  match vector_fits strm with
  | None => LoadCodeSection strm = Fatal (format_error "instr offset")
  | Some k =>
      match vector_fits (skipn k strm) with
      | None => LoadCodeSection strm = Fatal (format_error "instr data")
      | Some k' =>
          exists offsets data,
            LoadCodeSection strm = Ok (offsets, data, skipn k' (skipn k strm))
            /\ (8 + 8 * length offsets = k)%nat
            /\ (8 + 8 * length data = k')%nat
      end
  end.
Proof.
  unfold LoadCodeSection.
  pose proof (Read_vector_fits strm) as H1.
  destruct (vector_fits strm) as [k|].
  - destruct H1 as (offs & -> & Hk).
    pose proof (Read_vector_fits (skipn k strm)) as H2.
    destruct (vector_fits (skipn k strm)) as [k'|].
    + destruct H2 as (data & -> & Hk'). eauto.
    + destruct H2 as (r & ->). reflexivity.
  - destruct H1 as (r & ->). reflexivity.
Qed.

(** *** Saving *)

Section Saving.
Context (D : Decls) {Tensor : Type}.
Context (SaveDLTensor : Tensor -> list ascii).

(** The constants that [SaveConstantSection] has a branch for. *)
Definition supported (c : Constant Tensor) : Prop :=
  match c with COther _ => False | _ => True end.

Lemma SaveConstants_supported (cs : list (Constant Tensor)) :
  Forall supported cs -> exists body, SaveConstants D SaveDLTensor cs = Ok body.
Proof.
  induction 1 as [|c cs Hc _ [body IH]]; cbn [SaveConstants]; [eauto|].
  rewrite IH. destruct c; try contradiction; cbn; eauto.
Qed.

Lemma SaveConstants_unsupported (pre post : list (Constant Tensor)) (key : string) :
  Forall supported pre ->
  SaveConstants D SaveDLTensor (pre ++ COther key :: post)
  = Fatal ("Unsupported constant pool type " +:+ key).
Proof.
  induction 1 as [|c pre Hc _ IH]; [reflexivity|].
  cbn [app SaveConstants]. rewrite IH.
  destruct c; try contradiction; reflexivity.
Qed.

(** X4. [SaveToBinary] writes every pool whose constants are tensors,
    shapes, strings, integers, floats and data types, and fails on the first
    constant of another type, with a message that names its type key. *)
Theorem SaveToBinary_unsupported (e : VMExecutable Tensor) :
  (Forall supported (constants e) ->
   exists blob, SaveToBinary D SaveDLTensor e = Ok blob)
  /\ (forall pre key post,
         constants e = pre ++ COther key :: post -> Forall supported pre ->
         SaveToBinary D SaveDLTensor e
         = Fatal ("Unsupported constant pool type " +:+ key)).
Proof.
  unfold SaveToBinary, SaveSections, SaveConstantSection. split.
  - intros H. destruct (SaveConstants_supported _ H) as [body ->].
    cbn. eauto.
  - intros pre key post -> H.
    now rewrite (SaveConstants_unsupported pre post key H).
Qed.

End Saving.

Lemma SaveToBinary_unsupported_witness :
  (exists blob, SaveToBinary tvm_decls Write_bytes sample = Ok blob)
  /\ SaveToBinary tvm_decls Write_bytes
       {| constants := [CInt 1; COther "relax.expr.Var"; CInt 2];
          func_table := []; func_map := ∅;
          instr_offset := []; instr_data := [] |}
     = Fatal "Unsupported constant pool type relax.expr.Var".
Proof.
  split.
  - apply (proj1 (SaveToBinary_unsupported tvm_decls Write_bytes sample)).
    repeat constructor.
  - apply (proj2 (SaveToBinary_unsupported tvm_decls Write_bytes
                    {| constants := [CInt 1; COther "relax.expr.Var"; CInt 2];
                       func_table := []; func_map := ∅;
                       instr_offset := []; instr_data := [] |})
             [CInt 1] "relax.expr.Var"%string [CInt 2]).
    + reflexivity.
    + repeat constructor.
Defined.

(** *** The function map *)


(** X5. The function map that [LoadGlobalSection] sets up: a name is in the
    map iff an entry of the function table has it, which is what
    [HasFunction] answers; and the map sends a name to the index of the last
    entry that has it. *)
Theorem LoadGlobalSection_func_map {Tensor : Type} (strm rest : list ascii)
    (tbl : list VMFuncInfo) (m : gmap string Z)
    (consts : list (Constant Tensor)) (offs data : list Z) (n : string) :
  LoadGlobalSection strm = Ok (tbl, m, rest) ->
  (HasFunction {| constants := consts; func_table := tbl; func_map := m;
                  instr_offset := offs; instr_data := data |} n = true
   <-> n ∈ map name tbl)
  /\ (forall idx, m !! n = Some idx ->
        exists i f,
          idx = Z.of_nat i /\ tbl !! i = Some f /\ name f = n
          /\ forall j g, (i < j)%nat -> tbl !! j = Some g -> name g <> n).
Proof.
  unfold LoadGlobalSection.
  destruct (Read_vector VMFuncInfo_Load strm) as [[tbl'|] s']; [|discriminate].
  intros H. injection H as -> <- _.
  destruct (setup_func_map_lookup tbl 0 ∅ n) as [Hout Hin].
  unfold HasFunction. cbn [func_map]. rewrite bool_decide_eq_true. split.
  - split.
    + intros [idx Hidx]. destruct (decide (n ∈ map name tbl)) as [H|H]; [exact H|].
      rewrite Hout, lookup_empty in Hidx by exact H. discriminate.
    + intros H. destruct (Hin H) as (i & f & _ & _ & Hl & _). eauto.
  - intros idx Hidx. destruct (decide (n ∈ map name tbl)) as [H|H].
    + destruct (Hin H) as (i & f & Hi & Hf & Hl & Hlast).
      exists i, f. rewrite Hl in Hidx. injection Hidx as <-.
      split; [lia|]. auto.
    + rewrite Hout, lookup_empty in Hidx by exact H. discriminate.
Qed.

Lemma LoadGlobalSection_func_map_witness :
  exists i f,
    1 = Z.of_nat i
    /\ [ {| kind := 1; name := "f"; start_instr := 0; end_instr := 0;
            num_args := 0; register_file_size := 0; param_names := [] |};
         {| kind := 0; name := "f"; start_instr := 0; end_instr := 0;
            num_args := 0; register_file_size := 0; param_names := [] |} ] !! i
       = Some f
    /\ name f = "f"%string
    /\ forall j g, (i < j)%nat ->
         [ {| kind := 1; name := "f"; start_instr := 0; end_instr := 0;
              num_args := 0; register_file_size := 0; param_names := [] |};
           {| kind := 0; name := "f"; start_instr := 0; end_instr := 0;
              num_args := 0; register_file_size := 0; param_names := [] |} ] !! j
         = Some g -> name g <> "f"%string.
Proof.
  refine (proj2 (LoadGlobalSection_func_map (Tensor := list ascii)
                   (Write_vector VMFuncInfo_Save
                      [ {| kind := 1; name := "f"; start_instr := 0; end_instr := 0;
                           num_args := 0; register_file_size := 0; param_names := [] |};
                        {| kind := 0; name := "f"; start_instr := 0; end_instr := 0;
                           num_args := 0; register_file_size := 0; param_names := [] |} ])
                   [] _ {[ "f"%string := 1 ]} [] [] [] "f"%string _) 1 _).
  - vm_compute. reflexivity.
  - reflexivity.
Defined.

(** *** Patching instruction words *)

Lemma at_index_Ok (v : list Z) (i w : Z) :
  at_index v i = Ok w <-> 0 <= i /\ v !! Z.to_nat i = Some w.
Proof.
  unfold at_index. destruct (Z.ltb_spec i 0) as [Hi|Hi].
  - split; [discriminate | lia].
  - destruct (v !! Z.to_nat i) as [x|]; split.
    + intros H. injection H as ->. auto.
    + intros [_ H]. congruence.
    + discriminate.
    + intros [_ H]. discriminate.
Qed.

Lemma at_index_insert_eq (v : list Z) (k x : Z) :
  0 <= k < Z.of_nat (length v) ->
  at_index (<[Z.to_nat k := x]> v) k = Ok x.
Proof.
  intros Hk. apply at_index_Ok. split; [lia|].
  apply list_lookup_insert_eq. lia.
Qed.

Lemma at_index_insert_ne (v : list Z) (k k' x : Z) :
  0 <= k -> k' <> k ->
  at_index (<[Z.to_nat k := x]> v) k' = at_index v k'.
Proof.
  intros Hk Hne. unfold at_index.
  destruct (Z.ltb_spec k' 0) as [Hk'|Hk']; [reflexivity|].
  rewrite list_lookup_insert_ne by lia. reflexivity.
Qed.

Lemma to_size_t_int64 (z : Z) (n : nat) :
  int64 z -> Z.of_nat n < 2 ^ 63 ->
  (to_size_t z <? Z.of_nat n) = (0 <=? z) && (z <? Z.of_nat n).
Proof.
  unfold int64, to_size_t. intros Hz Hn.
  destruct (Z.leb_spec 0 z) as [H0|H0]; cbn [andb].
  - rewrite Z.mod_small by lia. reflexivity.
  - replace (z mod 2 ^ 64) with (z + 2 ^ 64).
    + apply Z.ltb_ge. lia.
    + symmetry. symmetry. apply Z.mod_unique with (q := -1); lia.
Qed.

Section Patching.
Context (D : Decls) {Tensor : Type}.

(** The vectors of the executable are within [max_size]. *)
Definition code_sizes_ok (e : VMExecutable Tensor) : Prop :=
  Z.of_nat (length (instr_offset e)) < 2 ^ 63
  /\ Z.of_nat (length (instr_data e)) < 2 ^ 63.

Lemma SetInstructionData_Ok (e : VMExecutable Tensor) (i j val idx : Z) :
  code_sizes_ok e ->
  at_index (instr_offset e) i = Ok idx ->
  0 <= idx + j < Z.of_nat (length (instr_data e)) ->
  SetInstructionData e i j val
  = Ok {| constants := constants e; func_table := func_table e;
          func_map := func_map e; instr_offset := instr_offset e;
          instr_data := <[Z.to_nat (idx + j) := val]> (instr_data e) |}.
Proof.
  intros [Ho Hd] Hidx Hk. unfold SetInstructionData.
  pose proof (proj1 (at_index_Ok _ _ _) Hidx) as [Hi Hl].
  apply lookup_lt_Some in Hl.
  rewrite to_size_t_int64; [|unfold int64; lia|exact Ho].
  replace ((0 <=? i) && (i <? Z.of_nat (length (instr_offset e)))) with true
    by (symmetry; apply andb_true_iff; split; [apply Z.leb_le|apply Z.ltb_lt]; lia).
  cbn [negb]. rewrite Hidx. cbn.
  replace ((idx + j <? - 2 ^ 63) || (2 ^ 63 <=? idx + j)) with false
    by (symmetry; apply orb_false_iff; split; [apply Z.ltb_ge|apply Z.leb_gt]; lia).
  rewrite to_size_t_int64; [|unfold int64; lia|exact Hd].
  replace ((0 <=? idx + j) && (idx + j <? Z.of_nat (length (instr_data e))))
    with true
    by (symmetry; apply andb_true_iff; split; [apply Z.leb_le|apply Z.ltb_lt]; lia).
  reflexivity.
Qed.

(** X6. [SetInstructionData(i, j, val)] checks both of its indices: an
    instruction index that is negative or not below the number of
    instructions, and a word index that falls outside of the instruction
    data, are fatal errors.  Otherwise word [j] of instruction [i] becomes
    [val], and nothing else of the executable changes. *)
Theorem SetInstructionData_spec (e : VMExecutable Tensor) (i j val : Z) :
  code_sizes_ok e -> int64 i ->
  ((i < 0 \/ Z.of_nat (length (instr_offset e)) <= i) ->
   exists msg, SetInstructionData e i j val = Fatal msg)
  /\ (forall idx,
         at_index (instr_offset e) i = Ok idx -> int64 (idx + j) ->
         ((idx + j < 0 \/ Z.of_nat (length (instr_data e)) <= idx + j) ->
          exists msg, SetInstructionData e i j val = Fatal msg)
         /\ (0 <= idx + j < Z.of_nat (length (instr_data e)) ->
             exists e',
               SetInstructionData e i j val = Ok e'
               /\ constants e' = constants e /\ func_table e' = func_table e
               /\ func_map e' = func_map e /\ instr_offset e' = instr_offset e
               /\ length (instr_data e') = length (instr_data e)
               /\ at_index (instr_data e') (idx + j) = Ok val
               /\ forall k, k <> idx + j ->
                    at_index (instr_data e') k = at_index (instr_data e) k)).
Proof.
  intros Hsz Hi. pose proof Hsz as [Ho Hd]. split.
  - intros Hout. unfold SetInstructionData.
    rewrite to_size_t_int64 by assumption.
    replace ((0 <=? i) && (i <? Z.of_nat (length (instr_offset e)))) with false.
    + cbn. eauto.
    + symmetry. apply andb_false_iff.
      destruct Hout; [left; apply Z.leb_gt | right; apply Z.ltb_ge]; lia.
  - intros idx Hidx Hk. split.
    + intros Hout. unfold SetInstructionData.
      pose proof (proj1 (at_index_Ok _ _ _) Hidx) as [Hi0 Hl].
      apply lookup_lt_Some in Hl.
      rewrite to_size_t_int64 by assumption.
      replace ((0 <=? i) && (i <? Z.of_nat (length (instr_offset e)))) with true
        by (symmetry; apply andb_true_iff; split;
            [apply Z.leb_le|apply Z.ltb_lt]; lia).
      cbn [negb]. rewrite Hidx. cbn.
      unfold int64 in Hk.
      replace ((idx + j <? - 2 ^ 63) || (2 ^ 63 <=? idx + j)) with false
        by (symmetry; apply orb_false_iff; split;
            [apply Z.ltb_ge|apply Z.leb_gt]; lia).
      rewrite to_size_t_int64 by assumption.
      replace ((0 <=? idx + j) && (idx + j <? Z.of_nat (length (instr_data e))))
        with false.
      * cbn. eauto.
      * symmetry. apply andb_false_iff.
        destruct Hout; [left; apply Z.leb_gt | right; apply Z.ltb_ge]; lia.
    + intros Hin. eexists.
      split; [exact (SetInstructionData_Ok e i j val idx Hsz Hidx Hin)|].
      cbn. repeat split.
      * apply length_insert.
      * now apply at_index_insert_eq.
      * intros k Hne. apply at_index_insert_ne; [lia | exact Hne].
Qed.

(** X7. Patching a jump: on an instruction that [GetInstruction] decodes as
    a [Goto], [SetInstructionData] with word index 1 succeeds and the
    instruction then decodes as a [Goto] to the new offset; on an [If], word
    index 2 replaces the offset taken when the condition is false and leaves
    the condition register. *)
Theorem SetInstructionData_patches_jump (e : VMExecutable Tensor) (i val : Z) :
  code_sizes_ok e ->
  (forall pc, GetInstruction D e i = Ok (Goto pc) ->
      exists e', SetInstructionData e i 1 val = Ok e'
                 /\ GetInstruction D e' i = Ok (Goto val))
  /\ (forall cond off, GetInstruction D e i = Ok (If cond off) ->
        exists e', SetInstructionData e i 2 val = Ok e'
                   /\ GetInstruction D e' i = Ok (If cond val)).
Proof.
  intros Hsz. split.
  - intros pc. unfold GetInstruction.
    destruct (at_index (instr_offset e) i) as [idx| |] eqn:Hidx; try discriminate.
    cbn [mbind Result_bind].
    destruct (at_index (instr_data e) idx) as [op| |] eqn:Hop; try discriminate.
    cbn [mbind Result_bind].
    destruct (op =? Opcode_Call D) eqn:Hcall.
    { destruct (at_index _ (idx + 1)) as [?| |]; try discriminate. cbn.
      destruct (at_index _ (idx + 2)) as [?| |]; try discriminate. cbn.
      destruct (at_index _ (idx + 3)) as [?| |]; discriminate. }
    destruct (op =? Opcode_Ret D) eqn:Hret.
    { destruct (at_index _ (idx + 1)) as [?| |]; discriminate. }
    destruct (op =? Opcode_Goto D) eqn:Hgoto.
    2:{ destruct (op =? Opcode_If D).
        - destruct (at_index _ (idx + 1)) as [?| |]; try discriminate. cbn.
          destruct (at_index _ (idx + 2)) as [?| |]; discriminate.
        - discriminate. }
    destruct (at_index (instr_data e) (idx + 1)) as [w| |] eqn:Hw;
      try discriminate.
    intros _.
    pose proof (proj1 (at_index_Ok _ _ _) Hw) as [Hk Hl].
    apply lookup_lt_Some in Hl.
    eexists. split; [apply (SetInstructionData_Ok e i 1 val idx Hsz Hidx); lia|].
    cbn [instr_offset instr_data]. rewrite Hidx. cbn [mbind Result_bind].
    rewrite (at_index_insert_ne _ (idx + 1) idx) by lia.
    rewrite Hop. cbn [mbind Result_bind].
    rewrite Hcall, Hret, Hgoto.
    rewrite at_index_insert_eq by lia. reflexivity.
  - intros cond off. unfold GetInstruction.
    destruct (at_index (instr_offset e) i) as [idx| |] eqn:Hidx; try discriminate.
    cbn [mbind Result_bind].
    destruct (at_index (instr_data e) idx) as [op| |] eqn:Hop; try discriminate.
    cbn [mbind Result_bind].
    destruct (op =? Opcode_Call D) eqn:Hcall.
    { destruct (at_index _ (idx + 1)) as [?| |]; try discriminate. cbn.
      destruct (at_index _ (idx + 2)) as [?| |]; try discriminate. cbn.
      destruct (at_index _ (idx + 3)) as [?| |]; discriminate. }
    destruct (op =? Opcode_Ret D) eqn:Hret.
    { destruct (at_index _ (idx + 1)) as [?| |]; discriminate. }
    destruct (op =? Opcode_Goto D) eqn:Hgoto.
    { destruct (at_index _ (idx + 1)) as [?| |]; discriminate. }
    destruct (op =? Opcode_If D) eqn:Hif; [|discriminate].
    destruct (at_index (instr_data e) (idx + 1)) as [c| |] eqn:Hc;
      try discriminate.
    cbn [mbind Result_bind].
    destruct (at_index (instr_data e) (idx + 2)) as [w| |] eqn:Hw;
      try discriminate.
    intros H. injection H as -> _.
    pose proof (proj1 (at_index_Ok _ _ _) Hw) as [Hk Hl].
    apply lookup_lt_Some in Hl.
    eexists. split; [apply (SetInstructionData_Ok e i 2 val idx Hsz Hidx); lia|].
    cbn [instr_offset instr_data]. rewrite Hidx. cbn [mbind Result_bind].
    rewrite (at_index_insert_ne _ (idx + 2) idx) by lia.
    rewrite Hop. cbn [mbind Result_bind].
    rewrite Hcall, Hret, Hgoto, Hif.
    rewrite (at_index_insert_ne _ (idx + 2) (idx + 1)) by lia.
    rewrite Hc. cbn [mbind Result_bind].
    rewrite at_index_insert_eq by lia. reflexivity.
Qed.

End Patching.

Lemma sample_sizes_ok : code_sizes_ok sample.
Proof. split; vm_compute; reflexivity. Defined.

Lemma SetInstructionData_spec_witness :
  (exists msg, SetInstructionData sample 3 0 9 = Fatal msg)
  /\ (exists msg, SetInstructionData sample 2 2 9 = Fatal msg)
  /\ exists e',
       SetInstructionData sample 2 1 9 = Ok e'
       /\ constants e' = constants sample /\ func_table e' = func_table sample
       /\ func_map e' = func_map sample /\ instr_offset e' = instr_offset sample
       /\ length (instr_data e') = length (instr_data sample)
       /\ at_index (instr_data e') (8 + 1) = Ok 9
       /\ forall k, k <> 8 + 1 ->
            at_index (instr_data e') k = at_index (instr_data sample) k.
Proof.
  assert (H3 : int64 3) by (unfold int64; lia).
  assert (H2 : int64 2) by (unfold int64; lia).
  split; [|split].
  - apply (proj1 (SetInstructionData_spec sample 3 0 9 sample_sizes_ok H3)).
    right. vm_compute. discriminate.
  - apply (proj2 (SetInstructionData_spec sample 2 2 9 sample_sizes_ok H2) 8).
    + reflexivity.
    + unfold int64. lia.
    + right. vm_compute. discriminate.
  - apply (proj2 (SetInstructionData_spec sample 2 1 9 sample_sizes_ok H2) 8).
    + reflexivity.
    + unfold int64. lia.
    + split; vm_compute; [discriminate | reflexivity].
Defined.

Lemma SetInstructionData_patches_jump_witness :
  exists e', SetInstructionData sample 1 1 5 = Ok e'
             /\ GetInstruction tvm_decls e' 1 = Ok (Goto 5).
Proof.
  apply (proj1 (SetInstructionData_patches_jump tvm_decls sample 1 5
                  sample_sizes_ok) 1).
  reflexivity.
Defined.

(** *** The two disassemblers *)

(** How a call ends, without what it returns. *)
Definition outcome {A} (r : Result A) : Result unit :=
  match r with
  | Ok _ => Ok tt
  | Fatal m => Fatal m
  | Unspecified => Unspecified
  end.

Lemma outcome_bind {A B} (r : Result A) (k : A -> Result B) :
  outcome (r ≫= k)
  = match r with
    | Ok a => outcome (k a)
    | Fatal m => Fatal m
    | Unspecified => Unspecified
    end.
Proof. now destruct r. Qed.

Lemma StrJoin_loop_outcome (item1 item2 : Z -> Result string) (delim : string)
    (n : nat) :
  (forall i, outcome (item1 i) = outcome (item2 i)) ->
  forall i acc1 acc2,
    outcome (StrJoin_loop item1 delim n i acc1)
    = outcome (StrJoin_loop item2 delim n i acc2).
Proof.
  intros H. induction n as [|n IH]; intros i acc1 acc2; [reflexivity|].
  cbn [StrJoin_loop]. rewrite !outcome_bind. specialize (H i).
  destruct (item1 i), (item2 i); try discriminate; try exact H. apply IH.
Qed.

Lemma StrJoin_outcome (item1 item2 : Z -> Result string) (cnt : Z)
    (delim : string) :
  (forall i, outcome (item1 i) = outcome (item2 i)) ->
  outcome (StrJoin item1 cnt delim) = outcome (StrJoin item2 cnt delim).
Proof.
  intros H. unfold StrJoin. destruct (cnt =? 0); [reflexivity|].
  rewrite !outcome_bind. pose proof (H 0) as H0.
  destruct (item1 0), (item2 0); try discriminate; try exact H0.
  now apply StrJoin_loop_outcome.
Qed.

Lemma concat_results_outcome {A} (f g : A -> Result string) (l : list A) :
  (forall a, outcome (f a) = outcome (g a)) ->
  outcome (concat_results (map f l)) = outcome (concat_results (map g l)).
Proof.
  intros H. induction l as [|a l IH]; [reflexivity|].
  cbn [map concat_results]. rewrite !outcome_bind. specialize (H a).
  destruct (f a), (g a); try discriminate; try exact H.
  rewrite !outcome_bind.
  destruct (concat_results (map f l)), (concat_results (map g l));
    try discriminate; try exact IH; reflexivity.
Qed.

Section Disassemblers.
Context (D : Decls) {Tensor : Type}.
Context (e : VMExecutable Tensor).

Lemma arg_outcome (w : Z) :
  outcome (instr_to_str D e w) = outcome (arg_to_py_str D e w).
Proof.
  unfold instr_to_str, arg_to_py_str.
  destruct (Arg_kind D w =? kRegister D).
  { now destruct (Arg_value D w =? kVMRegister D). }
  destruct (Arg_kind D w =? kImmediate D); [reflexivity|].
  destruct (Arg_kind D w =? kConstIdx D); [reflexivity|].
  destruct (Arg_kind D w =? kFuncIdx D); reflexivity.
Qed.

Lemma instr_outcome (idx : Z) :
  outcome (AsText_instr D e idx) = outcome (AsPython_instr D e idx).
Proof.
  unfold AsText_instr, AsPython_instr. rewrite !outcome_bind.
  destruct (GetInstruction D e idx) as [[f n args dst|r|pc|c off]| |];
    try reflexivity.
  rewrite !outcome_bind.
  pose proof (StrJoin_outcome
                (fun i => w ← at_index (instr_data e) (args + i); instr_to_str D e w)
                (fun i => w ← at_index (instr_data e) (args + i); arg_to_py_str D e w)
                (to_int n) ", ") as H.
  match type of H with
  | _ -> outcome ?a = outcome ?b =>
      assert (Ho : outcome a = outcome b);
      [apply H | destruct a, b; try discriminate; try exact Ho; reflexivity]
  end.
  intros i. rewrite !outcome_bind.
  destruct (at_index (instr_data e) (args + i)); try reflexivity.
  apply arg_outcome.
Qed.

Lemma func_outcome (gfunc : VMFuncInfo) :
  outcome (AsText_func D e gfunc) = outcome (AsPython_func D e gfunc).
Proof.
  unfold AsText_func, AsPython_func.
  destruct (kind gfunc =? kPackedFunc D); [reflexivity|].
  destruct (kind gfunc =? kVMTIRFunc D); [reflexivity|].
  destruct (negb (kind gfunc =? kVMFunc D)); [reflexivity|].
  rewrite !outcome_bind.
  pose proof (concat_results_outcome (AsText_instr D e) (AsPython_instr D e)
                (instr_range gfunc) instr_outcome) as H.
  destruct (concat_results (map (AsText_instr D e) (instr_range gfunc))),
    (concat_results (map (AsPython_instr D e) (instr_range gfunc)));
    try discriminate; try exact H; reflexivity.
Qed.

(** X8. [AsText] and [AsPython] accept the same executables: one returns a
    text iff the other does, and when one fails (an entry of unknown kind, an
    unknown opcode, an argument of unknown kind) the other fails with the
    same diagnostic. *)
Theorem AsText_AsPython_alike :
  outcome (AsText D e) = outcome (AsPython D e).
Proof.
  unfold AsText, AsPython. rewrite outcome_bind.
  pose proof (concat_results_outcome (AsText_func D e) (AsPython_func D e)
                (func_table e) func_outcome) as H.
  destruct (concat_results (map (AsText_func D e) (func_table e))),
    (concat_results (map (AsPython_func D e) (func_table e)));
    try discriminate; try exact H; reflexivity.
Qed.

End Disassemblers.

(** *** Statistics *)

(** The stream after [l] has been written to it from the start. *)
Definition oss_of (l : list ascii) : ostringstream :=
  {| oss_str := l; oss_pos := length l; oss_fail := false |}.

Lemma chars_app (a b : string) :
  list_ascii_of_string (a +:+ b)
  = list_ascii_of_string a ++ list_ascii_of_string b.
Proof. induction a as [|c a IH]; [reflexivity|]. simpl. f_equal. exact IH. Qed.

(** A write in the middle of the stream: [t] is what was written after the
    put position before a seek went back. *)
Lemma oss_put_mid (a t : list ascii) (s : string) :
  oss_put s {| oss_str := a ++ t; oss_pos := length a; oss_fail := false |}
  = {| oss_str := (a ++ list_ascii_of_string s)
                  ++ skipn (length (list_ascii_of_string s)) t;
       oss_pos := length (a ++ list_ascii_of_string s);
       oss_fail := false |}.
Proof.
  unfold oss_put. cbn [oss_fail oss_str oss_pos]. f_equal.
  - rewrite firstn_app, Nat.sub_diag, firstn_all. cbn [firstn].
    rewrite app_nil_r, <- app_assoc. f_equal. f_equal.
    rewrite skipn_app, skipn_all2 by lia. cbn [app]. f_equal. lia.
  - now rewrite length_app.
Qed.

Lemma oss_put_end (l : list ascii) (s : string) :
  oss_put s (oss_of l) = oss_of (l ++ list_ascii_of_string s).
Proof.
  pose proof (oss_put_mid l [] s) as H.
  rewrite skipn_nil, !app_nil_r in H. exact H.
Qed.

Lemma oss_seekp_back2 (l : list ascii) (a b : ascii) :
  oss_seekp_cur (-2) (oss_of (l ++ [a; b]))
  = {| oss_str := l ++ [a; b]; oss_pos := length l; oss_fail := false |}.
Proof.
  unfold oss_seekp_cur, oss_of. cbn [oss_fail oss_str oss_pos].
  rewrite length_app. cbn [length].
  replace (Z.of_nat (length l + 2) + -2) with (Z.of_nat (length l)) by lia.
  destruct (Z.ltb_spec (Z.of_nat (length l)) 0) as [H|_]; [lia|].
  destruct (Z.ltb_spec (Z.of_nat (length l + 2)) (Z.of_nat (length l)))
    as [H|_]; [lia|].
  cbn [orb]. now rewrite Nat2Z.id.
Qed.

(** The items of a list with [", "] between them. *)
Fixpoint join (l : list string) : string :=
  match l with
  | [] => ""
  | [x] => x
  | x :: tl => x +:+ ", " +:+ join tl
  end.

Definition sep : list ascii := [","%char; " "%char].

Lemma items_join (x : string) (l : list string) :
  concat (map (fun y => list_ascii_of_string y ++ sep) (x :: l))
  = list_ascii_of_string (join (x :: l)) ++ sep.
Proof.
  revert x. induction l as [|y l IH]; intros x.
  - cbn. now rewrite app_nil_r.
  - change (join (x :: y :: l)) with (x +:+ ", " +:+ join (y :: l)).
    rewrite !chars_app. cbn [map concat] in *. rewrite IH.
    rewrite <- !app_assoc. reflexivity.
Qed.

Ltac norm_chars :=
  unfold oss_of; rewrite ?chars_app, ?app_nil_r, <- ?app_assoc; reflexivity.

Lemma string_of_chars (l : list ascii) (s : string) :
  l = list_ascii_of_string s -> string_of_list_ascii l = s.
Proof. intros ->. apply string_of_list_ascii_of_string. Qed.

Ltac str_chars :=
  apply f_equal; apply string_of_chars;
  rewrite ?chars_app, ?app_nil_r, <- ?app_assoc; reflexivity.

Section StatsFacts.
Context (D : Decls) {Tensor : Type}.
Context (NDArray_Shape : Tensor -> list Z).
Context (DataType_str : Z -> Z -> Z -> string).

Lemma Stats_dims_end (dims : list Z) :
  forall l,
    Stats_dims dims (oss_of l)
    = oss_of (l ++ concat (map (fun y => list_ascii_of_string y ++ sep)
                               (map to_string dims))).
Proof.
  unfold Stats_dims.
  induction dims as [|d dims IH]; intros l; cbn [fold_left map concat].
  - now rewrite app_nil_r.
  - rewrite !oss_put_end, IH. f_equal. now rewrite <- !app_assoc.
Qed.

Lemma Stats_globals_end (tbl : list VMFuncInfo) :
  forall l,
    Stats_globals tbl (oss_of l)
    = oss_of (l ++ concat (map (fun y => list_ascii_of_string y ++ sep)
                               (map name tbl))).
Proof.
  unfold Stats_globals.
  induction tbl as [|f tbl IH]; intros l; cbn [fold_left map concat].
  - now rewrite app_nil_r.
  - rewrite !oss_put_end, IH. f_equal. now rewrite <- !app_assoc.
Qed.

(** Closing a list of items: the seek goes back over the last separator and
    [closing], of two characters or more, is written over it. *)
Lemma close_items (l : list ascii) (x : string) (items : list string)
    (closing : string) :
  (2 <= length (list_ascii_of_string closing))%nat ->
  oss_put closing
    (oss_seekp_cur (-2)
       (oss_of (l ++ concat (map (fun y => list_ascii_of_string y ++ sep)
                                 (x :: items)))))
  = oss_of (l ++ list_ascii_of_string (join (x :: items))
              ++ list_ascii_of_string closing).
Proof.
  intros Hc. rewrite items_join, app_assoc. unfold sep.
  rewrite oss_seekp_back2, oss_put_mid.
  rewrite skipn_all2 by (cbn [length]; lia).
  rewrite app_nil_r, <- app_assoc. reflexivity.
Qed.

(** What [Stats] prints for a constant.  An empty shape tuple loses the end
    of its prefix to the seek. *)
Definition shown (c : Constant Tensor) : string :=
  match c with
  | CNDArray t =>
      match NDArray_Shape t with
      | [] => "scalar"
      | shape => "[" +:+ join (map to_string shape) +:+ "]"
      end
  | CShape [] => "shapetupl]"
  | CShape shape => "shapetuple[" +:+ join (map to_string shape) +:+ "]"
  | CString f => quote +:+ f +:+ quote
  | CInt v => to_string v
  | CDataType code bits lanes => DataType_str code bits lanes
  | CFloat _ | COther _ => ""
  end.

(** The constants that [Stats] has a branch for. *)
Definition printable (c : Constant Tensor) : Prop :=
  match c with CFloat _ | COther _ => False | _ => True end.

Lemma Stats_constant_shown (c : Constant Tensor) (l : list ascii) :
  printable c ->
  Stats_constant D NDArray_Shape DataType_str c (oss_of l)
  = Ok (oss_of (l ++ list_ascii_of_string (shown c) ++ sep)).
Proof.
  destruct c as [t|shape|f|v|v|code bits lanes|key]; cbn [printable];
    try contradiction; intros _; cbn [Stats_constant shown].
  - destruct (NDArray_Shape t) as [|d dims].
    + rewrite oss_put_end. reflexivity.
    + rewrite oss_put_end, Stats_dims_end.
      change (map to_string (d :: dims)) with (to_string d :: map to_string dims).
      rewrite close_items by (cbn; lia). do 2 f_equal.
      rewrite !chars_app, <- !app_assoc. reflexivity.
  - destruct shape as [|d dims].
    + cbn [Stats_dims fold_left]. rewrite oss_put_end.
      change (list_ascii_of_string "shapetuple[")
        with (list_ascii_of_string "shapetupl" ++ ["e"%char; "["%char]).
      rewrite app_assoc, oss_seekp_back2, oss_put_mid.
      rewrite skipn_all2 by (cbn; lia).
      rewrite app_nil_r, <- app_assoc. reflexivity.
    + rewrite oss_put_end, Stats_dims_end.
      change (map to_string (d :: dims)) with (to_string d :: map to_string dims).
      rewrite close_items by (cbn; lia). do 2 f_equal.
      rewrite !chars_app, <- !app_assoc. reflexivity.
  - rewrite !oss_put_end. do 2 f_equal.
    rewrite !chars_app, <- !app_assoc. reflexivity.
  - rewrite !oss_put_end. do 2 f_equal. now rewrite <- !app_assoc.
  - rewrite !oss_put_end. do 2 f_equal. now rewrite <- !app_assoc.
Qed.

Lemma Stats_constants_shown (cs : list (Constant Tensor)) :
  Forall printable cs ->
  forall l,
    Stats_constants D NDArray_Shape DataType_str cs (oss_of l)
    = Ok (oss_of (l ++ concat (map (fun y => list_ascii_of_string y ++ sep)
                                   (map shown cs)))).
Proof.
  induction 1 as [|c cs Hc _ IH]; intros l; cbn [Stats_constants map concat].
  - now rewrite app_nil_r.
  - rewrite Stats_constant_shown by exact Hc. cbn [mbind Result_bind].
    rewrite IH. do 2 f_equal. now rewrite <- !app_assoc.
Qed.

(** Closing the whole list: ["]"] and the end of line are written one after
    the other over the last separator. *)
Lemma close_list (l : list ascii) (x : string) (items : list string) :
  oss_put newline
    (oss_put "]"
       (oss_seekp_cur (-2)
          (oss_of (l ++ concat (map (fun y => list_ascii_of_string y ++ sep)
                                    (x :: items))))))
  = oss_of (l ++ list_ascii_of_string (join (x :: items) +:+ "]" +:+ newline)).
Proof.
  rewrite items_join, app_assoc. unfold sep.
  rewrite oss_seekp_back2, oss_put_mid. cbn [list_ascii_of_string length skipn].
  rewrite oss_put_mid. cbn [list_ascii_of_string newline length skipn].
  rewrite app_nil_r. unfold oss_of. rewrite !chars_app, <- !app_assoc.
  reflexivity.
Qed.

(** The first two lines of the report. *)
Definition Stats_pool_text (e : VMExecutable Tensor) : string :=
  "Relax VM executable statistics:" +:+ newline
  +:+ "  Constant pool (# " +:+ to_string (Z.of_nat (length (constants e)))
  +:+ "): [" +:+ join (map shown (constants e)) +:+ "]" +:+ newline.

Definition Stats_globals_head (e : VMExecutable Tensor) : string :=
  "  Globals (#" +:+ to_string (Z.of_nat (length (func_table e))) +:+ "): [".

Lemma Stats_pool (e : VMExecutable Tensor) :
  Forall printable (constants e) ->
  Stats D NDArray_Shape DataType_str e
  = let o := oss_of (list_ascii_of_string
                       (Stats_pool_text e +:+ Stats_globals_head e)) in
    let o := Stats_globals (func_table e) o in
    let o := if bool_decide (func_map e = ∅) then o
             else oss_seekp_cur (-2) o in
    Ok (string_of_list_ascii (oss_str (oss_put newline (oss_put "]" o)))).
Proof.
  intros Hp. unfold Stats. change oss_new with (oss_of []).
  rewrite !oss_put_end, (Stats_constants_shown _ Hp).
  cbn [mbind Result_bind]. cbv zeta.
  assert (Hpool :
            oss_put newline
              (oss_put "]"
                 match constants e with
                 | [] =>
                     oss_of
                       (((((([] ++ list_ascii_of_string "Relax VM executable statistics:")
                            ++ list_ascii_of_string newline)
                           ++ list_ascii_of_string "  Constant pool (# ")
                          ++ list_ascii_of_string
                               (to_string (Z.of_nat (length (constants e)))))
                         ++ list_ascii_of_string "): [")
                        ++ concat (map (fun y => list_ascii_of_string y ++ sep)
                                       (map shown (constants e))))
                 | _ :: _ =>
                     oss_seekp_cur (-2)
                       (oss_of
                          (((((([] ++ list_ascii_of_string "Relax VM executable statistics:")
                               ++ list_ascii_of_string newline)
                              ++ list_ascii_of_string "  Constant pool (# ")
                             ++ list_ascii_of_string
                                  (to_string (Z.of_nat (length (constants e)))))
                            ++ list_ascii_of_string "): [")
                           ++ concat (map (fun y => list_ascii_of_string y ++ sep)
                                          (map shown (constants e)))))
                 end)
            = oss_of (list_ascii_of_string (Stats_pool_text e))).
  { unfold Stats_pool_text. destruct (constants e) as [|c cs].
    - cbn [map concat join]. rewrite !oss_put_end. norm_chars.
    - change (map shown (c :: cs)) with (shown c :: map shown cs).
      rewrite close_list. norm_chars. }
  rewrite Hpool, !oss_put_end. unfold Stats_globals_head. norm_chars.
Qed.

(** X9. The report of [Stats]: the constants of the pool, then the names of
    the function table, each list between brackets with [", "] between its
    items and nothing after the last one, when the function map is empty
    only if the table is.  The trailing separator of the names is removed
    when the function map has an entry, not when the table has one: with a
    table whose map was never set up, it stays. *)
Theorem Stats_format (e : VMExecutable Tensor) :
  Forall printable (constants e) ->
  ((func_map e = ∅ <-> func_table e = []) ->
   Stats D NDArray_Shape DataType_str e
   = Ok (Stats_pool_text e +:+ Stats_globals_head e
         +:+ join (map name (func_table e)) +:+ "]" +:+ newline))
  /\ (func_map e = ∅ -> func_table e <> [] ->
      Stats D NDArray_Shape DataType_str e
      = Ok (Stats_pool_text e +:+ Stats_globals_head e
            +:+ join (map name (func_table e)) +:+ ", ]" +:+ newline)).
Proof.
  intros Hp. rewrite (Stats_pool e Hp). cbv zeta.
  rewrite Stats_globals_end. split.
  - intros Hiff. destruct (func_table e) as [|f tbl] eqn:Htbl.
    + rewrite bool_decide_eq_true_2 by now apply Hiff.
      cbn [map concat join]. rewrite !oss_put_end. cbn [oss_of oss_str].
      str_chars.
    + rewrite bool_decide_eq_false_2
        by (intros H; apply Hiff in H; discriminate).
      change (map name (f :: tbl)) with (name f :: map name tbl).
      rewrite close_list. cbn [oss_of oss_str].
      str_chars.
  - intros Hm Htbl. rewrite bool_decide_eq_true_2 by exact Hm.
    destruct (func_table e) as [|f tbl]; [contradiction|].
    change (map name (f :: tbl)) with (name f :: map name tbl).
    rewrite items_join, !oss_put_end. cbn [oss_of oss_str].
      str_chars.
Qed.

(** X10. [Stats] has no branch for a floating-point constant, which
    [SaveToBinary] and [LoadFromBinary] support: on the first constant that
    is a float, or of a type that the pool does not support, it fails with
    [Unsupported constant pool type] and the type key. *)
Theorem Stats_unsupported (e : VMExecutable Tensor)
    (pre post : list (Constant Tensor)) (c : Constant Tensor) :
  constants e = pre ++ c :: post -> Forall printable pre -> ~ printable c ->
  exists key,
    Stats D NDArray_Shape DataType_str e
    = Fatal ("Unsupported constant pool type " +:+ key)
    /\ key = match c with
             | COther k => k
             | _ => TypeIndexToTypeKey D (kTVMFFIFloat D)
             end.
Proof.
  intros Hc Hpre Hnot. unfold Stats. rewrite Hc.
  change oss_new with (oss_of []). rewrite !oss_put_end.
  generalize ((((([] ++ list_ascii_of_string "Relax VM executable statistics:")
                 ++ list_ascii_of_string newline)
                ++ list_ascii_of_string "  Constant pool (# ")
               ++ list_ascii_of_string
                    (to_string (Z.of_nat (length (pre ++ c :: post)))))
              ++ list_ascii_of_string "): [").
  clear Hc. induction Hpre as [|p pre Hp _ IH]; intros l.
  - cbn [app Stats_constants].
    destruct c; cbn [printable] in Hnot; try (exfalso; apply Hnot; exact I);
      cbn; eauto.
  - cbn [app Stats_constants].
    rewrite Stats_constant_shown by exact Hp. cbn [mbind Result_bind].
    destruct (IH (l ++ list_ascii_of_string (shown p) ++ sep)) as (key & Hk & ->).
    destruct (Stats_constants D NDArray_Shape DataType_str (pre ++ c :: post) _)
      as [o|m|] eqn:Hs; cbn in Hk |- *; try discriminate.
    eexists. split; [exact Hk | reflexivity].
Qed.

End StatsFacts.

(** A pool with an integer, a shape, an empty shape, a data type, a tensor of
    one dimension and a scalar tensor; the shape of a tensor is taken from
    its bytes. *)
Definition stats_sample : VMExecutable (list ascii) := {|
  constants := [CInt 7; CShape [2; 3]; CShape []; CDataType 2 32 1;
                CNDArray ["t"%char]; CNDArray []];
  func_table := func_table sample;
  func_map := func_map sample;
  instr_offset := []; instr_data := []
|}.

Definition sample_shape (t : list ascii) : list Z := map Z_of_byte t.
Definition sample_dtype (code bits lanes : Z) : string := "float32".

Lemma Stats_format_witness :
  Stats tvm_decls sample_shape sample_dtype stats_sample
  = Ok ("Relax VM executable statistics:" +:+ newline
        +:+ "  Constant pool (# 6): [7, shapetuple[2, 3], shapetupl], float32, [116], scalar]"
        +:+ newline
        +:+ "  Globals (#1): [main]" +:+ newline)
  /\ Stats tvm_decls sample_shape sample_dtype
       {| constants := []; func_table := func_table sample; func_map := ∅;
          instr_offset := []; instr_data := [] |}
     = Ok ("Relax VM executable statistics:" +:+ newline
           +:+ "  Constant pool (# 0): []" +:+ newline
           +:+ "  Globals (#1): [main, ]" +:+ newline).
Proof.
  split.
  - refine (proj1 (Stats_format tvm_decls sample_shape sample_dtype
                     stats_sample _) _).
    + repeat constructor.
    + split; intros H; vm_compute in H; discriminate.
  - refine (proj2 (Stats_format tvm_decls sample_shape sample_dtype
                     {| constants := []; func_table := func_table sample;
                        func_map := ∅; instr_offset := []; instr_data := [] |}
                     _) _ _).
    + constructor.
    + reflexivity.
    + discriminate.
Defined.

Lemma Stats_unsupported_witness :
  exists key,
    Stats tvm_decls sample_shape sample_dtype sample
    = Fatal ("Unsupported constant pool type " +:+ key)
    /\ key = "type_index(3)"%string.
Proof.
  refine (Stats_unsupported tvm_decls sample_shape sample_dtype sample
            [CInt 7; CString "abc"; CShape [2; 3]; CDataType 2 32 1;
             CNDArray ["t"%char]] [] (CFloat 4607182418800017408) _ _ _).
  - reflexivity.
  - repeat constructor.
  - intros H. exact H.
Defined.

End VMFacts.

(** ** Facts about the structural-equality engine *)
Module SEqualFacts.
Import SEqual.

Ltac mismatch_iff :=
  split; split; (let E := fresh in
                 intros E; try reflexivity; try discriminate;
                 try (destruct E; discriminate); try (eexists; reflexivity)).

Ltac exists_equal_state :=
  eexists; eexists; split; [reflexivity|]; mismatch_iff.

Section Facts.
Context (type_index : positive -> Z).
Context (kTVMFFIStaticObjectBegin : Z).
Context (fsequal_reduce_ :
           Z -> option (positive -> positive -> SEqualReducer -> Prog bool)).
Context (GetAttrKeyByAddress : ObjectRef -> Z -> option string).

Lemma run_bind {A B} (p : Prog A) (k : A -> Prog B) (st : Impl) :
  run type_index (p ≫= k) st
  = match run type_index p st with
    | Ok (a, st') => run type_index (k a) st'
    | Fatal m => Fatal m
    | Unspecified => Unspecified
    end.
Proof.
  unfold mbind, Prog_mbind. revert st.
  induction p as [a|m|l r mf c k' IH|c k' IH|k' IH|k' IH|l k' IH|k' IH|c k' IH];
    intros st; cbn [Prog_bind run]; try reflexivity.
  - unfold mbind, Result_bind.
    destruct (SEqualReduce type_index l r mf c st) as [[b st']| |]; auto.
  - apply IH.
  - apply IH.
  - unfold mbind, Result_bind. destruct (MarkGraphNode st); auto.
  - apply IH.
  - destruct (first_mismatch_ st); auto.
  - destruct (first_mismatch_ st); auto.
Qed.

Lemma CheckResult_true (paths : option ObjectPathPair) (st : Impl) :
  CheckResult true paths st = Ok (true, st).
Proof.
  unfold CheckResult. simpl negb.
  now rewrite !andb_false_r.
Qed.

(** *** What a callback can change *)

(** Everything but the two task lists and the content of the first-mismatch
    slot. *)
Record same_config (st st' : Impl) : Prop := {
  same_allow : allow_push_to_stack_ st' = allow_push_to_stack_ st;
  same_assert : assert_mode_ st' = assert_mode_ st;
  same_tracing : IsPathTracingEnabled st' = IsPathTracingEnabled st;
  same_lhs_map : equal_map_lhs_ st' = equal_map_lhs_ st;
  same_rhs_map : equal_map_rhs_ st' = equal_map_rhs_ st;
  same_defer : defer_fails_ st' = defer_fails_ st
}.

Lemma same_config_refl (st : Impl) : same_config st st.
Proof. now constructor. Qed.

Lemma same_config_trans (st1 st2 st3 : Impl) :
  same_config st1 st2 -> same_config st2 st3 -> same_config st1 st3.
Proof. intros [] []. constructor; congruence. Qed.

(** The stack is as it was, up to the mark on its top. *)
Definition top_marked (s s' : list Task) : Prop :=
  s' = s \/ exists top tail, s = top :: tail /\ s' = mark_graph_equal top :: tail.

Lemma top_marked_trans (s1 s2 s3 : list Task) :
  top_marked s1 s2 -> top_marked s2 s3 -> top_marked s1 s3.
Proof.
  intros [->|(t & tl & -> & ->)] [->|(t' & tl' & E & ->)].
  - now left.
  - right. eauto.
  - right. eauto.
  - injection E as <- <-. right. exists t, tl. split; [reflexivity|].
    reflexivity.
Qed.

(** Every call of [SEqualReduce] in a callback satisfies [P]. *)
Inductive calls {A} (P : ObjectRef -> ObjectRef -> bool -> option ObjectPathPair -> Prop)
    : Prog A -> Prop :=
| calls_Return a : calls P (Return a)
| calls_Abort m : calls P (Abort m)
| calls_SEqualReduce l r m c k :
    P l r m c -> (forall b, calls P (k b)) -> calls P (SEqualReduceOp l r m c k)
| calls_DeferFail c k : calls P k -> calls P (DeferFailOp c k)
| calls_IsFailDeferralEnabled k :
    (forall b, calls P (k b)) -> calls P (IsFailDeferralEnabledOp k)
| calls_MarkGraphNode k : calls P k -> calls P (MarkGraphNodeOp k)
| calls_MapLhsToRhs l k :
    (forall o, calls P (k o)) -> calls P (MapLhsToRhsOp l k)
| calls_FirstMismatchDefined k :
    (forall b, calls P (k b)) -> calls P (FirstMismatchDefinedOp k)
| calls_FirstMismatchStore c k : calls P k -> calls P (FirstMismatchStoreOp c k).

Lemma calls_any {A} (p : Prog A) : calls (fun _ _ _ _ => True) p.
Proof. induction p; constructor; auto. Qed.

(** A task that a callback has enqueued: a force-fail task, or a task for a
    call that satisfies [P], on two defined references. *)
Definition enqueued (P : ObjectRef -> ObjectRef -> bool -> option ObjectPathPair -> Prop)
    (t : Task) : Prop :=
  (exists paths, t = ForceFail_Task paths)
  \/ (exists l r m c, t = new_Task (Some l) (Some r) m c
                      /\ P (Some l) (Some r) m c).

Lemma early_result_None (l r : ObjectRef) (st : Impl) :
  early_result type_index l r st = None ->
  defined l = true /\ defined r = true
  /\ equal_map_lhs_ st !! l = None /\ equal_map_rhs_ st !! r = None.
Proof.
  unfold early_result. destruct l, r; simpl; try discriminate.
  destruct (_ =? _); simpl; try discriminate.
  destruct (equal_map_lhs_ st !! _); try discriminate.
  destruct (equal_map_rhs_ st !! _); try discriminate.
  auto.
Qed.

Lemma CheckResult_effects (b : bool) (c : option ObjectPathPair) (st : Impl)
    (b' : bool) (st' : Impl) :
  CheckResult b c st = Ok (b', st') ->
  b' = b /\ same_config st st'
  /\ task_stack_ st' = task_stack_ st /\ pending_tasks_ st' = pending_tasks_ st.
Proof.
  unfold CheckResult. intros H.
  destruct (assert_mode_ st && negb b); [discriminate|].
  injection H as <- <-. split; [reflexivity|].
  destruct (IsPathTracingEnabled st && negb b && negb (first_mismatch_defined st)) eqn:E.
  - repeat split. apply andb_true_iff in E as [E _]. apply andb_true_iff in E as [E _].
    exact (eq_trans (y := true) eq_refl (eq_sym E)).
  - repeat split.
Qed.

Lemma SEqualReduce_effects P (l r : ObjectRef) (m : bool)
    (c : option ObjectPathPair) (st : Impl) (b : bool) (st' : Impl) :
  P l r m c ->
  SEqualReduce type_index l r m c st = Ok (b, st') ->
  same_config st st' /\ task_stack_ st' = task_stack_ st
  /\ exists added, pending_tasks_ st' = pending_tasks_ st ++ added
                   /\ Forall (enqueued P) added.
Proof.
  intros HP. unfold SEqualReduce.
  destruct (early_result type_index l r st) as [[|]|] eqn:He.
  - intros H. apply CheckResult_effects in H as (_ & Hc & Hs & Hp).
    split; [exact Hc|]. split; [exact Hs|]. exists []. rewrite app_nil_r. auto.
  - destruct c as [paths|].
    + destruct (IsPathTracingEnabled st && IsFailDeferralEnabled st).
      * intros H. apply CheckResult_effects in H as (_ & Hc & Hs & Hp).
        split; [|split].
        -- destruct Hc. constructor; assumption.
        -- exact Hs.
        -- exists [ForceFail_Task paths]. split; [exact Hp|].
           constructor; [|constructor]. left. eauto.
      * intros H. apply CheckResult_effects in H as (_ & Hc & Hs & Hp).
        split; [exact Hc|]. split; [exact Hs|]. exists []. rewrite app_nil_r. auto.
    + intros H. apply CheckResult_effects in H as (_ & Hc & Hs & Hp).
      split; [exact Hc|]. split; [exact Hs|]. exists []. rewrite app_nil_r. auto.
  - intros H. apply CheckResult_effects in H as (_ & Hc & Hs & Hp).
    apply early_result_None in He as (Hl & Hr & _).
    split; [|split].
    + destruct Hc. constructor; assumption.
    + exact Hs.
    + exists [new_Task l r m c]. split; [exact Hp|].
      constructor; [|constructor]. right.
      destruct l as [l|], r as [r|]; try discriminate. eauto 6.
Qed.

Lemma run_effects {A} P (p : Prog A) :
  calls P p ->
  forall (st : Impl) (a : A) (st' : Impl),
    run type_index p st = Ok (a, st') ->
    same_config st st' /\ top_marked (task_stack_ st) (task_stack_ st')
    /\ exists added, pending_tasks_ st' = pending_tasks_ st ++ added
                     /\ Forall (enqueued P) added.
Proof.
  induction 1 as [a0|m|l r m c k HP _ IH|c k _ IH|k _ IH|k _ IH|l k _ IH|k _ IH|c k _ IH];
    intros st a st' Hrun; cbn [run] in Hrun.
  - injection Hrun as <- <-. split; [apply same_config_refl|].
    split; [now left|]. exists []. rewrite app_nil_r. auto.
  - discriminate.
  - destruct (SEqualReduce type_index l r m c st) as [[b st1]| |] eqn:Hs;
      try discriminate.
    apply (SEqualReduce_effects P) in Hs as (Hc & Hst & add1 & Hp1 & Ha1); [|exact HP].
    apply IH in Hrun as (Hc' & Hst' & add2 & Hp2 & Ha2).
    split; [eapply same_config_trans; eassumption|].
    split; [now rewrite <- Hst|].
    exists (add1 ++ add2). rewrite Hp2, Hp1, app_assoc. split; [reflexivity|].
    apply Forall_app. auto.
  - apply IH in Hrun as (Hc' & Hst' & add2 & Hp2 & Ha2).
    split; [destruct Hc'; constructor; assumption|].
    split; [exact Hst'|].
    exists (ForceFail_Task c :: add2). split.
    + rewrite Hp2. unfold DeferFail. cbn. now rewrite <- app_assoc.
    + constructor; [left; eauto | exact Ha2].
  - now apply IH in Hrun.
  - unfold MarkGraphNode in Hrun.
    destruct (task_stack_ st) as [|back rest] eqn:Hstack; [discriminate|].
    destruct (allow_push_to_stack_ st) eqn:Hallow; [discriminate|].
    cbn in Hrun.
    apply IH in Hrun as (Hc' & Hst' & add2 & Hp2 & Ha2).
    split; [destruct Hc'; constructor; assumption|].
    split.
    + eapply top_marked_trans; [|exact Hst'].
      right. exists back, rest. split; reflexivity.
    + exists add2. auto.
  - now apply IH in Hrun.
  - destruct (first_mismatch_ st); [|discriminate]. now apply IH in Hrun.
  - destruct (first_mismatch_ st) eqn:Hfm; [|discriminate].
    apply IH in Hrun as (Hc' & Hst' & add2 & Hp2 & Ha2).
    split; [|split; [exact Hst' | eauto]].
    destruct Hc'. constructor; try assumption.
    rewrite same_tracing0. unfold IsPathTracingEnabled. cbn. now rewrite Hfm.
Qed.

(** The calls of every registered callback satisfy [Q], which may depend on
    the two objects the callback is applied to. *)
Definition registry_calls
    (Q : positive -> positive ->
         ObjectRef -> ObjectRef -> bool -> option ObjectPathPair -> Prop) : Prop :=
  forall t f self other equal,
    fsequal_reduce_ t = Some f -> calls (Q self other) (f self other equal).

Lemma registry_calls_any : registry_calls (fun _ _ _ _ _ _ => True).
Proof. intros t f self other equal _. apply calls_any. Qed.

Lemma Dispatch_effects Q (lhs rhs : ObjectRef) (m : bool)
    (c : option ObjectPathPair) (st : Impl) (b : bool) (st' : Impl) :
  registry_calls Q ->
  DispatchSEqualReduce type_index fsequal_reduce_ lhs rhs m c st = Ok (b, st') ->
  exists l r,
    lhs = Some l /\ rhs = Some r
    /\ same_config st st' /\ top_marked (task_stack_ st) (task_stack_ st')
    /\ exists added, pending_tasks_ st' = pending_tasks_ st ++ added
                     /\ Forall (enqueued (Q l r)) added.
Proof.
  intros HQ. unfold DispatchSEqualReduce.
  destruct lhs as [l|], rhs as [r|]; try discriminate.
  destruct (negb (type_index l =? type_index r)); [discriminate|].
  intros H. exists l, r. split; [reflexivity|]. split; [reflexivity|].
  assert (Hnone : forall st1,
             Ok (b, st') = Ok (b, st1) -> same_config st st1 ->
             top_marked (task_stack_ st) (task_stack_ st1) ->
             pending_tasks_ st1 = pending_tasks_ st ->
             same_config st st' /\ top_marked (task_stack_ st) (task_stack_ st')
             /\ exists added, pending_tasks_ st' = pending_tasks_ st ++ added
                              /\ Forall (enqueued (Q l r)) added).
  { intros st1 E Hc Ht Hp. injection E as <-. split; [exact Hc|].
    split; [exact Ht|]. exists []. rewrite app_nil_r. auto. }
  assert (Hrun : forall equal b1 st1,
             run type_index
                 (ReflectionVTable_SEqualReduce type_index fsequal_reduce_ l r equal) st
             = Ok (b1, st1) ->
             CheckResult b1 c st1 = Ok (b, st') ->
             same_config st st' /\ top_marked (task_stack_ st) (task_stack_ st')
             /\ exists added, pending_tasks_ st' = pending_tasks_ st ++ added
                              /\ Forall (enqueued (Q l r)) added).
  { intros equal b1 st1 Hr Hck.
    assert (Hcalls : calls (Q l r)
                       (ReflectionVTable_SEqualReduce type_index fsequal_reduce_ l r equal)).
    { unfold ReflectionVTable_SEqualReduce.
      destruct (fsequal_reduce_ (type_index l)) as [f|] eqn:Hf;
        [eapply HQ; exact Hf | constructor]. }
    apply (run_effects _ _ Hcalls) in Hr as (Hc1 & Ht1 & added & Hp1 & Ha1).
    apply CheckResult_effects in Hck as (_ & Hc2 & Ht2 & Hp2).
    split; [eapply same_config_trans; eassumption|].
    split; [now rewrite Ht2|].
    exists added. rewrite Hp2. auto. }
  unfold mbind, Result_bind in H.
  match type of H with
  | context [@lookup ?K ?V ?M ?i (Some l) (equal_map_lhs_ st)] =>
      destruct (@lookup K V M i (Some l) (equal_map_lhs_ st)) as [it|]
  end.
  { apply CheckResult_effects in H as (_ & Hc & Hs & Hp).
    split; [exact Hc|]. split; [left; exact Hs|].
    exists []. rewrite app_nil_r. auto. }
  match type of H with
  | context [@lookup ?K ?V ?M ?i (Some r) (equal_map_rhs_ st)] =>
      destruct (@lookup K V M i (Some r) (equal_map_rhs_ st)) as [it|]
  end.
  { apply CheckResult_effects in H as (_ & Hc & Hs & Hp).
    split; [exact Hc|]. split; [left; exact Hs|].
    exists []. rewrite app_nil_r. auto. }
  destruct (negb (IsPathTracingEnabled st)).
  - match type of H with
    | match run _ ?p _ with _ => _ end = _ =>
        destruct (run type_index p st) as [[b1 st1]| |] eqn:Hr; try discriminate
    end.
    eapply Hrun; eassumption.
  - destruct c as [paths|]; [|discriminate].
    match type of H with
    | match run _ ?p _ with _ => _ end = _ =>
        destruct (run type_index p st) as [[b1 st1]| |] eqn:Hr; try discriminate
    end.
    eapply Hrun; eassumption.
Qed.

(** A dispatch leaves the stack alone unless it runs the callback, which it
    does only when neither object has an entry in the maps. *)
Lemma Dispatch_marks (lhs rhs : ObjectRef) (m : bool)
    (c : option ObjectPathPair) (st : Impl) (b : bool) (st' : Impl) :
  DispatchSEqualReduce type_index fsequal_reduce_ lhs rhs m c st = Ok (b, st') ->
  task_stack_ st' = task_stack_ st
  \/ (equal_map_lhs_ st !! lhs = None /\ equal_map_rhs_ st !! rhs = None).
Proof.
  unfold DispatchSEqualReduce.
  destruct lhs as [l|], rhs as [r|]; try discriminate.
  destruct (negb (type_index l =? type_index r)); [discriminate|].
  unfold mbind, Result_bind. intros H.
  match type of H with
  | context [@lookup ?K ?V ?M ?i (Some l) (equal_map_lhs_ st)] =>
      destruct (@lookup K V M i (Some l) (equal_map_lhs_ st)) as [it|] eqn:El
  end.
  { apply CheckResult_effects in H as (_ & _ & Hs & _). now left. }
  match type of H with
  | context [@lookup ?K ?V ?M ?i (Some r) (equal_map_rhs_ st)] =>
      destruct (@lookup K V M i (Some r) (equal_map_rhs_ st)) as [it|] eqn:Er
  end.
  { apply CheckResult_effects in H as (_ & _ & Hs & _). now left. }
  right. split; reflexivity.
Qed.

Lemma push_pending_rev (p s : list Task) : push_pending (rev p) s = p ++ s.
Proof.
  revert s. induction p as [|t p IH] using rev_ind; intros s; [reflexivity|].
  rewrite rev_unit. cbn [push_pending]. rewrite IH, <- app_assoc. reflexivity.
Qed.

(** The possible iterations of the loop of [RunTasks] that go on. *)
Inductive step_kind (Q : positive -> positive ->
                         ObjectRef -> ObjectRef -> bool -> option ObjectPathPair -> Prop)
    (st st' : Impl) : Prop :=
| step_complete entry rest :
    task_stack_ st = entry :: rest ->
    force_fail entry = false -> children_expanded entry = true ->
    (equal_map_lhs_ st !! lhs entry = None
     \/ equal_map_lhs_ st !! lhs entry = Some (rhs entry)) ->
    st' = complete_entry entry rest st ->
    step_kind Q st st'
| step_expand entry rest l r top added :
    task_stack_ st = entry :: rest ->
    force_fail entry = false -> children_expanded entry = false ->
    lhs entry = Some l -> rhs entry = Some r ->
    pending_tasks_ st = [] ->
    (top = mark_children_expanded entry
     \/ (top = mark_graph_equal (mark_children_expanded entry)
         /\ equal_map_lhs_ st !! lhs entry = None
         /\ equal_map_rhs_ st !! rhs entry = None)) ->
    Forall (enqueued (Q l r)) added ->
    task_stack_ st' = added ++ top :: rest ->
    pending_tasks_ st' = [] ->
    allow_push_to_stack_ st' = true ->
    assert_mode_ st' = assert_mode_ st ->
    IsPathTracingEnabled st' = IsPathTracingEnabled st ->
    equal_map_lhs_ st' = equal_map_lhs_ st ->
    equal_map_rhs_ st' = equal_map_rhs_ st ->
    defer_fails_ st' = defer_fails_ st ->
    step_kind Q st st'.

Lemma RunTasks_step_Continue Q (st st' : Impl) :
  registry_calls Q ->
  RunTasks_step type_index fsequal_reduce_ st = Continue st' ->
  step_kind Q st st'.
Proof.
  intros HQ. unfold RunTasks_step.
  destruct (task_stack_ st) as [|entry rest] eqn:Hstack; [discriminate|].
  destruct (force_fail entry) eqn:Hff; [discriminate|].
  destruct (children_expanded entry) eqn:Hexp.
  - destruct (equal_map_lhs_ st !! lhs entry) as [it|] eqn:Hit.
    + unfold same_as. destruct (bool_decide_reflect (it = rhs entry)) as [->|];
        [|discriminate].
      intros H. injection H as <-.
      eapply step_complete; eauto.
    + intros H. injection H as <-. eapply step_complete; eauto.
  - cbn [set_stack pending_tasks_].
    destruct (pending_tasks_ st) as [|? ?] eqn:Hpend; [|discriminate].
    destruct (DispatchSEqualReduce _ _ _ _ _ _ _) as [[[|] st3]| |] eqn:Hd;
      try discriminate.
    intros H. injection H as <-.
    pose proof (Dispatch_marks _ _ _ _ _ _ _ Hd) as Hm.
    apply (Dispatch_effects Q) in Hd
      as (l & r & Hl & Hr & Hc & Ht & added & Hp & Ha); [|exact HQ].
    cbn in Hp. rewrite Hpend in Hp. cbn in Hp.
    cbn in Ht. destruct Hc. cbn in *.
    assert (Htop : exists top,
               task_stack_ st3 = top :: rest
               /\ (top = mark_children_expanded entry
                   \/ (top = mark_graph_equal (mark_children_expanded entry)
                       /\ equal_map_lhs_ st !! lhs entry = None
                       /\ equal_map_rhs_ st !! rhs entry = None))).
    { destruct Hm as [Hm|Hm].
      - rewrite Hm. eauto.
      - destruct Ht as [->|(t & tl & E & ->)]; [eauto|].
        injection E as <- <-. eauto. }
    destruct Htop as (top & Hst3 & Htop).
    eapply step_expand with (added := added) (top := top); eauto; cbn.
    + now rewrite push_pending_rev, Hp, Hst3.
Qed.

(** *** The two maps *)

(** The states that the loop of [RunTasks] goes through from [st0]. *)
Inductive reachable (st0 : Impl) : Impl -> Prop :=
| reachable_start : reachable st0 st0
| reachable_step st st' :
    reachable st0 st ->
    RunTasks_step type_index fsequal_reduce_ st = Continue st' ->
    reachable st0 st'.

(** Every entry of [equal_map_rhs_] has its inverse in [equal_map_lhs_]. *)
Definition half_inverse (st : Impl) : Prop :=
  forall x y, equal_map_rhs_ st !! y = Some x -> equal_map_lhs_ st !! x = Some y.

(** The two maps are inverses of each other. *)
Definition inverse_maps (st : Impl) : Prop :=
  forall x y, equal_map_lhs_ st !! x = Some y <-> equal_map_rhs_ st !! y = Some x.

(** The step from [st] to [st'] left the maps alone, or was the completion
    of a task about graph equality, which put its two entries. *)
Definition maps_step (st st' : Impl) : Prop :=
  (equal_map_lhs_ st' = equal_map_lhs_ st
   /\ equal_map_rhs_ st' = equal_map_rhs_ st)
  \/ (exists entry rest,
        task_stack_ st = entry :: rest
        /\ children_expanded entry = true /\ graph_equal entry = true
        /\ equal_map_lhs_ st' = <[lhs entry := rhs entry]> (equal_map_lhs_ st)
        /\ equal_map_rhs_ st' = <[rhs entry := lhs entry]> (equal_map_rhs_ st)).

Lemma step_maps (st st' : Impl) :
  RunTasks_step type_index fsequal_reduce_ st = Continue st' -> maps_step st st'.
Proof.
  intros H. apply (RunTasks_step_Continue _ _ _ registry_calls_any) in H.
  destruct H as [entry rest Hs Hff Hexp Hl ->|].
  - unfold complete_entry. destruct (graph_equal entry) eqn:Hg.
    + right. exists entry, rest. cbn. auto.
    + left. cbn. auto.
  - left. auto.
Qed.

Lemma step_half_inverse (st st' : Impl) :
  half_inverse st ->
  RunTasks_step type_index fsequal_reduce_ st = Continue st' ->
  half_inverse st'.
Proof.
  intros Hinv H. apply (RunTasks_step_Continue _ _ _ registry_calls_any) in H.
  destruct H as [entry rest Hs Hff Hexp Hl ->|].
  - unfold complete_entry, half_inverse. destruct (graph_equal entry); cbn.
    2:{ exact Hinv. }
    intros x y Hy.
    destruct (decide (y = rhs entry)) as [->|Hne].
    + rewrite lookup_insert_eq in Hy. injection Hy as <-.
      apply lookup_insert_eq.
    + rewrite lookup_insert_ne in Hy by congruence.
      apply Hinv in Hy.
      destruct (decide (x = lhs entry)) as [->|Hx].
      * destruct Hl as [Hl|Hl]; congruence.
      * rewrite lookup_insert_ne by congruence. exact Hy.
  - unfold half_inverse in *.
    match goal with
    | Hl : equal_map_lhs_ st' = _, Hr : equal_map_rhs_ st' = _ |- _ =>
        rewrite Hl, Hr
    end.
    exact Hinv.
Qed.

Lemma Equal_enter_maps (lhs rhs : Any) (m : bool) (st0 st1 : Impl) :
  Equal_enter type_index kTVMFFIStaticObjectBegin lhs rhs m st0 = inr st1 ->
  equal_map_lhs_ st1 = ∅ /\ equal_map_rhs_ st1 = ∅.
Proof.
  unfold Equal_enter.
  destruct (negb (_ =? _)); [discriminate|].
  destruct lhs as [tl vl|l], rhs as [tr vr|r]; try discriminate.
  - destruct (tl <? _); [destruct (vl =? vr)|]; discriminate.
  - destruct (type_index l <? _); [discriminate|].
    destruct (SEqualReduce _ _ _ _ _ _) as [[[|] s1]| |] eqn:Hs; try discriminate.
    apply (SEqualReduce_effects (fun _ _ _ _ => True)) in Hs as (Hc & _); [|exact I].
    destruct (pending_tasks_ s1) as [|t [|]]; try discriminate.
    destruct (allow_push_to_stack_ s1); [|discriminate].
    intros H. injection H as <-. destruct Hc. cbn in *. auto.
Qed.

(** [n] iterations of the loop. *)
Fixpoint steps (n : nat) (st : Impl) : Step :=
  match n with
  | O => Continue st
  | S n' =>
      match RunTasks_step type_index fsequal_reduce_ st with
      | Done r => Done r
      | Continue st' => steps n' st'
      end
  end.

Lemma steps_reachable (n : nat) :
  forall st st', steps n st = Continue st' -> reachable st st'.
Proof.
  induction n as [|n IH]; intros st st' H; cbn [steps] in H.
  - injection H as <-. constructor.
  - destruct (RunTasks_step type_index fsequal_reduce_ st) as [r|st1] eqn:Hs;
      [discriminate|].
    apply IH in H. clear IH.
    induction H as [|s s' _ IH' Hstep].
    + eapply reachable_step; [constructor | exact Hs].
    + eapply reachable_step; [exact IH' | exact Hstep].
Qed.

(** *** Termination *)

(** The callbacks of an acyclic graph: measured by [rank], every object a
    callback passes to the reducer is strictly below the object the callback
    was applied to, on either side. *)
Definition descends (rank : positive -> nat)
    : positive -> positive ->
      ObjectRef -> ObjectRef -> bool -> option ObjectPathPair -> Prop :=
  fun self other l r _ _ =>
    (forall a, l = Some a -> (rank a < rank self)%nat)
    /\ (forall b, r = Some b -> (rank b < rank other)%nat).

Definition task_below (rank : positive -> nat) (n : nat) (t : Task) : Prop :=
  force_fail t = true \/ exists a, lhs t = Some a /\ (rank a < n)%nat.

Lemma enqueued_below (rank : positive -> nat) (self other : positive) (t : Task) :
  enqueued (descends rank self other) t -> task_below rank (rank self) t.
Proof.
  intros [(paths & ->)|(l & r & m & c & -> & Hl & _)].
  - now left.
  - right. exists l. split; [reflexivity|]. now apply Hl.
Qed.

Lemma RunTasks_S (k : nat) (st : Impl) :
  RunTasks type_index fsequal_reduce_ (S k) st
  = match RunTasks_step type_index fsequal_reduce_ st with
    | Done r => Some r
    | Continue st' => RunTasks type_index fsequal_reduce_ k st'
    end.
Proof. reflexivity. Qed.

(** The loop is over, or has got rid of the tasks [ts] on top of the stack,
    after [k] iterations. *)
Definition pops (k : nat) (st : Impl) (rest : list Task) : Prop :=
  (exists r, RunTasks type_index fsequal_reduce_ k st = Some r)
  \/ (exists st',
        (forall fuel, RunTasks type_index fsequal_reduce_ (k + fuel) st
                      = RunTasks type_index fsequal_reduce_ fuel st')
        /\ task_stack_ st' = rest /\ pending_tasks_ st' = []).

Lemma pops_step (k : nat) (st st1 : Impl) (rest : list Task) :
  RunTasks_step type_index fsequal_reduce_ st = Continue st1 ->
  pops k st1 rest -> pops (S k) st rest.
Proof.
  intros Hstep [[r Hr]|(st' & Hrun & Hs & Hp)].
  - left. exists r. now rewrite RunTasks_S, Hstep.
  - right. exists st'. split; [|auto].
    intros fuel. cbn [Nat.add]. now rewrite RunTasks_S, Hstep.
Qed.

Lemma pops_after (k1 k2 : nat) (st st2 : Impl) (rest : list Task) :
  (forall fuel, RunTasks type_index fsequal_reduce_ (k1 + fuel) st
                = RunTasks type_index fsequal_reduce_ fuel st2) ->
  pops k2 st2 rest -> pops (k1 + k2) st rest.
Proof.
  intros Hrun [[r Hr]|(st' & Hrun' & Hs & Hp)].
  - left. exists r. now rewrite Hrun.
  - right. exists st'. split; [|auto].
    intros fuel. now rewrite <- Nat.add_assoc, Hrun, Hrun'.
Qed.

Lemma run_pops (rank : positive -> nat) :
  registry_calls (descends rank) ->
  forall n ts rest st,
    Forall (task_below rank n) ts ->
    task_stack_ st = ts ++ rest -> pending_tasks_ st = [] ->
    exists k, pops k st rest.
Proof.
  intros HQ n. induction n as [n IHn] using lt_wf_ind.
  induction ts as [|t ts IHts]; intros rest st Hall Hs Hp.
  - exists 0%nat. right. exists st. auto.
  - apply Forall_cons in Hall as [Ht Hall].
    destruct (RunTasks_step type_index fsequal_reduce_ st) as [r|st1] eqn:Hstep.
    { exists 1%nat. left. exists r. now rewrite RunTasks_S, Hstep. }
    pose proof (RunTasks_step_Continue _ _ _ HQ Hstep) as Hk.
    destruct Hk as [entry rest0 Hs0 Hff Hexp Hl ->
                   |entry rest0 l r top added Hs0 Hff Hexp Hlhs Hrhs Hp0 Htop
                      Hadd Hs1 Hp1].
    + rewrite Hs in Hs0. injection Hs0 as <- <-.
      destruct (IHts rest (complete_entry t (ts ++ rest) st) Hall) as [k Hk].
      * unfold complete_entry. now destruct (graph_equal t).
      * unfold complete_entry. now destruct (graph_equal t).
      * exists (S k). eapply pops_step; eassumption.
    + rewrite Hs in Hs0. injection Hs0 as <- <-.
      destruct Ht as [Ht|(a & Ha & Hlt)]; [congruence|].
      assert (a = l) as -> by congruence.
      destruct (IHn (rank l) Hlt added (top :: ts ++ rest) st1) as [k1 Hk1];
        [|exact Hs1|exact Hp1|].
      { eapply Forall_impl; [exact Hadd|]. intros t'. apply enqueued_below. }
      assert (Htopk : forall st2, task_stack_ st2 = top :: ts ++ rest ->
                                  pending_tasks_ st2 = [] ->
                                  exists k2, pops k2 st2 rest).
      { intros st2 Hs2 Hp2.
        destruct (RunTasks_step type_index fsequal_reduce_ st2) as [r2|st3] eqn:Hstep2.
        { exists 1%nat. left. exists r2. now rewrite RunTasks_S, Hstep2. }
        pose proof (RunTasks_step_Continue _ _ _ HQ Hstep2) as Hk2.
        destruct Hk2 as [e2 r2 Hs20 _ _ _ ->|e2 r2 ? ? ? ? Hs20 _ Hexp2].
        - rewrite Hs2 in Hs20. injection Hs20 as <- <-.
          destruct (IHts rest (complete_entry top (ts ++ rest) st2) Hall) as [k Hk].
          + unfold complete_entry. now destruct (graph_equal top).
          + unfold complete_entry. now destruct (graph_equal top).
          + exists (S k). eapply pops_step; eassumption.
        - rewrite Hs2 in Hs20. injection Hs20 as <- <-.
          destruct Htop as [->|[-> _]]; discriminate. }
      destruct Hk1 as [[r1 Hr1]|(st2 & Hrun2 & Hs2 & Hp2)].
      * exists (S k1). eapply pops_step; [exact Hstep|]. left. eauto.
      * destruct (Htopk st2 Hs2 Hp2) as [k2 Hk2].
        exists (S (k1 + k2)). eapply pops_step; [exact Hstep|].
        eapply pops_after; eassumption.
Qed.

Lemma Equal_enter_stack (lhs rhs : Any) (m : bool) (st0 st1 : Impl) :
  Equal_enter type_index kTVMFFIStaticObjectBegin lhs rhs m st0 = inr st1 ->
  exists l r t,
    lhs = AnyObject l /\ rhs = AnyObject r
    /\ task_stack_ st1 = [t] /\ pending_tasks_ st1 = []
    /\ enqueued (fun l' r' _ _ => l' = Some l /\ r' = Some r) t.
Proof.
  unfold Equal_enter.
  destruct (negb (_ =? _)); [discriminate|].
  destruct lhs as [tl vl|l], rhs as [tr vr|r]; try discriminate.
  - destruct (tl <? _); [destruct (vl =? vr)|]; discriminate.
  - destruct (type_index l <? _); [discriminate|].
    destruct (SEqualReduce _ _ _ _ _ _) as [[[|] s1]| |] eqn:Hs; try discriminate.
    apply (SEqualReduce_effects (fun l' r' _ _ => l' = Some l /\ r' = Some r))
      in Hs as (Hc & Hst & added & Hp & Ha); [|auto].
    cbn in Hp, Hst.
    destruct (pending_tasks_ s1) as [|t [|]] eqn:Hpend; try discriminate.
    destruct (allow_push_to_stack_ s1); [|discriminate].
    intros H. injection H as <-. exists l, r, t. cbn.
    rewrite Hst. repeat split.
    subst added. now apply Forall_cons in Ha as [Ha _].
Qed.

(** With callbacks that descend, [Equal] returns. *)
Lemma Equal_returns (rank : positive -> nat) (lhs rhs : Any) (m : bool)
    (st0 : Impl) :
  registry_calls (descends rank) ->
  exists fuel r,
    Equal type_index kTVMFFIStaticObjectBegin fsequal_reduce_ fuel lhs rhs m st0
    = Some r.
Proof.
  intros HQ. unfold Equal.
  destruct (Equal_enter _ _ lhs rhs m st0) as [r|st1] eqn:Henter.
  { exists 0%nat, r. reflexivity. }
  apply Equal_enter_stack in Henter as (l & r & t & _ & _ & Hs & Hp & Ht).
  destruct (run_pops rank HQ (S (rank l)) [t] [] st1) as [k Hk]; auto.
  { constructor; [|constructor].
    destruct Ht as [(paths & ->)|(l' & r' & m' & c' & -> & Hl & _)].
    - now left.
    - right. exists l'. split; [reflexivity|].
      injection Hl as ->. lia. }
  destruct Hk as [[res Hres]|(st' & Hrun & Hs' & Hp')].
  - eauto.
  - exists (k + 1)%nat, (Ok (true, st')). rewrite Hrun.
    cbn. unfold RunTasks_step. now rewrite Hs'.
Qed.

(** *** The cost of a comparison *)
























(** *** The calls of the reflection table *)












(** *** The two maps on acyclic graphs *)

(** The rhs of the expanded task [e] is above [r]. *)
Definition under (rank : positive -> nat) (r : positive) (e : Task) : Prop :=
  children_expanded e = true ->
  forall b, rhs e = Some b -> (rank r < rank b)%nat.

(** What the stack keeps while the callbacks descend: a task is marked as
    about graph equality only once it is expanded, and then its rhs has no
    entry in [equal_map_rhs_]; and the rhs of a task is strictly below the
    rhs of every expanded task under it in the stack. *)
Definition task_ok (rank : positive -> nat) (mr : gmap ObjectRef ObjectRef)
    (t : Task) (below : list Task) : Prop :=
  force_fail t = true
  \/ exists r,
       rhs t = Some r
       /\ (graph_equal t = true ->
           children_expanded t = true /\ mr !! Some r = None)
       /\ Forall (under rank r) below.

Fixpoint stack_ok (rank : positive -> nat) (mr : gmap ObjectRef ObjectRef)
    (s : list Task) : Prop :=
  match s with
  | [] => True
  | t :: below => task_ok rank mr t below /\ stack_ok rank mr below
  end.

Lemma stack_ok_insert (rank : positive -> nat) (mr : gmap ObjectRef ObjectRef)
    (r : positive) (x : ObjectRef) (s : list Task) :
  Forall (under rank r) s -> stack_ok rank mr s ->
  stack_ok rank (<[Some r := x]> mr) s.
Proof.
  induction s as [|t s IH]; cbn [stack_ok]; [auto|].
  intros HF [Ht Hs]. apply List.Forall_cons_iff in HF as [Hu HF].
  split; [|auto].
  destruct Ht as [Ht|(r' & Hr' & Hg & Hb)]; [now left|].
  right. exists r'. split; [exact Hr'|]. split; [|exact Hb].
  intros Hge. destruct (Hg Hge) as [Hexp Hnone]. split; [exact Hexp|].
  rewrite lookup_insert_ne; [exact Hnone|].
  intros E. injection E as ->. specialize (Hu Hexp r' Hr'). lia.
Qed.

Lemma enqueued_unexpanded P (t : Task) :
  enqueued P t -> children_expanded t = false /\ graph_equal t = false.
Proof.
  intros [(paths & ->)|(l & r & m & c & -> & _)]; split; reflexivity.
Qed.

Lemma stack_ok_added (rank : positive -> nat) (mr : gmap ObjectRef ObjectRef)
    (l r : positive) (top : Task) (rest added : list Task) :
  Forall (enqueued (descends rank l r)) added ->
  rhs top = Some r -> Forall (under rank r) rest ->
  stack_ok rank mr (top :: rest) ->
  stack_ok rank mr (added ++ top :: rest).
Proof.
  intros Hadd Htop Hrest Hok.
  induction added as [|a added IH]; [exact Hok|].
  apply List.Forall_cons_iff in Hadd as [Ha Hadd].
  cbn [app stack_ok]. split; [|auto].
  destruct Ha as [(paths & ->)|(l' & r' & m & c & -> & _ & Hr')]; [now left|].
  right. exists r'. split; [reflexivity|]. split; [discriminate|].
  specialize (Hr' r' eq_refl).
  apply Forall_app. split; [|constructor].
  - eapply Forall_impl; [exact Hadd|].
    intros t Ht Hexp. apply enqueued_unexpanded in Ht as [Ht _]. congruence.
  - intros _ b Hb. rewrite Htop in Hb. injection Hb as <-. exact Hr'.
  - eapply Forall_impl; [exact Hrest|].
    intros t Ht Hexp b Hb. specialize (Ht Hexp b Hb). lia.
Qed.

Lemma insert_inverse_maps (ml mr : gmap ObjectRef ObjectRef) (x y : ObjectRef) :
  (forall a b, ml !! a = Some b <-> mr !! b = Some a) ->
  ml !! x = None \/ ml !! x = Some y -> mr !! y = None ->
  forall a b, <[x := y]> ml !! a = Some b <-> <[y := x]> mr !! b = Some a.
Proof.
  intros Hinv Hx Hy a b.
  destruct (decide (a = x)) as [->|Ha], (decide (b = y)) as [->|Hb].
  - rewrite !lookup_insert_eq. split; reflexivity.
  - rewrite lookup_insert_eq, lookup_insert_ne by congruence. split.
    + intros E. congruence.
    + intros E. apply Hinv in E. destruct Hx; congruence.
  - rewrite lookup_insert_eq, lookup_insert_ne by congruence. split.
    + intros E. apply Hinv in E. congruence.
    + intros E. congruence.
  - rewrite !lookup_insert_ne by congruence. apply Hinv.
Qed.

Lemma step_inverse_maps (rank : positive -> nat) (st st' : Impl) :
  registry_calls (descends rank) ->
  inverse_maps st -> stack_ok rank (equal_map_rhs_ st) (task_stack_ st) ->
  RunTasks_step type_index fsequal_reduce_ st = Continue st' ->
  inverse_maps st' /\ stack_ok rank (equal_map_rhs_ st') (task_stack_ st').
Proof.
  intros HQ Hinv Hok H.
  apply (RunTasks_step_Continue _ _ _ HQ) in H.
  destruct H as [entry rest Hs Hff Hexp Hl ->
                |entry rest l r top added Hs Hff Hexp Hlhs Hrhs Hp Htop Hadd
                   Hs1 Hp1 Hallow Hassert Htr Hml Hmr Hd];
    rewrite Hs in Hok; destruct Hok as [Ht Hrest];
    destruct Ht as [Ht|(r0 & Hr0 & Hg & Hb)]; try congruence.
  - unfold complete_entry. destruct (graph_equal entry) eqn:Hge; cbn.
    2:{ split; assumption. }
    destruct (Hg eq_refl) as [_ Hnone]. rewrite Hr0 in *. split.
    + intros a b. apply insert_inverse_maps; assumption.
    + apply stack_ok_insert; assumption.
  - assert (r0 = r) as -> by congruence.
    split.
    + intros a b. rewrite Hml, Hmr. apply Hinv.
    + rewrite Hmr, Hs1.
      assert (Hrt : rhs top = Some r).
      { destruct Htop as [->|[-> _]]; exact Hrhs. }
      apply (stack_ok_added rank _ l r); try assumption.
      split; [|exact Hrest].
      right. exists r. split; [exact Hrt|]. split; [|exact Hb].
      intros Hge. destruct Htop as [->|(-> & _ & Hnone)].
      * cbn in Hge. destruct (Hg Hge) as [E _]. congruence.
      * split; [reflexivity|]. rewrite Hrhs in Hnone. exact Hnone.
Qed.

Lemma reachable_inverse_maps (rank : positive -> nat) (lhs rhs : Any) (m : bool)
    (st0 st1 st : Impl) :
  registry_calls (descends rank) ->
  Equal_enter type_index kTVMFFIStaticObjectBegin lhs rhs m st0 = inr st1 ->
  reachable st1 st ->
  inverse_maps st /\ stack_ok rank (equal_map_rhs_ st) (task_stack_ st).
Proof.
  intros HQ Henter Hreach.
  induction Hreach as [|s s' _ IH Hstep].
  - pose proof (Equal_enter_maps _ _ _ _ _ Henter) as [Hl Hr].
    apply Equal_enter_stack in Henter as (l & r & t & _ & _ & Hs & _ & Ht).
    split.
    + intros a b. rewrite Hl, Hr, !lookup_empty. split; discriminate.
    + rewrite Hs. cbn [stack_ok]. split; [|exact I].
      destruct Ht as [(paths & ->)|(l' & r' & m' & c' & -> & _)]; [now left|].
      right. exists r'. split; [reflexivity|]. split; [discriminate|constructor].
  - destruct IH as [Hinv Hok]. eapply step_inverse_maps; eassumption.
Qed.

(** C9, amended. Throughout every top-level [Equal] call [equal_map_rhs_]
    is the inverse of a part of [equal_map_lhs_]: [equal_map_rhs_[y] = x]
    implies [equal_map_lhs_[x] = y].  An iteration of the loop changes the
    maps only by completing a task about graph equality, which puts both
    entries together, and [SEqualReduce] refuses to pair an [lhs] that has
    no entry with an [rhs] that already has one.  On an acyclic graph, that
    is when every callback hands to the reducer only objects strictly below
    its own, the two maps are exact inverses of each other throughout. *)
Theorem maps_half_inverse (lhs rhs : Any) (m : bool) (st0 st1 st : Impl) :
  Equal_enter type_index kTVMFFIStaticObjectBegin lhs rhs m st0 = inr st1 ->
  reachable st1 st ->
  half_inverse st
  /\ (forall st', RunTasks_step type_index fsequal_reduce_ st = Continue st' ->
                  maps_step st st')
  /\ (forall l r x,
         defined l = true -> defined r = true ->
         ref_type_index type_index l = ref_type_index type_index r ->
         equal_map_lhs_ st !! l = None -> equal_map_rhs_ st !! r = Some x ->
         early_result type_index l r st = Some false)
  /\ (forall rank, registry_calls (descends rank) -> inverse_maps st).
Proof.
  intros Henter Hreach. split; [|split; [|split]].
  - induction Hreach as [|s s' _ IH Hstep].
    + apply Equal_enter_maps in Henter as [Hl Hr].
      intros x y. rewrite Hr, lookup_empty. discriminate.
    + eapply step_half_inverse; eassumption.
  - intros st'. apply step_maps.
  - intros l r x Hl Hr Hty Hnone Hsome. unfold early_result.
    rewrite Hl, Hr, Hty, Z.eqb_refl, Hnone, Hsome. reflexivity.
  - intros rank HQ.
    now destruct (reachable_inverse_maps rank _ _ _ _ _ _ HQ Henter Hreach).
Qed.

(** *** Fail deferral *)

(** The same engine state with the other setting of [defer_fails_]. *)
Definition with_defer (st : Impl) (d : bool) : Impl :=
  {| pending_tasks_ := pending_tasks_ st; task_stack_ := task_stack_ st;
     allow_push_to_stack_ := allow_push_to_stack_ st;
     assert_mode_ := assert_mode_ st; first_mismatch_ := first_mismatch_ st;
     equal_map_lhs_ := equal_map_lhs_ st; equal_map_rhs_ := equal_map_rhs_ st;
     root_lhs_ := root_lhs_ st; root_rhs_ := root_rhs_ st;
     defer_fails_ := d |}.

Lemma with_defer_id (st : Impl) (d : bool) :
  defer_fails_ st = d -> with_defer st d = st.
Proof. intros <-. now destruct st. Qed.

Definition has_ff (l : list Task) : Prop :=
  Exists (fun t => force_fail t = true) l.

(** A callback that, from here on, records at most a mismatch and returns
    false (or aborts). *)
Inductive fails_false : Prog bool -> Prop :=
| fails_Return : fails_false (Return false)
| fails_Abort m : fails_false (Abort m)
| fails_Defined k :
    (forall b, fails_false (k b)) -> fails_false (FirstMismatchDefinedOp k)
| fails_Store c k : fails_false k -> fails_false (FirstMismatchStoreOp c k).

(** A callback that gives up with false as soon as a comparison of two
    objects has returned false, and that looks at the deferral setting only
    to defer a failure of its own instead of returning false. *)
Inductive disciplined : Prog bool -> Prop :=
| disc_Return b : disciplined (Return b)
| disc_Abort m : disciplined (Abort m)
| disc_SEqualReduce l r m c k :
    fails_false (k false) -> disciplined (k true) ->
    disciplined (SEqualReduceOp l r m c k)
| disc_DeferFail c k : disciplined k -> disciplined (DeferFailOp c k)
| disc_IsFailDeferralEnabled k c k' :
    fails_false (k false) -> k true = DeferFailOp c k' ->
    disciplined (IsFailDeferralEnabledOp k)
| disc_MarkGraphNode k : disciplined k -> disciplined (MarkGraphNodeOp k)
| disc_MapLhsToRhs l k :
    (forall o, disciplined (k o)) -> disciplined (MapLhsToRhsOp l k)
| disc_Defined k :
    (forall b, disciplined (k b)) -> disciplined (FirstMismatchDefinedOp k)
| disc_Store c k : disciplined k -> disciplined (FirstMismatchStoreOp c k).

Definition registry_disciplined : Prop :=
  forall t f self other equal,
    fsequal_reduce_ t = Some f -> disciplined (f self other equal).

Lemma fails_false_run (p : Prog bool) :
  fails_false p ->
  forall st b st', run type_index p st = Ok (b, st') -> b = false.
Proof.
  induction 1 as [|m|k _ IH|c k _ IH]; intros st b st' Hrun; cbn [run] in Hrun.
  - congruence.
  - discriminate.
  - destruct (first_mismatch_ st); [eapply IH; eassumption | discriminate].
  - destruct (first_mismatch_ st); [eapply IH; eassumption | discriminate].
Qed.

Lemma run_keeps_ff {A} (p : Prog A) (st : Impl) (a : A) (st' : Impl) :
  run type_index p st = Ok (a, st') ->
  has_ff (pending_tasks_ st) -> has_ff (pending_tasks_ st').
Proof.
  intros Hrun Hff.
  apply (run_effects _ _ (calls_any p)) in Hrun as (_ & _ & added & -> & _).
  unfold has_ff. apply Exists_app. now left.
Qed.

Lemma CheckResult_with_defer (b : bool) (c : option ObjectPathPair)
    (st : Impl) (d : bool) :
  CheckResult b c (with_defer st d)
  = match CheckResult b c st with
    | Ok (b', st') => Ok (b', with_defer st' d)
    | Fatal m => Fatal m
    | Unspecified => Unspecified
    end.
Proof.
  unfold CheckResult. cbn.
  destruct (assert_mode_ st && negb b); [reflexivity|].
  unfold IsPathTracingEnabled, first_mismatch_defined. cbn.
  now destruct (_ && _ && _).
Qed.

Lemma SEqualReduce_sim (l r : ObjectRef) (m : bool) (c : option ObjectPathPair)
    (stN : Impl) (bN : bool) (stN' : Impl) :
  defer_fails_ stN = false ->
  SEqualReduce type_index l r m c stN = Ok (bN, stN') ->
  SEqualReduce type_index l r m c (with_defer stN true)
  = Ok (bN, with_defer stN' true)
  \/ (bN = false
      /\ exists stD', SEqualReduce type_index l r m c (with_defer stN true)
                      = Ok (true, stD')
                      /\ has_ff (pending_tasks_ stD')).
Proof.
  intros Hd. unfold SEqualReduce.
  change (early_result type_index l r (with_defer stN true))
    with (early_result type_index l r stN).
  destruct (early_result type_index l r stN) as [[|]|].
  - intros H. left. rewrite CheckResult_with_defer, H. reflexivity.
  - unfold IsFailDeferralEnabled. rewrite Hd. cbn [defer_fails_ with_defer].
    change (IsPathTracingEnabled (with_defer stN true))
      with (IsPathTracingEnabled stN).
    rewrite andb_false_r, andb_true_r.
    destruct c as [paths|].
    + destruct (IsPathTracingEnabled stN) eqn:Ht.
      * intros H. right.
        apply CheckResult_effects in H as [-> _]. split; [reflexivity|].
        rewrite CheckResult_true. eexists. split; [reflexivity|].
        cbn. apply Exists_app. right. now constructor.
      * intros H. left.
        change (with_defer stN true) with (with_defer stN true).
        rewrite CheckResult_with_defer, H. reflexivity.
    + intros H. left. rewrite CheckResult_with_defer, H. reflexivity.
  - intros H. left.
    change (set_pending (with_defer stN true)
              (pending_tasks_ (with_defer stN true) ++ [new_Task l r m c]))
      with (with_defer (set_pending stN (pending_tasks_ stN ++ [new_Task l r m c])) true).
    rewrite CheckResult_with_defer, H. reflexivity.
Qed.

Lemma fails_false_sim (p : Prog bool) :
  fails_false p ->
  forall st b st',
    run type_index p st = Ok (b, st') ->
    run type_index p (with_defer st true) = Ok (b, with_defer st' true).
Proof.
  induction 1 as [|m|k _ IH|c k _ IH]; intros st b st' Hrun; cbn [run] in *.
  - now injection Hrun as <- <-.
  - discriminate.
  - change (first_mismatch_ (with_defer st true)) with (first_mismatch_ st).
    destruct (first_mismatch_ st); [now apply IH | discriminate].
  - change (first_mismatch_ (with_defer st true)) with (first_mismatch_ st).
    destruct (first_mismatch_ st); [|discriminate].
    change (set_first_mismatch (with_defer st true) (Some (Some c)))
      with (with_defer (set_first_mismatch st (Some (Some c))) true).
    now apply IH.
Qed.

Lemma run_sim (p : Prog bool) :
  disciplined p ->
  forall stN bN stN',
    defer_fails_ stN = false ->
    run type_index p stN = Ok (bN, stN') ->
    run type_index p (with_defer stN true) = Ok (bN, with_defer stN' true)
    \/ (bN = false
        /\ forall bD stD', run type_index p (with_defer stN true) = Ok (bD, stD') ->
                           has_ff (pending_tasks_ stD')).
Proof.
  induction 1 as [b|msg|l r m c k Hf _ IH|c k _ IH|k c k' Hf Hk
                 |k _ IH|l k _ IH|k _ IH|c k _ IH];
    intros stN bN stN' Hd Hrun; cbn [run] in *.
  - injection Hrun as <- <-. now left.
  - discriminate.
  - destruct (SEqualReduce type_index l r m c stN) as [[b st1]| |] eqn:Hs;
      try discriminate.
    cbn in Hrun.
    pose proof (SEqualReduce_effects (fun _ _ _ _ => True) _ _ _ _ _ _ _ I Hs)
      as (Hc1 & _).
    destruct (SEqualReduce_sim _ _ _ _ _ _ _ Hd Hs) as [HsD|(-> & stD1 & HsD & Hff)].
    + rewrite HsD. cbn.
      destruct b.
      * apply IH; [|exact Hrun]. destruct Hc1. congruence.
      * left. eapply fails_false_sim; eassumption.
    + rewrite HsD. cbn. right. split.
      * eapply fails_false_run; eassumption.
      * intros bD stD' HrunD. eapply run_keeps_ff; eassumption.
  - change (DeferFail c (with_defer stN true)) with (with_defer (DeferFail c stN) true).
    apply IH; [exact Hd | exact Hrun].
  - unfold IsFailDeferralEnabled in *. cbn [defer_fails_ with_defer].
    rewrite Hd in Hrun. right. split.
    + eapply fails_false_run; eassumption.
    + intros bD stD' HrunD. rewrite Hk in HrunD. cbn [run] in HrunD.
      eapply run_keeps_ff; [exact HrunD|].
      cbn. apply Exists_app. right. now constructor.
  - unfold MarkGraphNode in *.
    change (task_stack_ (with_defer stN true)) with (task_stack_ stN).
    change (allow_push_to_stack_ (with_defer stN true)) with (allow_push_to_stack_ stN).
    destruct (task_stack_ stN) as [|back rest]; [discriminate|].
    destruct (negb (allow_push_to_stack_ stN)); [|discriminate].
    cbn in Hrun |- *.
    change (set_stack (with_defer stN true) (mark_graph_equal back :: rest))
      with (with_defer (set_stack stN (mark_graph_equal back :: rest)) true).
    apply IH; [exact Hd | exact Hrun].
  - change (MapLhsToRhs l (with_defer stN true)) with (MapLhsToRhs l stN).
    apply IH; [exact Hd | exact Hrun].
  - change (first_mismatch_ (with_defer stN true)) with (first_mismatch_ stN).
    destruct (first_mismatch_ stN); [|discriminate].
    apply IH; [exact Hd | exact Hrun].
  - change (first_mismatch_ (with_defer stN true)) with (first_mismatch_ stN).
    destruct (first_mismatch_ stN); [|discriminate].
    change (set_first_mismatch (with_defer stN true) (Some (Some c)))
      with (with_defer (set_first_mismatch stN (Some (Some c))) true).
    apply IH; [exact Hd | exact Hrun].
Qed.

Lemma vtable_disciplined (l r : positive) (equal : SEqualReducer) :
  registry_disciplined ->
  disciplined (ReflectionVTable_SEqualReduce type_index fsequal_reduce_ l r equal).
Proof.
  intros HR. unfold ReflectionVTable_SEqualReduce.
  destruct (fsequal_reduce_ (type_index l)) as [f|] eqn:Hf;
    [eapply HR; exact Hf | constructor].
Qed.

Lemma Dispatch_sim (lhs rhs : ObjectRef) (m : bool) (c : option ObjectPathPair)
    (stN : Impl) (bN : bool) (stN' : Impl) :
  registry_disciplined -> defer_fails_ stN = false ->
  DispatchSEqualReduce type_index fsequal_reduce_ lhs rhs m c stN = Ok (bN, stN') ->
  DispatchSEqualReduce type_index fsequal_reduce_ lhs rhs m c (with_defer stN true)
  = Ok (bN, with_defer stN' true)
  \/ (bN = false
      /\ forall bD stD',
          DispatchSEqualReduce type_index fsequal_reduce_ lhs rhs m c
                               (with_defer stN true) = Ok (bD, stD') ->
          has_ff (pending_tasks_ stD')).
Proof.
  intros HR Hd. unfold DispatchSEqualReduce.
  destruct lhs as [l|], rhs as [r|]; try discriminate.
  destruct (negb (type_index l =? type_index r)); [discriminate|].
  change (equal_map_lhs_ (with_defer stN true)) with (equal_map_lhs_ stN).
  change (equal_map_rhs_ (with_defer stN true)) with (equal_map_rhs_ stN).
  change (IsPathTracingEnabled (with_defer stN true)) with (IsPathTracingEnabled stN).
  unfold mbind, Result_bind.
  assert (Hrun : forall equal,
    match run type_index
            (ReflectionVTable_SEqualReduce type_index fsequal_reduce_ l r equal) stN with
    | Ok (compute, st1) => CheckResult compute c st1
    | Fatal m0 => Fatal m0
    | Unspecified => Unspecified
    end = Ok (bN, stN') ->
    match run type_index
            (ReflectionVTable_SEqualReduce type_index fsequal_reduce_ l r equal)
            (with_defer stN true) with
    | Ok (compute, st1) => CheckResult compute c st1
    | Fatal m0 => Fatal m0
    | Unspecified => Unspecified
    end = Ok (bN, with_defer stN' true)
    \/ (bN = false
        /\ forall bD stD',
            match run type_index
                    (ReflectionVTable_SEqualReduce type_index fsequal_reduce_ l r equal)
                    (with_defer stN true) with
            | Ok (compute, st1) => CheckResult compute c st1
            | Fatal m0 => Fatal m0
            | Unspecified => Unspecified
            end = Ok (bD, stD') -> has_ff (pending_tasks_ stD'))).
  { intros equal H.
    destruct (run type_index _ stN) as [[b1 st1]| |] eqn:Hr; try discriminate.
    destruct (run_sim _ (vtable_disciplined l r equal HR) _ _ _ Hd Hr)
      as [HrD|[-> HrD]].
    - left. rewrite HrD, CheckResult_with_defer, H. reflexivity.
    - right. apply CheckResult_effects in H as (-> & _). split; [reflexivity|].
      intros bD stD' HD.
      destruct (run type_index _ (with_defer stN true)) as [[b2 st2]| |] eqn:Hr2;
        try discriminate.
      apply CheckResult_effects in HD as (_ & _ & _ & ->).
      eapply HrD. reflexivity. }
  match goal with
  | |- context [@lookup ?K ?V ?M ?i (Some l) (equal_map_lhs_ stN)] =>
      destruct (@lookup K V M i (Some l) (equal_map_lhs_ stN)) as [it|]
  end.
  { intros H. left. rewrite CheckResult_with_defer, H. reflexivity. }
  match goal with
  | |- context [@lookup ?K ?V ?M ?i (Some r) (equal_map_rhs_ stN)] =>
      destruct (@lookup K V M i (Some r) (equal_map_rhs_ stN)) as [it|]
  end.
  { intros H. left. rewrite CheckResult_with_defer, H. reflexivity. }
  destruct (negb (IsPathTracingEnabled stN)).
  - apply Hrun.
  - destruct c as [paths|]; [apply Hrun | discriminate].
Qed.

(** A result of true comes from an empty task stack only. *)
Lemma step_Done_true (st st' : Impl) :
  RunTasks_step type_index fsequal_reduce_ st = Done (Ok (true, st')) ->
  task_stack_ st = [].
Proof.
  unfold RunTasks_step.
  destruct (task_stack_ st) as [|entry rest]; [reflexivity|].
  destruct (force_fail entry).
  { intros H. injection H as H. apply CheckResult_effects in H as [? _].
    discriminate. }
  destruct (children_expanded entry).
  - destruct (equal_map_lhs_ st !! lhs entry); [destruct (same_as _ _)|];
      discriminate.
  - cbn [set_stack pending_tasks_].
    destruct (pending_tasks_ st); [|discriminate].
    destruct (DispatchSEqualReduce _ _ _ _ _ _ _) as [[[|] ?]| |]; discriminate.
Qed.

(** Once a force-fail task is on the stack, the result is not true. *)
Lemma force_fail_not_true (fuel : nat) :
  forall st b st',
    has_ff (task_stack_ st) ->
    RunTasks type_index fsequal_reduce_ fuel st = Some (Ok (b, st')) ->
    b = false.
Proof.
  induction fuel as [|fuel IH]; intros st b st' Hff Hrun; [discriminate|].
  rewrite RunTasks_S in Hrun.
  destruct (RunTasks_step type_index fsequal_reduce_ st) as [r|st1] eqn:Hstep.
  - injection Hrun as ->. destruct b; [|reflexivity].
    apply step_Done_true in Hstep. rewrite Hstep in Hff. inversion Hff.
  - apply (IH st1 b st'); [|exact Hrun].
    apply (RunTasks_step_Continue _ _ _ registry_calls_any) in Hstep.
    destruct Hstep as [entry rest Hs Hf _ _ ->
                      |entry rest l r top added Hs Hf _ _ _ _ _ _ Hs1].
    + rewrite Hs in Hff. apply Exists_cons in Hff as [Hff|Hff]; [congruence|].
      unfold complete_entry. now destruct (graph_equal entry).
    + rewrite Hs in Hff. apply Exists_cons in Hff as [Hff|Hff]; [congruence|].
      rewrite Hs1. unfold has_ff. apply Exists_app. right.
      now apply Exists_cons_tl.
Qed.

Lemma step_sim (stN : Impl) :
  registry_disciplined -> defer_fails_ stN = false ->
  match RunTasks_step type_index fsequal_reduce_ stN with
  | Continue stN1 =>
      RunTasks_step type_index fsequal_reduce_ (with_defer stN true)
      = Continue (with_defer stN1 true)
      /\ defer_fails_ stN1 = false
  | Done (Ok (bN, stN')) =>
      RunTasks_step type_index fsequal_reduce_ (with_defer stN true)
      = Done (Ok (bN, with_defer stN' true))
      \/ (bN = false
          /\ match RunTasks_step type_index fsequal_reduce_ (with_defer stN true) with
             | Done (Ok (bD, _)) => bD = false
             | Done _ => True
             | Continue stD1 => has_ff (task_stack_ stD1)
             end)
  | Done _ => True
  end.
Proof.
  intros HR Hd. unfold RunTasks_step.
  change (task_stack_ (with_defer stN true)) with (task_stack_ stN).
  destruct (task_stack_ stN) as [|entry rest] eqn:Hstack.
  { left. reflexivity. }
  destruct (force_fail entry).
  { rewrite CheckResult_with_defer.
    destruct (CheckResult false (current_paths entry) stN) as [[b s1]| |]; auto. }
  destruct (children_expanded entry).
  - change (equal_map_lhs_ (with_defer stN true)) with (equal_map_lhs_ stN).
    assert (Hce : complete_entry entry rest (with_defer stN true)
                  = with_defer (complete_entry entry rest stN) true).
    { unfold complete_entry. now destruct (graph_equal entry). }
    assert (Hdc : defer_fails_ (complete_entry entry rest stN) = false).
    { unfold complete_entry. now destruct (graph_equal entry). }
    rewrite Hce.
    destruct (equal_map_lhs_ stN !! lhs entry); [destruct (same_as _ _)|]; auto.
  - cbn [set_stack pending_tasks_ with_defer].
    destruct (pending_tasks_ stN) eqn:Hpend; [|exact I].
    set (st2 := set_allow_push (set_stack stN (mark_children_expanded entry :: rest)) false).
    change (set_allow_push
              (set_stack (with_defer stN true) (mark_children_expanded entry :: rest))
              false)
      with (with_defer st2 true).
    destruct (DispatchSEqualReduce type_index fsequal_reduce_ (lhs entry) (rhs entry)
                (map_free_vars entry) (current_paths entry) st2)
      as [[bN st3]| |] eqn:HdN; try exact I.
    pose proof (Dispatch_effects _ _ _ _ _ _ _ _ registry_calls_any HdN)
      as (_ & _ & _ & _ & Hc3 & _).
    assert (Hd2 : defer_fails_ st2 = false) by exact Hd.
    destruct (Dispatch_sim _ _ _ _ _ _ _ HR Hd2 HdN) as [HdD|[-> HdD]].
    + rewrite HdD. destruct bN.
      * split; [reflexivity|]. cbn. destruct Hc3. cbn in *. congruence.
      * now left.
    + right. split; [reflexivity|].
      destruct (DispatchSEqualReduce type_index fsequal_reduce_ (lhs entry) (rhs entry)
                  (map_free_vars entry) (current_paths entry) (with_defer st2 true))
        as [[[|] stD3]| |] eqn:HdD'; auto.
      cbn. rewrite push_pending_rev. unfold has_ff. apply Exists_app. left.
      eapply HdD. reflexivity.
Qed.

Lemma RunTasks_sim (fuelN : nat) :
  registry_disciplined ->
  forall stN bN stN',
    defer_fails_ stN = false ->
    RunTasks type_index fsequal_reduce_ fuelN stN = Some (Ok (bN, stN')) ->
    forall fuelD bD stD',
      RunTasks type_index fsequal_reduce_ fuelD (with_defer stN true)
      = Some (Ok (bD, stD')) ->
      bN = bD.
Proof.
  intros HR. induction fuelN as [|fuelN IH]; intros stN bN stN' Hd HN;
    [discriminate|].
  intros [|fuelD] bD stD' HD; [discriminate|].
  rewrite RunTasks_S in HN, HD.
  pose proof (step_sim stN HR Hd) as Hsim.
  destruct (RunTasks_step type_index fsequal_reduce_ stN) as [rN|stN1].
  - injection HN as ->.
    destruct Hsim as [Hs|[-> Hs]].
    + rewrite Hs in HD. congruence.
    + destruct (RunTasks_step type_index fsequal_reduce_ (with_defer stN true))
        as [rD|stD1].
      * injection HD as ->. now subst.
      * symmetry. eapply force_fail_not_true; eassumption.
  - destruct Hsim as [Hs Hd1]. rewrite Hs in HD.
    eapply IH; eassumption.
Qed.

Lemma Equal_enter_sim (lhs rhs : Any) (m : bool) (st0 : Impl) :
  defer_fails_ st0 = false ->
  match Equal_enter type_index kTVMFFIStaticObjectBegin lhs rhs m st0 with
  | inr stN1 =>
      Equal_enter type_index kTVMFFIStaticObjectBegin lhs rhs m (with_defer st0 true)
      = inr (with_defer stN1 true)
      /\ defer_fails_ stN1 = false
  | inl (Ok (bN, stN')) =>
      Equal_enter type_index kTVMFFIStaticObjectBegin lhs rhs m (with_defer st0 true)
      = inl (Ok (bN, with_defer stN' true))
      \/ (bN = false
          /\ match Equal_enter type_index kTVMFFIStaticObjectBegin lhs rhs m
                               (with_defer st0 true) with
             | inl (Ok (bD, _)) => bD = false
             | inl _ => True
             | inr stD1 => has_ff (task_stack_ stD1)
             end)
  | inl _ => True
  end.
Proof.
  intros Hd. unfold Equal_enter. cbv zeta.
  set (stc := set_roots (set_maps (set_pending (set_stack st0 []) []) ∅ ∅)
                        (Some lhs) (Some rhs)).
  change (set_roots (set_maps (set_pending (set_stack (with_defer st0 true) []) []) ∅ ∅)
                    (Some lhs) (Some rhs))
    with (with_defer stc true).
  change (IsPathTracingEnabled (with_defer stc true)) with (IsPathTracingEnabled stc).
  assert (Hdc : defer_fails_ stc = false) by exact Hd.
  set (cp := if IsPathTracingEnabled stc
             then Some {| lhs_path := Root; rhs_path := Root |} else None).
  assert (Hck : match CheckResult false cp stc with
                | Ok (bN, stN') =>
                    CheckResult false cp (with_defer stc true)
                    = Ok (bN, with_defer stN' true)
                | _ => True
                end).
  { rewrite CheckResult_with_defer. now destruct (CheckResult false cp stc) as [[? ?]| |]. }
  destruct (negb (Any_type_index type_index lhs =? Any_type_index type_index rhs)).
  { destruct (CheckResult false cp stc) as [[bN stN']| |]; [|exact I..].
    left. now rewrite Hck. }
  destruct lhs as [tl vl|l], rhs as [tr vr|r]; try exact I.
  - destruct (tl <? kTVMFFIStaticObjectBegin); [|exact I].
    destruct (vl =? vr); [now left|].
    destruct (CheckResult false cp stc) as [[bN stN']| |]; [|exact I..].
    left. now rewrite Hck.
  - destruct (type_index l <? kTVMFFIStaticObjectBegin); [exact I|].
    destruct (SEqualReduce type_index (Some l) (Some r) m cp stc)
      as [[bN st1]| |] eqn:HsN; try exact I.
    pose proof (SEqualReduce_effects (fun _ _ _ _ => True) _ _ _ _ _ _ _ I HsN)
      as (Hc1 & _).
    destruct (SEqualReduce_sim _ _ _ _ _ _ _ Hdc HsN) as [HsD|(-> & stD' & HsD & Hff)].
    + rewrite HsD. destruct bN; [|now left].
      change (pending_tasks_ (with_defer st1 true)) with (pending_tasks_ st1).
      change (allow_push_to_stack_ (with_defer st1 true)) with (allow_push_to_stack_ st1).
      destruct (pending_tasks_ st1) as [|t [|]]; try exact I.
      destruct (allow_push_to_stack_ st1); [|exact I].
      split; [reflexivity|]. cbn. destruct Hc1. congruence.
    + right. split; [reflexivity|]. rewrite HsD.
      destruct (pending_tasks_ stD') as [|t [|]] eqn:Hp; try exact I.
      destruct (allow_push_to_stack_ stD'); [|exact I].
      cbn. apply Exists_cons in Hff as [Hff|Hff];
        [now constructor | inversion Hff].
Qed.

(** C7, amended. With callbacks that give up with false as soon as a
    comparison of two objects has returned false, and that consult the
    deferral setting only to defer a failure instead of returning false:
    whenever the engine built without fail deferral and the engine built
    with it both return a boolean for the same inputs, the two booleans are
    the same. *)
Theorem deferral_same_boolean (assert_mode : bool)
    (first_mismatch : option (option ObjectPathPair)) (lhs rhs : Any)
    (map_free_vars : bool) (fuelN fuelD : nat) (bN bD : bool) (stN stD : Impl) :
  registry_disciplined ->
  SEqualHandlerDefault_Equal type_index kTVMFFIStaticObjectBegin fsequal_reduce_
    fuelN assert_mode first_mismatch false lhs rhs map_free_vars
  = Some (Ok (bN, stN)) ->
  SEqualHandlerDefault_Equal type_index kTVMFFIStaticObjectBegin fsequal_reduce_
    fuelD assert_mode first_mismatch true lhs rhs map_free_vars
  = Some (Ok (bD, stD)) ->
  bN = bD.
Proof.
  intros HR. unfold SEqualHandlerDefault_Equal, Equal.
  set (st0 := new_Impl assert_mode first_mismatch false).
  change (new_Impl assert_mode first_mismatch true) with (with_defer st0 true).
  pose proof (Equal_enter_sim lhs rhs map_free_vars st0 eq_refl) as Hsim.
  destruct (Equal_enter type_index kTVMFFIStaticObjectBegin lhs rhs map_free_vars st0)
    as [rN|stN1].
  - intros HN. injection HN as ->.
    destruct Hsim as [Hs|[-> Hs]].
    + rewrite Hs. congruence.
    + destruct (Equal_enter type_index kTVMFFIStaticObjectBegin lhs rhs
                  map_free_vars (with_defer st0 true)) as [rD|stD1].
      * intros HD. injection HD as ->. now subst.
      * intros HD. symmetry. eapply force_fail_not_true; eassumption.
  - destruct Hsim as [-> Hd1]. intros HN HD.
    eapply RunTasks_sim; eassumption.
Qed.

(** *** The early-result rules of [SEqualReduce] *)








(** *** The first mismatch *)

(** A callback that passes paths with every comparison of two objects, gives
    up with false as soon as such a comparison has returned false, and is
    over with false once it has recorded a mismatch. *)
Inductive careful : Prog bool -> Prop :=
| careful_Return b : careful (Return b)
| careful_Abort m : careful (Abort m)
| careful_SEqualReduce l r m c k :
    fails_false (k false) -> careful (k true) ->
    careful (SEqualReduceOp l r m (Some c) k)
| careful_DeferFail c k : careful k -> careful (DeferFailOp c k)
| careful_IsFailDeferralEnabled k :
    (forall b, careful (k b)) -> careful (IsFailDeferralEnabledOp k)
| careful_MarkGraphNode k : careful k -> careful (MarkGraphNodeOp k)
| careful_MapLhsToRhs l k :
    (forall o, careful (k o)) -> careful (MapLhsToRhsOp l k)
| careful_Defined k :
    (forall b, careful (k b)) -> careful (FirstMismatchDefinedOp k)
| careful_Store c k : fails_false k -> careful (FirstMismatchStoreOp c k).

(** Every registered callback is careful when its reducer traces paths. *)
Definition registry_careful : Prop :=
  forall t f self other equal,
    fsequal_reduce_ t = Some f -> tracing_data_ equal <> None ->
    careful (f self other equal).

Definition with_paths
    : ObjectRef -> ObjectRef -> bool -> option ObjectPathPair -> Prop :=
  fun _ _ _ c => is_Some c.

Definition has_paths (t : Task) : Prop := is_Some (current_paths t).

Lemma fails_false_calls P (p : Prog bool) : fails_false p -> calls P p.
Proof. induction 1; constructor; auto. Qed.

Lemma careful_calls (p : Prog bool) : careful p -> calls with_paths p.
Proof.
  induction 1; constructor; auto using fails_false_calls.
  - unfold with_paths. eauto.
  - intros [|]; auto using fails_false_calls.
Qed.

Lemma enqueued_has_paths (t : Task) : enqueued with_paths t -> has_paths t.
Proof.
  intros [(paths & ->)|(l & r & m & c & -> & Hc)].
  - exists paths. reflexivity.
  - exact Hc.
Qed.

Lemma CheckResult_false_defined (paths : ObjectPathPair) (st : Impl) (b : bool)
    (st' : Impl) :
  IsPathTracingEnabled st = true ->
  CheckResult false (Some paths) st = Ok (b, st') ->
  b = false /\ first_mismatch_defined st' = true.
Proof.
  unfold CheckResult. intros Ht.
  destruct (assert_mode_ st); [discriminate|]. rewrite Ht. cbn.
  destruct (first_mismatch_defined st) eqn:Hd; cbn; intros H;
    injection H as <- <-; auto.
Qed.

Lemma SEqualReduce_true_keeps (l r : ObjectRef) (m : bool)
    (c : option ObjectPathPair) (st st' : Impl) :
  SEqualReduce type_index l r m c st = Ok (true, st') ->
  first_mismatch_ st' = first_mismatch_ st.
Proof.
  unfold SEqualReduce.
  destruct (early_result type_index l r st) as [[|]|].
  - rewrite CheckResult_true. intros H. now injection H as <-.
  - destruct c as [paths|].
    + destruct (IsPathTracingEnabled st && IsFailDeferralEnabled st).
      * rewrite CheckResult_true. intros H. now injection H as <-.
      * intros H. apply CheckResult_effects in H as (H & _). discriminate.
    + intros H. apply CheckResult_effects in H as (H & _). discriminate.
  - rewrite CheckResult_true. intros H. now injection H as <-.
Qed.

Lemma SEqualReduce_false_defined (l r : ObjectRef) (m : bool)
    (paths : ObjectPathPair) (st st' : Impl) :
  IsPathTracingEnabled st = true ->
  SEqualReduce type_index l r m (Some paths) st = Ok (false, st') ->
  first_mismatch_defined st' = true.
Proof.
  intros Ht. unfold SEqualReduce.
  destruct (early_result type_index l r st) as [[|]|].
  - rewrite CheckResult_true. discriminate.
  - destruct (IsPathTracingEnabled st && IsFailDeferralEnabled st).
    + rewrite CheckResult_true. discriminate.
    + intros H. now apply CheckResult_false_defined in H.
  - rewrite CheckResult_true. discriminate.
Qed.

(** A careful callback that returns true has recorded no mismatch. *)
Lemma careful_true (p : Prog bool) :
  careful p ->
  forall st st',
    first_mismatch_ st = Some None ->
    run type_index p st = Ok (true, st') ->
    first_mismatch_ st' = Some None.
Proof.
  induction 1 as [b|m|l r m c k Hf _ IH|c k _ IH|k _ IH|k _ IH|l k _ IH|k _ IH|c k Hf];
    intros st st' Hst Hrun; cbn [run] in Hrun.
  - now injection Hrun as _ <-.
  - discriminate.
  - destruct (SEqualReduce type_index l r m (Some c) st) as [[[|] st1]| |] eqn:Hs;
      try discriminate; cbn in Hrun.
    + apply (IH st1); [|exact Hrun].
      apply SEqualReduce_true_keeps in Hs. congruence.
    + apply (fails_false_run _ Hf) in Hrun. discriminate.
  - apply (IH (DeferFail c st)); [exact Hst | exact Hrun].
  - eapply IH; eassumption.
  - unfold MarkGraphNode in Hrun.
    destruct (task_stack_ st) as [|back rest]; [discriminate|].
    destruct (negb (allow_push_to_stack_ st)); [|discriminate].
    cbn in Hrun. eapply IH; [|exact Hrun]. exact Hst.
  - eapply IH; eassumption.
  - rewrite Hst in Hrun. eapply IH; eassumption.
  - rewrite Hst in Hrun. apply (fails_false_run _ Hf) in Hrun. discriminate.
Qed.

(** The tasks of the stack carry paths, and no mismatch is recorded. *)
Definition traced (st : Impl) : Prop :=
  first_mismatch_ st = Some None /\ Forall has_paths (task_stack_ st).

(** What a dispatch does to the first mismatch when paths are traced. *)
Definition dispatched (st : Impl) (b : bool) (st' : Impl) : Prop :=
  if b
  then first_mismatch_ st' = Some None
       /\ top_marked (task_stack_ st) (task_stack_ st')
       /\ exists added, pending_tasks_ st' = pending_tasks_ st ++ added
                        /\ Forall has_paths added
  else first_mismatch_defined st' = true.

Lemma CheckResult_dispatched (paths : ObjectPathPair) (st : Impl) (b0 : bool)
    (st0 : Impl) (b : bool) (st' : Impl) :
  IsPathTracingEnabled st0 = true ->
  (b0 = true -> dispatched st true st0) ->
  CheckResult b0 (Some paths) st0 = Ok (b, st') ->
  dispatched st b st'.
Proof.
  intros Ht Hb Hck. destruct b0.
  - rewrite CheckResult_true in Hck. injection Hck as <- <-. auto.
  - apply CheckResult_false_defined in Hck as [-> Hd]; assumption.
Qed.

Lemma Dispatch_traced (lhs rhs : ObjectRef) (m : bool) (paths : ObjectPathPair)
    (st : Impl) (b : bool) (st' : Impl) :
  registry_careful ->
  first_mismatch_ st = Some None ->
  DispatchSEqualReduce type_index fsequal_reduce_ lhs rhs m (Some paths) st
  = Ok (b, st') ->
  dispatched st b st'.
Proof.
  intros HR Hst.
  assert (Ht : IsPathTracingEnabled st = true).
  { unfold IsPathTracingEnabled. now rewrite Hst. }
  assert (Hsame : dispatched st true st).
  { split; [exact Hst|]. split; [now left|].
    exists []. rewrite app_nil_r. auto. }
  unfold DispatchSEqualReduce.
  destruct lhs as [l|], rhs as [r|]; try discriminate.
  destruct (negb (type_index l =? type_index r)); [discriminate|].
  unfold mbind, Result_bind. intros H.
  match type of H with
  | context [@lookup ?K ?V ?M ?i (Some l) (equal_map_lhs_ st)] =>
      destruct (@lookup K V M i (Some l) (equal_map_lhs_ st)) as [it|]
  end.
  { eapply CheckResult_dispatched; [exact Ht | | exact H]. auto. }
  match type of H with
  | context [@lookup ?K ?V ?M ?i (Some r) (equal_map_rhs_ st)] =>
      destruct (@lookup K V M i (Some r) (equal_map_rhs_ st)) as [it|]
  end.
  { eapply CheckResult_dispatched; [exact Ht | | exact H]. auto. }
  rewrite Ht in H. simpl negb in H. cbv iota in H.
  match type of H with
  | match run _ ?p _ with _ => _ end = _ =>
      assert (Hp : careful p);
      [|destruct (run type_index p st) as [[b1 st1]| |] eqn:Hr; try discriminate]
  end.
  { unfold ReflectionVTable_SEqualReduce.
    destruct (fsequal_reduce_ (type_index l)) as [f|] eqn:Hf; [|constructor].
    eapply HR; [exact Hf | discriminate]. }
  pose proof (run_effects _ _ (careful_calls _ Hp) _ _ _ Hr)
    as (Hc & Htop & added & Hadd & Hall).
  eapply CheckResult_dispatched; [| | exact H].
  - destruct Hc. congruence.
  - intros ->. split; [eapply careful_true; eassumption|].
    split; [exact Htop|]. exists added. split; [exact Hadd|].
    eapply Forall_impl; [exact Hall|]. exact enqueued_has_paths.
Qed.

Lemma top_marked_has_paths (s s' : list Task) :
  top_marked s s' -> Forall has_paths s -> Forall has_paths s'.
Proof.
  intros [->|(t & tl & -> & ->)] H; [exact H|].
  apply List.Forall_cons_iff in H as [Ht Htl]. constructor; assumption.
Qed.

(** One iteration of the loop when paths are traced. *)
Lemma step_traced (st : Impl) :
  registry_careful -> traced st ->
  match RunTasks_step type_index fsequal_reduce_ st with
  | Continue st' => traced st'
  | Done (Ok (b, st')) => first_mismatch_defined st' = negb b
  | Done _ => True
  end.
Proof.
  intros HR [Hst Hall].
  assert (Ht : IsPathTracingEnabled st = true).
  { unfold IsPathTracingEnabled. now rewrite Hst. }
  unfold RunTasks_step.
  destruct (task_stack_ st) as [|entry rest] eqn:Hstack.
  { unfold first_mismatch_defined. now rewrite Hst. }
  apply List.Forall_cons_iff in Hall as [[paths Hpaths] Hrest].
  destruct (force_fail entry).
  { rewrite Hpaths.
    destruct (CheckResult false (Some paths) st) as [[b st']| |] eqn:Hck; [|exact I..].
    now apply CheckResult_false_defined in Hck as [-> ->]. }
  destruct (children_expanded entry).
  { assert (Hdone : traced (complete_entry entry rest st)).
    { unfold complete_entry. split; destruct (graph_equal entry); cbn; assumption. }
    destruct (equal_map_lhs_ st !! lhs entry) as [it|]; [|exact Hdone].
    destruct (same_as it (rhs entry)); [exact Hdone | exact I]. }
  cbn [set_stack pending_tasks_].
  destruct (pending_tasks_ st) as [|? ?] eqn:Hpend; [|exact I].
  rewrite Hpaths.
  destruct (DispatchSEqualReduce _ _ _ _ _ _ _) as [[[|] st3]| |] eqn:Hd;
    try exact I.
  - apply Dispatch_traced in Hd as (Hm & Htop & added & Hadd & Hadded);
      [|exact HR|exact Hst].
    cbn in Htop, Hadd. rewrite Hpend in Hadd. cbn in Hadd.
    split; [exact Hm|]. cbn.
    rewrite push_pending_rev, Hadd. apply Forall_app. split; [exact Hadded|].
    eapply top_marked_has_paths; [exact Htop|].
    constructor; [|exact Hrest]. exists paths. exact Hpaths.
  - apply Dispatch_traced in Hd; [|exact HR|exact Hst]. exact Hd.
Qed.

Lemma RunTasks_traced (fuel : nat) :
  registry_careful ->
  forall st b st',
    traced st ->
    RunTasks type_index fsequal_reduce_ fuel st = Some (Ok (b, st')) ->
    first_mismatch_defined st' = negb b.
Proof.
  intros HR. induction fuel as [|fuel IH]; intros st b st' Hst Hrun;
    [discriminate|].
  rewrite RunTasks_S in Hrun. pose proof (step_traced st HR Hst) as Hstep.
  destruct (RunTasks_step type_index fsequal_reduce_ st) as [r|st1].
  - injection Hrun as ->. exact Hstep.
  - eapply IH; eassumption.
Qed.

(** With careful callbacks and an empty slot for the first mismatch, [Equal]
    returns false iff it has recorded a mismatch. *)
Lemma Equal_traced (fuel : nat) (assert_mode defer_fails : bool) (lhs rhs : Any)
    (map_free_vars : bool) (b : bool) (st : Impl) :
  registry_careful ->
  SEqualHandlerDefault_Equal type_index kTVMFFIStaticObjectBegin fsequal_reduce_
    fuel assert_mode (Some None) defer_fails lhs rhs map_free_vars
  = Some (Ok (b, st)) ->
  first_mismatch_defined st = negb b.
Proof.
  intros HR. unfold SEqualHandlerDefault_Equal, Equal.
  destruct (Equal_enter _ _ _ _ _ _) as [r|st1] eqn:Henter.
  - intros H. injection H as ->. revert Henter. unfold Equal_enter.
    cbn [IsPathTracingEnabled set_roots set_maps set_pending set_stack new_Impl
         first_mismatch_].
    set (st0 := set_roots _ _ _).
    assert (Ht0 : IsPathTracingEnabled st0 = true) by reflexivity.
    destruct (negb (_ =? _)).
    { intros H. injection H as H.
      now apply CheckResult_false_defined in H as [-> ->]. }
    destruct lhs as [tl vl|l], rhs as [tr vr|r]; try discriminate.
    + destruct (tl <? _); [|discriminate].
      destruct (vl =? vr).
      * intros H. injection H as <- <-. reflexivity.
      * intros H. injection H as H.
        now apply CheckResult_false_defined in H as [-> ->].
    + destruct (type_index l <? _); [discriminate|].
      destruct (SEqualReduce _ _ _ _ _ _) as [[[|] s1]| |] eqn:Hs.
      * destruct (pending_tasks_ s1) as [|t [|]]; try discriminate.
        destruct (allow_push_to_stack_ s1); discriminate.
      * intros H. injection H as <- <-.
        now apply SEqualReduce_false_defined in Hs.
      * discriminate.
      * discriminate.
  - intros Hrun. eapply RunTasks_traced; [exact HR| |exact Hrun].
    revert Henter. unfold Equal_enter.
    cbn [IsPathTracingEnabled set_roots set_maps set_pending set_stack new_Impl
         first_mismatch_].
    set (st0 := set_roots _ _ _).
    destruct (negb (_ =? _)); [discriminate|].
    destruct lhs as [tl vl|l], rhs as [tr vr|r]; try discriminate.
    + destruct (tl <? _); [destruct (vl =? vr)|]; discriminate.
    + destruct (type_index l <? _); [discriminate|].
      destruct (SEqualReduce _ _ _ _ _ _) as [[[|] s1]| |] eqn:Hs;
        try discriminate.
      pose proof (SEqualReduce_true_keeps _ _ _ _ _ _ Hs) as Hm.
      apply (SEqualReduce_effects with_paths) in Hs
        as (_ & Hstack & added & Hadd & Hall); [|unfold with_paths; eauto].
      cbn in Hadd, Hstack.
      destruct (pending_tasks_ s1) as [|t [|]]; try discriminate.
      destruct (allow_push_to_stack_ s1); [|discriminate].
      intros H. injection H as <-. split; [exact Hm|]. cbn.
      rewrite Hstack. subst added.
      apply List.Forall_cons_iff in Hall as [Ha _].
      constructor; [|constructor]. now apply enqueued_has_paths.
Qed.

(** *** The registered callables *)

(** C10, amended. With careful callbacks, for every pair of inputs and every
    value of [map_free_vars] on which the structural-equality check of the
    callable [node.GetFirstStructuralMismatch] returns a boolean, the
    callable returns, a defined path pair iff the check returned false and
    the undefined value iff it returned true.  When the check fails, or is
    still running, so is the callable. *)
Theorem GetFirstStructuralMismatch_defined_iff (fuel : nat) (lhs rhs : Any)
    (map_free_vars : bool) :
  registry_careful ->
  match SEqualHandlerDefault_Equal type_index kTVMFFIStaticObjectBegin
          fsequal_reduce_ fuel false (Some None) true lhs rhs map_free_vars with
  | Some (Ok (equal, st)) =>
      exists mismatch,
        node_GetFirstStructuralMismatch type_index kTVMFFIStaticObjectBegin
          fsequal_reduce_ fuel lhs rhs map_free_vars = Some (Ok mismatch)
        /\ (is_Some mismatch <-> equal = false)
        /\ (mismatch = None <-> equal = true)
  | Some (Fatal msg) =>
      node_GetFirstStructuralMismatch type_index kTVMFFIStaticObjectBegin
        fsequal_reduce_ fuel lhs rhs map_free_vars = Some (Fatal msg)
  | Some Unspecified =>
      node_GetFirstStructuralMismatch type_index kTVMFFIStaticObjectBegin
        fsequal_reduce_ fuel lhs rhs map_free_vars = Some Unspecified
  | None =>
      node_GetFirstStructuralMismatch type_index kTVMFFIStaticObjectBegin
        fsequal_reduce_ fuel lhs rhs map_free_vars = None
  end.
Proof.
  intros HR. unfold node_GetFirstStructuralMismatch.
  destruct (SEqualHandlerDefault_Equal _ _ _ _ _ _ _ _ _ _)
    as [[[equal st]| |]|] eqn:H; try reflexivity.
  pose proof (Equal_traced _ _ _ _ _ _ _ _ HR H) as Hd.
  cbn. rewrite Hd.
  unfold first_mismatch_defined in Hd.
  destruct (first_mismatch_ st) as [[p|]|], equal; cbn in Hd |- *;
    try discriminate;
    (eexists; split; [reflexivity|]; mismatch_iff).
Qed.

(** *** Assert mode *)

Lemma CheckResult_assert (b : bool) (c : option ObjectPathPair) (st : Impl)
    (b' : bool) (st' : Impl) :
  assert_mode_ st = true ->
  CheckResult b c st = Ok (b', st') -> b' = true /\ assert_mode_ st' = true.
Proof.
  intros Ha H. pose proof (CheckResult_effects _ _ _ _ _ H) as (-> & Hc & _).
  destruct Hc. split; [|congruence].
  unfold CheckResult in H. rewrite Ha in H. now destruct b.
Qed.

Lemma SEqualReduce_assert (l r : ObjectRef) (m : bool)
    (c : option ObjectPathPair) (st : Impl) (b : bool) (st' : Impl) :
  assert_mode_ st = true ->
  SEqualReduce type_index l r m c st = Ok (b, st') ->
  b = true /\ assert_mode_ st' = true.
Proof.
  intros Ha. unfold SEqualReduce.
  destruct (early_result type_index l r st) as [[|]|];
    [| destruct c as [paths|];
       [destruct (IsPathTracingEnabled st && IsFailDeferralEnabled st)|] |];
    apply CheckResult_assert; exact Ha.
Qed.

Lemma Dispatch_assert (lhs rhs : ObjectRef) (m : bool)
    (c : option ObjectPathPair) (st : Impl) (b : bool) (st' : Impl) :
  assert_mode_ st = true ->
  DispatchSEqualReduce type_index fsequal_reduce_ lhs rhs m c st = Ok (b, st') ->
  b = true /\ assert_mode_ st' = true.
Proof.
  intros Ha. unfold DispatchSEqualReduce.
  destruct lhs as [l|], rhs as [r|]; try discriminate.
  destruct (negb (type_index l =? type_index r)); [discriminate|].
  unfold mbind, Result_bind. intros H.
  assert (Hrun : forall (p : Prog bool) b1 st1,
             run type_index p st = Ok (b1, st1) ->
             CheckResult b1 c st1 = Ok (b, st') ->
             b = true /\ assert_mode_ st' = true).
  { intros p b1 st1 Hr Hck.
    apply (run_effects _ _ (calls_any p)) in Hr as (Hc & _).
    destruct Hc. eapply CheckResult_assert; [|exact Hck]. congruence. }
  match type of H with
  | context [@lookup ?K ?V ?M ?i (Some l) (equal_map_lhs_ st)] =>
      destruct (@lookup K V M i (Some l) (equal_map_lhs_ st)) as [it|]
  end.
  { eapply CheckResult_assert; eassumption. }
  match type of H with
  | context [@lookup ?K ?V ?M ?i (Some r) (equal_map_rhs_ st)] =>
      destruct (@lookup K V M i (Some r) (equal_map_rhs_ st)) as [it|]
  end.
  { eapply CheckResult_assert; eassumption. }
  destruct (negb (IsPathTracingEnabled st)).
  - match type of H with
    | match run _ ?p _ with _ => _ end = _ =>
        destruct (run type_index p st) as [[b1 st1]| |] eqn:Hr; try discriminate
    end.
    eapply Hrun; eassumption.
  - destruct c as [paths|]; [|discriminate].
    match type of H with
    | match run _ ?p _ with _ => _ end = _ =>
        destruct (run type_index p st) as [[b1 st1]| |] eqn:Hr; try discriminate
    end.
    eapply Hrun; eassumption.
Qed.

Lemma step_assert (st : Impl) :
  assert_mode_ st = true ->
  match RunTasks_step type_index fsequal_reduce_ st with
  | Continue st' => assert_mode_ st' = true
  | Done (Ok (b, _)) => b = true
  | Done _ => True
  end.
Proof.
  intros Ha. unfold RunTasks_step.
  destruct (task_stack_ st) as [|entry rest]; [reflexivity|].
  destruct (force_fail entry).
  { destruct (CheckResult false (current_paths entry) st) as [[b st']| |] eqn:H;
      [|exact I..].
    now apply CheckResult_assert in H. }
  destruct (children_expanded entry).
  { assert (Hdone : assert_mode_ (complete_entry entry rest st) = true).
    { unfold complete_entry. now destruct (graph_equal entry). }
    destruct (equal_map_lhs_ st !! lhs entry) as [it|]; [|exact Hdone].
    destruct (same_as it (rhs entry)); [exact Hdone | exact I]. }
  cbn [set_stack pending_tasks_].
  destruct (pending_tasks_ st) as [|? ?]; [|exact I].
  destruct (DispatchSEqualReduce _ _ _ _ _ _ _) as [[[|] st3]| |] eqn:Hd;
    try exact I.
  - apply Dispatch_assert in Hd as [_ Hd]; [exact Hd | exact Ha].
  - apply Dispatch_assert in Hd as [Hd _]; [exact Hd | exact Ha].
Qed.

Lemma RunTasks_assert (fuel : nat) :
  forall st b st',
    assert_mode_ st = true ->
    RunTasks type_index fsequal_reduce_ fuel st = Some (Ok (b, st')) -> b = true.
Proof.
  induction fuel as [|fuel IH]; intros st b st' Ha Hrun; [discriminate|].
  rewrite RunTasks_S in Hrun. pose proof (step_assert st Ha) as Hstep.
  destruct (RunTasks_step type_index fsequal_reduce_ st) as [r|st1].
  - injection Hrun as ->. exact Hstep.
  - eapply IH; eassumption.
Qed.

(** X11. In assert mode a mismatch is never a false result: whatever the
    callbacks do, [Equal] of a handler built with [assert_mode] and a
    first-mismatch slot returns true when it returns a boolean (every false
    goes through [CheckResult], which raises the error of the failed check),
    and so does the registered callable [node.StructuralEqual] when called
    with [assert_mode]. *)
Theorem assert_mode_never_false (fuel : nat)
    (slot : option ObjectPathPair) (defer_fails : bool)
    (lhs rhs : Any) (map_free_vars : bool) :
  (forall b st,
      SEqualHandlerDefault_Equal type_index kTVMFFIStaticObjectBegin
        fsequal_reduce_ fuel true (Some slot) defer_fails lhs rhs map_free_vars
      = Some (Ok (b, st)) -> b = true)
  /\ node_StructuralEqual type_index kTVMFFIStaticObjectBegin fsequal_reduce_
       fuel lhs rhs true map_free_vars <> Some (Ok false).
Proof.
  assert (H : forall fm d b st,
             SEqualHandlerDefault_Equal type_index kTVMFFIStaticObjectBegin
               fsequal_reduce_ fuel true fm d lhs rhs map_free_vars
             = Some (Ok (b, st)) -> b = true).
  { intros fm d b st. unfold SEqualHandlerDefault_Equal, Equal.
    destruct (Equal_enter _ _ _ _ _ _) as [r|st1] eqn:Henter.
    - intros H. injection H as ->. revert Henter. unfold Equal_enter.
      set (st0 := set_roots _ _ _).
      assert (Ha : assert_mode_ st0 = true) by reflexivity.
      destruct (negb (_ =? _)).
      { intros H. injection H as H. now apply CheckResult_assert in H. }
      destruct lhs as [tl vl|l], rhs as [tr vr|r]; try discriminate.
      + destruct (tl <? _); [|discriminate].
        destruct (vl =? vr).
        * intros H. now injection H as <- _.
        * intros H. injection H as H. now apply CheckResult_assert in H.
      + destruct (type_index l <? _); [discriminate|].
        destruct (SEqualReduce _ _ _ _ _ _) as [[[|] s1]| |] eqn:Hs.
        * destruct (pending_tasks_ s1) as [|t [|]]; try discriminate.
          destruct (allow_push_to_stack_ s1); discriminate.
        * apply SEqualReduce_assert in Hs as [Hs _]; [discriminate | exact Ha].
        * discriminate.
        * discriminate.
    - intros Hrun. eapply RunTasks_assert; [|exact Hrun].
      revert Henter. unfold Equal_enter. set (st0 := set_roots _ _ _).
      assert (Ha : assert_mode_ st0 = true) by reflexivity.
      destruct (negb (_ =? _)); [discriminate|].
      destruct lhs as [tl vl|l], rhs as [tr vr|r]; try discriminate.
      + destruct (tl <? _); [destruct (vl =? vr)|]; discriminate.
      + destruct (type_index l <? _); [discriminate|].
        destruct (SEqualReduce _ _ _ _ _ _) as [[[|] s1]| |] eqn:Hs;
          try discriminate.
        apply SEqualReduce_assert in Hs as [_ Hs]; [|exact Ha].
        destruct (pending_tasks_ s1) as [|t [|]]; try discriminate.
        destruct (allow_push_to_stack_ s1); [|discriminate].
        intros H. injection H as <-. exact Hs. }
  split; [apply H|].
  unfold node_StructuralEqual.
  destruct (SEqualHandlerDefault_Equal _ _ _ _ _ _ _ _ _ _)
    as [[[b st]| |]|] eqn:He; try discriminate.
  apply H in He as ->. discriminate.
Qed.

(** *** Values that are not objects, and unregistered types *)

(** X12. Two values that are not objects are compared without any callback:
    they are equal iff their type indices and their 64-bit payloads are the
    same, whatever the fuel; when they differ and tracing is on with no
    mismatch yet, the mismatch recorded is at the root paths, and in assert
    mode, on a handler with a first-mismatch slot, the check fails. *)
Theorem Equal_POD (fuel : nat) (assert_mode : bool)
    (first_mismatch : option (option ObjectPathPair)) (defer_fails : bool)
    (tl vl tr vr : Z) (map_free_vars : bool) :
  (tl = tr -> tl < kTVMFFIStaticObjectBegin) ->
  let same := (tl =? tr) && (vl =? vr) in
  (assert_mode = true -> same = false -> is_Some first_mismatch ->
   SEqualHandlerDefault_Equal type_index kTVMFFIStaticObjectBegin fsequal_reduce_
     fuel assert_mode first_mismatch defer_fails (AnyPOD tl vl) (AnyPOD tr vr)
     map_free_vars = Some (Fatal check_failed))
  /\ (assert_mode = false \/ same = true ->
      exists st,
        SEqualHandlerDefault_Equal type_index kTVMFFIStaticObjectBegin
          fsequal_reduce_ fuel assert_mode first_mismatch defer_fails
          (AnyPOD tl vl) (AnyPOD tr vr) map_free_vars = Some (Ok (same, st))
        /\ first_mismatch_ st
           = match first_mismatch with
             | Some None =>
                 if same then Some None
                 else Some (Some {| lhs_path := Root; rhs_path := Root |})
             | other => other
             end).
Proof.
  intros Hpod same. subst same.
  unfold SEqualHandlerDefault_Equal, Equal, Equal_enter.
  cbn [Any_type_index].
  destruct (Z.eqb_spec tl tr) as [->|Hne]; cbn [negb andb].
  - rewrite (proj2 (Z.ltb_lt _ _) (Hpod eq_refl)).
    destruct (vl =? vr); split.
    + discriminate.
    + intros _. eexists. split; [reflexivity|].
      now destruct first_mismatch as [[p|]|].
    + intros -> _ _. reflexivity.
    + intros [->|H]; [|discriminate]. unfold CheckResult.
      destruct first_mismatch as [[p|]|]; cbn; eexists; split; reflexivity.
  - split.
    + intros -> _ _. reflexivity.
    + intros [->|H]; [|discriminate]. unfold CheckResult.
      destruct first_mismatch as [[p|]|]; cbn; eexists; split; reflexivity.
Qed.

(** X13. Two objects of one type that has no registered callback cannot be
    compared: unless an early rule of [SEqualReduce] applies, which none does
    on a fresh handler, [Equal] fails with the type error of the reflection
    table, also when the two objects are the same object. *)
Theorem Equal_unregistered (fuel : nat) (assert_mode : bool)
    (first_mismatch : option (option ObjectPathPair)) (defer_fails : bool)
    (l r : positive) (map_free_vars : bool) :
  type_index l = type_index r ->
  kTVMFFIStaticObjectBegin <= type_index l ->
  fsequal_reduce_ (type_index l) = None ->
  SEqualHandlerDefault_Equal type_index kTVMFFIStaticObjectBegin fsequal_reduce_
    (S fuel) assert_mode first_mismatch defer_fails (AnyObject l) (AnyObject r)
    map_free_vars = Some (Fatal not_registered).
Proof.
  intros Hty Hobj Hreg.
  unfold SEqualHandlerDefault_Equal, Equal, Equal_enter.
  cbn [Any_type_index]. rewrite Hty, Z.eqb_refl. cbn [negb].
  rewrite <- Hty. rewrite (proj2 (Z.ltb_ge _ _) Hobj).
  unfold SEqualReduce, early_result. cbn [defined negb andb ref_type_index].
  rewrite Hty, Z.eqb_refl. cbn -[RunTasks].
  rewrite !lookup_empty. cbv iota beta.
  rewrite CheckResult_true. cbn -[RunTasks_step]. unfold RunTasks_step.
  cbn -[DispatchSEqualReduce].
  unfold DispatchSEqualReduce. rewrite Hty, Z.eqb_refl. cbn [negb]. cbv iota.
  cbn [equal_map_lhs_ equal_map_rhs_ set_allow_push set_stack set_pending
       set_roots set_maps new_Impl].
  rewrite !lookup_empty.
  unfold ReflectionVTable_SEqualReduce. rewrite Hreg.
  destruct first_mismatch as [[p|]|]; reflexivity.
Qed.

(** *** The first mismatch is written once *)

(** A program that writes the first-mismatch slot only right after it has
    found it empty, as the functions of the reducer do. *)
Inductive guarded {A} : Prog A -> Prop :=
| guarded_Return a : guarded (Return a)
| guarded_Abort m : guarded (Abort m)
| guarded_SEqualReduce l r m c k :
    (forall b, guarded (k b)) -> guarded (SEqualReduceOp l r m c k)
| guarded_DeferFail c k : guarded k -> guarded (DeferFailOp c k)
| guarded_IsFailDeferralEnabled k :
    (forall b, guarded (k b)) -> guarded (IsFailDeferralEnabledOp k)
| guarded_MarkGraphNode k : guarded k -> guarded (MarkGraphNodeOp k)
| guarded_MapLhsToRhs l k :
    (forall o, guarded (k o)) -> guarded (MapLhsToRhsOp l k)
| guarded_Defined k :
    (forall b, guarded (k b)) -> guarded (FirstMismatchDefinedOp k)
| guarded_DefinedStore k c k' :
    guarded (k true) -> k false = FirstMismatchStoreOp c k' -> guarded k' ->
    guarded (FirstMismatchDefinedOp k).

Definition registry_guarded : Prop :=
  forall t f self other equal,
    fsequal_reduce_ t = Some f -> guarded (f self other equal).

Lemma CheckResult_keeps (b : bool) (c : option ObjectPathPair) (st : Impl)
    (q : ObjectPathPair) (b' : bool) (st' : Impl) :
  first_mismatch_ st = Some (Some q) ->
  CheckResult b c st = Ok (b', st') -> first_mismatch_ st' = Some (Some q).
Proof.
  intros Hq. unfold CheckResult, first_mismatch_defined. rewrite Hq.
  rewrite !andb_false_r.
  destruct (assert_mode_ st && negb b); [discriminate|].
  intros H. now injection H as _ <-.
Qed.

Lemma SEqualReduce_keeps (l r : ObjectRef) (m : bool)
    (c : option ObjectPathPair) (st : Impl) (q : ObjectPathPair) (b : bool)
    (st' : Impl) :
  first_mismatch_ st = Some (Some q) ->
  SEqualReduce type_index l r m c st = Ok (b, st') ->
  first_mismatch_ st' = Some (Some q).
Proof.
  intros Hq. unfold SEqualReduce.
  destruct (early_result type_index l r st) as [[|]|];
    [| destruct c as [paths|];
       [destruct (IsPathTracingEnabled st && IsFailDeferralEnabled st)|] |];
    apply CheckResult_keeps; exact Hq.
Qed.

Lemma run_guarded {A} (p : Prog A) :
  guarded p ->
  forall st q a st',
    first_mismatch_ st = Some (Some q) ->
    run type_index p st = Ok (a, st') ->
    first_mismatch_ st' = Some (Some q).
Proof.
  induction 1 as [a0|m|l r m c k _ IH|c k _ IH|k _ IH|k _ IH|l k _ IH|k _ IH
                 |k c k' _ IH Hf _ _];
    intros st q a st' Hq Hrun; cbn [run] in Hrun.
  - now injection Hrun as _ <-.
  - discriminate.
  - destruct (SEqualReduce type_index l r m c st) as [[b st1]| |] eqn:Hs;
      try discriminate.
    cbn in Hrun. eapply IH; [|exact Hrun].
    eapply SEqualReduce_keeps; eassumption.
  - eapply IH; [|exact Hrun]. exact Hq.
  - eapply IH; eassumption.
  - unfold MarkGraphNode in Hrun.
    destruct (task_stack_ st) as [|back rest]; [discriminate|].
    destruct (negb (allow_push_to_stack_ st)); [|discriminate].
    cbn in Hrun. eapply IH; [|exact Hrun]. exact Hq.
  - eapply IH; eassumption.
  - rewrite Hq in Hrun. eapply IH; eassumption.
  - rewrite Hq in Hrun. eapply IH; eassumption.
Qed.

Lemma Dispatch_keeps (lhs rhs : ObjectRef) (m : bool)
    (c : option ObjectPathPair) (st : Impl) (q : ObjectPathPair) (b : bool)
    (st' : Impl) :
  registry_guarded ->
  first_mismatch_ st = Some (Some q) ->
  DispatchSEqualReduce type_index fsequal_reduce_ lhs rhs m c st = Ok (b, st') ->
  first_mismatch_ st' = Some (Some q).
Proof.
  intros HR Hq. unfold DispatchSEqualReduce.
  destruct lhs as [l|], rhs as [r|]; try discriminate.
  destruct (negb (type_index l =? type_index r)); [discriminate|].
  unfold mbind, Result_bind. intros H.
  assert (Hg : forall equal,
             guarded (ReflectionVTable_SEqualReduce type_index fsequal_reduce_
                        l r equal)).
  { intros equal. unfold ReflectionVTable_SEqualReduce.
    destruct (fsequal_reduce_ (type_index l)) as [f|] eqn:Hf; [|constructor].
    eapply HR. exact Hf. }
  match type of H with
  | context [@lookup ?K ?V ?M ?i (Some l) (equal_map_lhs_ st)] =>
      destruct (@lookup K V M i (Some l) (equal_map_lhs_ st)) as [it|]
  end.
  { eapply CheckResult_keeps; eassumption. }
  match type of H with
  | context [@lookup ?K ?V ?M ?i (Some r) (equal_map_rhs_ st)] =>
      destruct (@lookup K V M i (Some r) (equal_map_rhs_ st)) as [it|]
  end.
  { eapply CheckResult_keeps; eassumption. }
  destruct (negb (IsPathTracingEnabled st)).
  - match type of H with
    | match run _ ?p _ with _ => _ end = _ =>
        destruct (run type_index p st) as [[b1 st1]| |] eqn:Hr; try discriminate
    end.
    eapply CheckResult_keeps; [|exact H].
    eapply run_guarded; [apply Hg | exact Hq | exact Hr].
  - destruct c as [paths|]; [|discriminate].
    match type of H with
    | match run _ ?p _ with _ => _ end = _ =>
        destruct (run type_index p st) as [[b1 st1]| |] eqn:Hr; try discriminate
    end.
    eapply CheckResult_keeps; [|exact H].
    eapply run_guarded; [apply Hg | exact Hq | exact Hr].
Qed.

Lemma step_keeps (st : Impl) (q : ObjectPathPair) :
  registry_guarded -> first_mismatch_ st = Some (Some q) ->
  match RunTasks_step type_index fsequal_reduce_ st with
  | Continue st' => first_mismatch_ st' = Some (Some q)
  | Done (Ok (_, st')) => first_mismatch_ st' = Some (Some q)
  | Done _ => True
  end.
Proof.
  intros HR Hq. unfold RunTasks_step.
  destruct (task_stack_ st) as [|entry rest]; [exact Hq|].
  destruct (force_fail entry).
  { destruct (CheckResult false (current_paths entry) st) as [[b st']| |] eqn:H;
      [|exact I..].
    eapply CheckResult_keeps; eassumption. }
  destruct (children_expanded entry).
  { assert (Hdone : first_mismatch_ (complete_entry entry rest st) = Some (Some q)).
    { unfold complete_entry. now destruct (graph_equal entry). }
    destruct (equal_map_lhs_ st !! lhs entry) as [it|]; [|exact Hdone].
    destruct (same_as it (rhs entry)); [exact Hdone | exact I]. }
  cbn [set_stack pending_tasks_].
  destruct (pending_tasks_ st) as [|? ?]; [|exact I].
  destruct (DispatchSEqualReduce _ _ _ _ _ _ _) as [[[|] st3]| |] eqn:Hd;
    try exact I.
  - apply (Dispatch_keeps _ _ _ _ _ q) in Hd; [exact Hd | exact HR | exact Hq].
  - apply (Dispatch_keeps _ _ _ _ _ q) in Hd; [exact Hd | exact HR | exact Hq].
Qed.

Lemma RunTasks_keeps (fuel : nat) :
  registry_guarded ->
  forall st q b st',
    first_mismatch_ st = Some (Some q) ->
    RunTasks type_index fsequal_reduce_ fuel st = Some (Ok (b, st')) ->
    first_mismatch_ st' = Some (Some q).
Proof.
  intros HR. induction fuel as [|fuel IH]; intros st q b st' Hq Hrun;
    [discriminate|].
  rewrite RunTasks_S in Hrun. pose proof (step_keeps st q HR Hq) as Hstep.
  destruct (RunTasks_step type_index fsequal_reduce_ st) as [r|st1].
  - injection Hrun as ->. exact Hstep.
  - eapply IH; eassumption.
Qed.

(** X14. The first-mismatch slot is written once.  With callbacks that
    write it the way the functions of the reducer do, only after finding it
    empty, a mismatch that is recorded at some point of the traversal is
    what the slot holds when [RunTasks] returns; and a slot that already
    holds a mismatch when [Equal] is called holds the same one when it
    returns, whatever else is found. *)
Theorem first_mismatch_written_once :
  registry_guarded ->
  (forall fuel st q b st',
      first_mismatch_ st = Some (Some q) ->
      RunTasks type_index fsequal_reduce_ fuel st = Some (Ok (b, st')) ->
      first_mismatch_ st' = Some (Some q))
  /\ (forall fuel assert_mode defer_fails lhs rhs map_free_vars q b st',
         SEqualHandlerDefault_Equal type_index kTVMFFIStaticObjectBegin
           fsequal_reduce_ fuel assert_mode (Some (Some q)) defer_fails lhs rhs
           map_free_vars = Some (Ok (b, st')) ->
         first_mismatch_ st' = Some (Some q)).
Proof.
  intros HR. split.
  - intros fuel. apply (RunTasks_keeps fuel HR).
  - intros fuel a d lhs rhs m q b st'.
    unfold SEqualHandlerDefault_Equal, Equal.
    destruct (Equal_enter _ _ _ _ _ _) as [r|st1] eqn:Henter.
    + intros H. injection H as ->. revert Henter. unfold Equal_enter.
      set (st0 := set_roots _ _ _).
      assert (Hq : first_mismatch_ st0 = Some (Some q)) by reflexivity.
      destruct (negb (_ =? _)).
      { intros H. injection H as H. eapply CheckResult_keeps; eassumption. }
      destruct lhs as [tl vl|l], rhs as [tr vr|r]; try discriminate.
      * destruct (tl <? _); [|discriminate].
        destruct (vl =? vr).
        -- intros H. now injection H as _ <-.
        -- intros H. injection H as H. eapply CheckResult_keeps; eassumption.
      * destruct (type_index l <? _); [discriminate|].
        destruct (SEqualReduce _ _ _ _ _ _) as [[[|] s1]| |] eqn:Hs.
        -- destruct (pending_tasks_ s1) as [|t [|]]; try discriminate.
           destruct (allow_push_to_stack_ s1); discriminate.
        -- intros H. injection H as <- <-.
           eapply SEqualReduce_keeps; eassumption.
        -- discriminate.
        -- discriminate.
    + intros Hrun. eapply RunTasks_keeps; [exact HR| |exact Hrun].
      revert Henter. unfold Equal_enter. set (st0 := set_roots _ _ _).
      assert (Hq : first_mismatch_ st0 = Some (Some q)) by reflexivity.
      destruct (negb (_ =? _)); [discriminate|].
      destruct lhs as [tl vl|l], rhs as [tr vr|r]; try discriminate.
      * destruct (tl <? _); [destruct (vl =? vr)|]; discriminate.
      * destruct (type_index l <? _); [discriminate|].
        destruct (SEqualReduce _ _ _ _ _ _) as [[[|] s1]| |] eqn:Hs;
          try discriminate.
        apply (SEqualReduce_keeps _ _ _ _ _ q) in Hs; [|exact Hq].
        destruct (pending_tasks_ s1) as [|t [|]]; try discriminate.
        destruct (allow_push_to_stack_ s1); [|discriminate].
        intros H. injection H as <-. exact Hs.
Qed.

(** *** The two registered callables *)

Lemma Equal_sim_boolean (assert_mode : bool)
    (first_mismatch : option (option ObjectPathPair)) (lhs rhs : Any)
    (map_free_vars : bool) (fuelN fuelD : nat) (bN bD : bool) (stN stD : Impl) :
  registry_disciplined ->
  SEqualHandlerDefault_Equal type_index kTVMFFIStaticObjectBegin fsequal_reduce_
    fuelN assert_mode first_mismatch false lhs rhs map_free_vars
  = Some (Ok (bN, stN)) ->
  SEqualHandlerDefault_Equal type_index kTVMFFIStaticObjectBegin fsequal_reduce_
    fuelD assert_mode first_mismatch true lhs rhs map_free_vars
  = Some (Ok (bD, stD)) ->
  bN = bD.
Proof.
  intros HR. unfold SEqualHandlerDefault_Equal, Equal.
  set (st0 := new_Impl assert_mode first_mismatch false).
  change (new_Impl assert_mode first_mismatch true) with (with_defer st0 true).
  pose proof (Equal_enter_sim lhs rhs map_free_vars st0 eq_refl) as Hsim.
  destruct (Equal_enter type_index kTVMFFIStaticObjectBegin lhs rhs map_free_vars st0)
    as [rN|stN1].
  - intros HN. injection HN as ->.
    destruct Hsim as [Hs|[-> Hs]].
    + rewrite Hs. congruence.
    + destruct (Equal_enter type_index kTVMFFIStaticObjectBegin lhs rhs
                  map_free_vars (with_defer st0 true)) as [rD|stD1].
      * intros HD. injection HD as ->. now subst.
      * intros HD. symmetry. eapply force_fail_not_true; eassumption.
  - destruct Hsim as [-> Hd1]. intros HN HD.
    eapply RunTasks_sim; eassumption.
Qed.

(** X15. The two registered callables agree: with callbacks that give up
    with false as soon as a comparison has returned false, whenever
    [node.StructuralEqual] without assert mode returns a boolean and
    [node.GetFirstStructuralMismatch] returns on the same inputs, the second
    returns the undefined value iff the first returned true. *)
Theorem callables_agree (fuel1 fuel2 : nat) (lhs rhs : Any)
    (map_free_vars : bool) (b : bool) (mismatch : option ObjectPathPair) :
  registry_disciplined ->
  node_StructuralEqual type_index kTVMFFIStaticObjectBegin fsequal_reduce_
    fuel1 lhs rhs false map_free_vars = Some (Ok b) ->
  node_GetFirstStructuralMismatch type_index kTVMFFIStaticObjectBegin
    fsequal_reduce_ fuel2 lhs rhs map_free_vars = Some (Ok mismatch) ->
  (mismatch = None <-> b = true).
Proof.
  intros HR. unfold node_StructuralEqual, node_GetFirstStructuralMismatch.
  destruct (SEqualHandlerDefault_Equal _ _ _ fuel1 _ _ _ _ _ _)
    as [[[bN stN]| |]|] eqn:HN; try discriminate.
  destruct (SEqualHandlerDefault_Equal _ _ _ fuel2 _ _ _ _ _ _)
    as [[[bD stD]| |]|] eqn:HD; try discriminate.
  pose proof (Equal_sim_boolean _ _ _ _ _ _ _ _ _ _ _ HR HN HD) as ->.
  cbn. intros H. injection H as ->. unfold first_mismatch_defined.
  destruct (first_mismatch_ stD) as [[p|]|], b; cbn; intros H;
    try discriminate; injection H as <-; split; intros E;
    try reflexivity; discriminate.
Qed.

(** *** An object compared with itself *)

(** A callback, applied to one object on both sides, that compares
    attributes with themselves, hands paths to the reducer when it traces,
    and returns true when all its comparisons have. *)
Inductive reflexive (tracing : bool) : Prog bool -> Prop :=
| reflexive_Return : reflexive tracing (Return true)
| reflexive_SEqualReduce l m c k :
    (tracing = true -> is_Some c) -> reflexive tracing (k true) ->
    reflexive tracing (SEqualReduceOp l l m c k)
| reflexive_IsFailDeferralEnabled k :
    (forall b, reflexive tracing (k b)) ->
    reflexive tracing (IsFailDeferralEnabledOp k)
| reflexive_MarkGraphNode k :
    reflexive tracing k -> reflexive tracing (MarkGraphNodeOp k)
| reflexive_MapLhsToRhs l k :
    reflexive tracing (k l) -> reflexive tracing (MapLhsToRhsOp l k).

Definition is_tracing (equal : SEqualReducer) : bool :=
  match tracing_data_ equal with Some _ => true | None => false end.

(** Every type of object has a callback, and the callbacks are reflexive. *)
Definition registry_reflexive : Prop :=
  forall a equal, exists f,
    fsequal_reduce_ (type_index a) = Some f
    /\ reflexive (is_tracing equal) (f a a equal).

(** A task that compares a defined object with itself. *)
Definition self_task (tracing : bool) (t : Task) : Prop :=
  force_fail t = false /\ rhs t = lhs t /\ defined (lhs t) = true
  /\ (tracing = true -> is_Some (current_paths t)).

(** The states of a comparison of an object with itself: the slot is
    untouched, the two maps are one partial identity, and all tasks compare
    an object with itself. *)
Definition self_state (fm : option (option ObjectPathPair)) (st : Impl) : Prop :=
  first_mismatch_ st = fm
  /\ equal_map_rhs_ st = equal_map_lhs_ st
  /\ (forall x y, equal_map_lhs_ st !! x = Some y -> y = x)
  /\ Forall (self_task (IsPathTracingEnabled st)) (task_stack_ st)
  /\ Forall (self_task (IsPathTracingEnabled st)) (pending_tasks_ st).

Ltac case_lookup k m it E :=
  match goal with
  | |- context [@lookup ?K ?V ?M ?i k m] =>
      destruct (@lookup K V M i k m) as [it|] eqn:E
  end.

Lemma same_as_refl (x : ObjectRef) : same_as x x = true.
Proof. unfold same_as. now apply bool_decide_eq_true_2. Qed.

Lemma SEqualReduce_self (fm : option (option ObjectPathPair)) (l : ObjectRef)
    (m : bool) (c : option ObjectPathPair) (st : Impl) :
  self_state fm st -> (IsPathTracingEnabled st = true -> is_Some c) ->
  exists st',
    SEqualReduce type_index l l m c st = Ok (true, st')
    /\ self_state fm st'
    /\ task_stack_ st' = task_stack_ st
    /\ allow_push_to_stack_ st' = allow_push_to_stack_ st.
Proof.
  intros (Hfm & Hmr & Hid & Hs & Hp) Hc. unfold SEqualReduce, early_result.
  destruct l as [a|]; cbn [defined negb andb ref_type_index].
  - rewrite Z.eqb_refl. cbn [negb]. rewrite Hmr.
    case_lookup (Some a) (equal_map_lhs_ st) it E.
    + apply Hid in E as ->. rewrite same_as_refl, CheckResult_true.
      exists st. repeat split; assumption.
    + rewrite CheckResult_true. eexists. split; [reflexivity|].
      repeat split; try assumption.
      cbn. apply Forall_app. split; [exact Hp|].
      constructor; [|constructor]. repeat split. exact Hc.
  - rewrite CheckResult_true. exists st. repeat split; assumption.
Qed.

Lemma run_reflexive (tracing : bool) (p : Prog bool) :
  reflexive tracing p ->
  forall fm st,
    self_state fm st -> tracing = IsPathTracingEnabled st ->
    allow_push_to_stack_ st = false -> task_stack_ st <> [] ->
    exists st', run type_index p st = Ok (true, st') /\ self_state fm st'.
Proof.
  induction 1 as [|l m c k Hc _ IH|k _ IH|k _ IH|l k _ IH];
    intros fm st Hst Htr Hallow Hstack; cbn [run].
  - exists st. split; [reflexivity | exact Hst].
  - destruct (SEqualReduce_self fm l m c st Hst) as (st1 & -> & Hst1 & Hs1 & Ha1).
    { rewrite <- Htr. exact Hc. }
    cbn. apply IH; [exact Hst1| |congruence|congruence].
    destruct Hst as (Hfm & _), Hst1 as (Hfm1 & _).
    unfold IsPathTracingEnabled in *. now rewrite Hfm1, <- Hfm.
  - now apply IH.
  - unfold MarkGraphNode. destruct (task_stack_ st) as [|back rest] eqn:Hs;
      [congruence|].
    rewrite Hallow. cbn. apply IH; [|exact Htr|exact Hallow|discriminate].
    destruct Hst as (Hfm & Hmr & Hid & Hs' & Hp).
    repeat split; try assumption.
    rewrite Hs in Hs'. apply Forall_cons in Hs' as [Hb Hr].
    cbn. constructor; [exact Hb | exact Hr].
  - unfold MapLhsToRhs.
    case_lookup l (equal_map_lhs_ st) it E; [|now apply IH].
    destruct Hst as (Hfm & Hmr & Hid & Hs' & Hp). apply Hid in E as ->.
    apply IH; try assumption. repeat split; assumption.
Qed.

Lemma Dispatch_self (fm : option (option ObjectPathPair)) (a : positive)
    (m : bool) (c : option ObjectPathPair) (st : Impl) :
  registry_reflexive ->
  self_state fm st -> (IsPathTracingEnabled st = true -> is_Some c) ->
  allow_push_to_stack_ st = false -> task_stack_ st <> [] ->
  exists st',
    DispatchSEqualReduce type_index fsequal_reduce_ (Some a) (Some a) m c st
    = Ok (true, st')
    /\ self_state fm st'.
Proof.
  intros HR Hst Hc Hallow Hstack. unfold DispatchSEqualReduce.
  rewrite Z.eqb_refl. cbn [negb].
  pose proof Hst as (Hfm & Hmr & Hid & Hs & Hp). rewrite Hmr.
  case_lookup (Some a) (equal_map_lhs_ st) it E.
  { apply Hid in E as ->. cbn. rewrite same_as_refl, CheckResult_true.
    exists st. split; [reflexivity | exact Hst]. }
  unfold ReflectionVTable_SEqualReduce.
  destruct (IsPathTracingEnabled st) eqn:Htr; cbn [negb].
  - destruct (Hc eq_refl) as [paths ->].
    match goal with
    | |- context [fsequal_reduce_ _] => idtac
    end.
    match goal with
    | |- context [match fsequal_reduce_ (type_index a) with
                  | Some f => f a a ?eq | None => _ end] =>
        destruct (HR a eq) as (f & -> & Hf)
    end.
    destruct (run_reflexive _ _ Hf fm st Hst) as (st1 & -> & Hst1);
      [cbn; now rewrite Htr | exact Hallow | exact Hstack |].
    cbn. rewrite CheckResult_true. exists st1. split; [reflexivity | exact Hst1].
  - match goal with
    | |- context [match fsequal_reduce_ (type_index a) with
                  | Some f => f a a ?eq | None => _ end] =>
        destruct (HR a eq) as (f & -> & Hf)
    end.
    destruct (run_reflexive _ _ Hf fm st Hst) as (st1 & -> & Hst1);
      [cbn; now rewrite Htr | exact Hallow | exact Hstack |].
    cbn. rewrite CheckResult_true. exists st1. split; [reflexivity | exact Hst1].
Qed.

Lemma self_state_tracing (fm : option (option ObjectPathPair)) (st st' : Impl) :
  self_state fm st -> self_state fm st' ->
  IsPathTracingEnabled st' = IsPathTracingEnabled st.
Proof.
  intros (H & _) (H' & _). unfold IsPathTracingEnabled. now rewrite H, H'.
Qed.

Lemma step_self (fm : option (option ObjectPathPair)) (st : Impl) :
  registry_reflexive -> self_state fm st -> pending_tasks_ st = [] ->
  match RunTasks_step type_index fsequal_reduce_ st with
  | Continue st' => self_state fm st' /\ pending_tasks_ st' = []
  | Done r => r = Ok (true, st)
  end.
Proof.
  intros HR Hst Hpend. unfold RunTasks_step.
  pose proof Hst as (Hfm & Hmr & Hid & Hs & Hp).
  destruct (task_stack_ st) as [|entry rest] eqn:Hstack; [reflexivity|].
  apply Forall_cons in Hs as [(Hff & Hrhs & Hdef & Hpaths) Hrest].
  rewrite Hff.
  assert (Hdone : self_state fm (complete_entry entry rest st)
                  /\ pending_tasks_ (complete_entry entry rest st) = []).
  { unfold complete_entry. destruct (graph_equal entry); cbn.
    - split; [|exact Hpend]. rewrite Hrhs, Hmr. repeat split; try assumption.
      intros x y. cbn [equal_map_lhs_ set_stack set_maps].
      destruct (decide (lhs entry = x)) as [->|Hne].
      + rewrite lookup_insert_eq. congruence.
      + rewrite lookup_insert_ne by exact Hne. apply Hid.
    - split; [|exact Hpend]. repeat split; assumption. }
  destruct (children_expanded entry) eqn:Hexp.
  { case_lookup (lhs entry) (equal_map_lhs_ st) it E; [|exact Hdone].
    apply Hid in E as ->. rewrite Hrhs, same_as_refl. exact Hdone. }
  cbn [set_stack pending_tasks_]. rewrite Hpend.
  destruct (lhs entry) as [a|] eqn:Hl; [|discriminate]. rewrite Hrhs.
  set (st2 := set_allow_push _ false).
  assert (Hst2 : self_state fm st2).
  { repeat split; try assumption. cbn.
    constructor; [|exact Hrest]. repeat split; cbn; try assumption.
    - now rewrite Hl.
    - now rewrite Hl. }
  destruct (Dispatch_self fm a (map_free_vars entry) (current_paths entry) st2 HR Hst2)
    as (st3 & -> & Hst3); [exact Hpaths | reflexivity | discriminate |].
  destruct Hst3 as (Hfm3 & Hmr3 & Hid3 & Hs3 & Hp3).
  split; [|reflexivity]. repeat split; try assumption.
  - cbn. rewrite push_pending_rev. apply Forall_app. split; assumption.
  - constructor.
Qed.

Lemma RunTasks_self (fm : option (option ObjectPathPair)) (fuel : nat) :
  registry_reflexive ->
  forall st r,
    self_state fm st -> pending_tasks_ st = [] ->
    RunTasks type_index fsequal_reduce_ fuel st = Some r ->
    exists st', r = Ok (true, st') /\ first_mismatch_ st' = fm.
Proof.
  intros HR. induction fuel as [|fuel IH]; intros st r Hst Hpend Hrun;
    [discriminate|].
  rewrite RunTasks_S in Hrun. pose proof (step_self fm st HR Hst Hpend) as Hstep.
  destruct (RunTasks_step type_index fsequal_reduce_ st) as [r0|st1].
  - injection Hrun as <-. exists st. split; [exact Hstep | apply Hst].
  - destruct Hstep as [Hst1 Hp1]. eapply IH; eassumption.
Qed.

Lemma Equal_self (fuel : nat) (assert_mode defer_fails : bool)
    (fm : option (option ObjectPathPair)) (a : positive) (m : bool)
    (r : Result (bool * Impl)) :
  registry_reflexive -> kTVMFFIStaticObjectBegin <= type_index a ->
  SEqualHandlerDefault_Equal type_index kTVMFFIStaticObjectBegin fsequal_reduce_
    fuel assert_mode fm defer_fails (AnyObject a) (AnyObject a) m = Some r ->
  exists st, r = Ok (true, st) /\ first_mismatch_ st = fm.
Proof.
  intros HR Hobj. unfold SEqualHandlerDefault_Equal, Equal, Equal_enter.
  cbn [Any_type_index]. rewrite Z.eqb_refl. cbn [negb].
  rewrite (proj2 (Z.ltb_ge _ _) Hobj).
  unfold SEqualReduce, early_result. cbn [defined negb andb ref_type_index].
  rewrite Z.eqb_refl. cbn -[RunTasks]. rewrite !lookup_empty. cbv iota beta.
  rewrite CheckResult_true. cbn -[RunTasks].
  apply (RunTasks_self fm fuel HR); [|reflexivity].
  split; [reflexivity|]. split; [reflexivity|]. split.
  { intros x y. cbn. rewrite lookup_empty. discriminate. }
  split; [|constructor].
  constructor; [|constructor].
  split; [reflexivity|]. split; [reflexivity|]. split; [reflexivity|].
  unfold IsPathTracingEnabled. cbn. destruct fm; [eauto | discriminate].
Qed.

(** X16. Structural equality is reflexive where it terminates.  With a
    callback for every type, each of which, applied to one object on both
    sides, compares attributes with themselves and returns true when they
    all compare equal, the comparison of an object with itself, whenever it
    returns, returns true and leaves the first-mismatch slot as it was, in
    assert mode too, with or without fail deferral; and on an acyclic graph
    it does return, so that [StructuralEqual] gives true and
    [node.GetFirstStructuralMismatch] gives no mismatch. *)
Theorem Equal_reflexive (a : positive) (map_free_vars : bool) :
  registry_reflexive -> kTVMFFIStaticObjectBegin <= type_index a ->
  (forall fuel assert_mode defer_fails first_mismatch r,
      SEqualHandlerDefault_Equal type_index kTVMFFIStaticObjectBegin
        fsequal_reduce_ fuel assert_mode first_mismatch defer_fails
        (AnyObject a) (AnyObject a) map_free_vars = Some r ->
      exists st, r = Ok (true, st) /\ first_mismatch_ st = first_mismatch)
  /\ (forall rank, registry_calls (descends rank) ->
      (exists fuel,
          StructuralEqual type_index kTVMFFIStaticObjectBegin fsequal_reduce_
            fuel (Some a) (Some a) map_free_vars = Some (Ok true))
      /\ (forall assert_mode, exists fuel,
             node_StructuralEqual type_index kTVMFFIStaticObjectBegin
               fsequal_reduce_ fuel (AnyObject a) (AnyObject a) assert_mode
               map_free_vars = Some (Ok true))
      /\ (exists fuel,
             node_GetFirstStructuralMismatch type_index kTVMFFIStaticObjectBegin
               fsequal_reduce_ fuel (AnyObject a) (AnyObject a) map_free_vars
             = Some (Ok None))).
Proof.
  intros HR Hobj.
  split.
  - intros fuel am df fm r. now apply Equal_self.
  - intros rank HQ.
    assert (Hret : forall am df fm,
               exists fuel st,
                 SEqualHandlerDefault_Equal type_index kTVMFFIStaticObjectBegin
                   fsequal_reduce_ fuel am fm df
                   (AnyObject a) (AnyObject a) map_free_vars
                 = Some (Ok (true, st))
                 /\ first_mismatch_ st = fm).
    { intros am df fm.
      destruct (Equal_returns rank (AnyObject a) (AnyObject a) map_free_vars
                  (new_Impl am fm df) HQ) as (fuel & r & Hr).
      destruct (Equal_self fuel am df fm a map_free_vars r HR Hobj Hr)
        as (st & -> & Hfm).
      exists fuel, st. split; assumption. }
    split; [|split].
    + destruct (Hret false false None) as (fuel & st & H & _).
      exists fuel. unfold StructuralEqual. cbn [Any_of_ObjectRef].
      now rewrite H.
    + intros am. destruct (Hret am am (Some None)) as (fuel & st & H & _).
      exists fuel. unfold node_StructuralEqual. now rewrite H.
    + destruct (Hret false true (Some None)) as (fuel & st & H & Hfm).
      exists fuel. unfold node_GetFirstStructuralMismatch. rewrite H. cbn.
      unfold first_mismatch_defined. now rewrite Hfm.
Qed.

(** *** Tensor leaves *)

Context (kDLCPU : Z).
Context (IsContiguous : Container -> bool).
Context (GetDataSize : Container -> nat).

(** The reducer handed to a callback has tracing data only when the engine
    has a first-mismatch slot: this is how [DispatchSEqualReduce] builds it. *)
Definition consistent (equal : SEqualReducer) (st : Impl) : Prop :=
  tracing_data_ equal = None \/ IsPathTracingEnabled st = true.

Lemma run_store_if_undefined (paths : ObjectPathPair) (st : Impl) :
  IsPathTracingEnabled st = true ->
  exists st', run type_index (store_if_undefined paths) st = Ok (tt, st')
              /\ IsPathTracingEnabled st' = true.
Proof.
  unfold IsPathTracingEnabled, store_if_undefined. intros H. cbn [run].
  destruct (first_mismatch_ st) as [[p|]|] eqn:Hs; try discriminate.
  - cbn [run]. eexists. split; [reflexivity|]. now rewrite Hs.
  - cbn [run]. rewrite Hs. eexists. split; reflexivity.
Qed.

Lemma run_reduce_int64 (equal : SEqualReducer) (l r la ra : Z) (st : Impl) :
  consistent equal st ->
  exists st', run type_index
                  (reduce_int64 GetAttrKeyByAddress equal l r la ra None) st
              = Ok (l =? r, st')
              /\ consistent equal st'.
Proof.
  intros Hc. unfold reduce_int64, CompareAttributeValues.
  destruct (l =? r); [exists st; split; [reflexivity | exact Hc]|].
  destruct (tracing_data_ equal) as [td|] eqn:Htd;
    [|exists st; split; [reflexivity | exact Hc]].
  destruct Hc as [Hc|Hc]; [congruence|].
  cbn [run]. unfold IsPathTracingEnabled in Hc.
  destruct (first_mismatch_ st) as [[p|]|] eqn:Hs; try discriminate.
  - exists st. split; [reflexivity|]. right. unfold IsPathTracingEnabled.
    now rewrite Hs.
  - unfold GetPathsFromAttrAddressesAndStoreMismatch.
    rewrite run_bind.
    destruct (run_store_if_undefined
                (GetPathsForAttrs GetAttrKeyByAddress td la ra) st)
      as (st' & -> & Ht).
    { unfold IsPathTracingEnabled. now rewrite Hs. }
    exists st'. split; [reflexivity|]. now right.
Qed.

Lemma run_shape_loop (equal : SEqualReducer) (ls : list Z) :
  forall (rs : list Z) (i la ra : Z) (st : Impl),
    length ls = length rs -> consistent equal st ->
    exists st',
      run type_index (shape_loop GetAttrKeyByAddress equal i la ra ls rs) st
      = Ok (bool_decide (ls = rs), st').
Proof.
  induction ls as [|l ls IH]; intros [|r rs] i la ra st Hlen Hc;
    try discriminate.
  - exists st. reflexivity.
  - cbn [shape_loop]. rewrite run_bind.
    destruct (run_reduce_int64 equal l r (la + 8 * i) (ra + 8 * i) st Hc)
      as (st1 & -> & Hc1).
    destruct (Z.eqb_spec l r) as [->|Hne]; simpl negb; cbv iota.
    + injection Hlen as Hlen.
      destruct (IH rs (i + 1) la ra st1 Hlen Hc1) as (st2 & ->).
      exists st2. do 2 f_equal.
      apply bool_decide_ext. split; congruence.
    + exists st1. cbn [run]. do 2 f_equal. symmetry.
      apply bool_decide_eq_false. congruence.
Qed.

(** The conditions under which two distinct tensors compare equal. *)
Definition tensors_equal (l r : Container) (compare_data : bool) : Prop :=
  ndim l = ndim r /\ shape l = shape r
  /\ (dtype_code l = dtype_code r /\ dtype_bits l = dtype_bits r
      /\ dtype_lanes l = dtype_lanes r)
  /\ (compare_data = true ->
      firstn (GetDataSize l) (data l) = firstn (GetDataSize l) (data r)).

Definition on_cpu_contiguous (c : Container) : Prop :=
  device_type c = kDLCPU /\ IsContiguous c = true.

(** C5, amended. A tensor compared with itself (the same container) is equal
    without any check.  For two distinct containers: unless both are on the
    CPU and contiguous the comparison is a fatal precondition violation,
    never a false result; otherwise it returns true iff both have the same
    rank, each dimension compares equal via the reducer, the dtype triples
    are equal and, when data comparison is requested, the packed data
    regions are byte-for-byte equal. *)
Theorem NDArrayEqual_spec (mem : positive -> Container) (lhs rhs : positive)
    (equal : SEqualReducer) (compare_data : bool) (st : Impl) :
  consistent equal st ->
  (lhs = rhs ->
   run type_index (NDArrayEqual GetAttrKeyByAddress kDLCPU IsContiguous
                                GetDataSize mem lhs rhs equal compare_data) st
   = Ok (true, st))
  /\ (lhs <> rhs ->
      ~ (on_cpu_contiguous (mem lhs) /\ on_cpu_contiguous (mem rhs)) ->
      exists msg,
        run type_index (NDArrayEqual GetAttrKeyByAddress kDLCPU IsContiguous
                                     GetDataSize mem lhs rhs equal compare_data) st
        = Fatal msg)
  /\ (lhs <> rhs ->
      on_cpu_contiguous (mem lhs) -> on_cpu_contiguous (mem rhs) ->
      exists b st',
        run type_index (NDArrayEqual GetAttrKeyByAddress kDLCPU IsContiguous
                                     GetDataSize mem lhs rhs equal compare_data) st
        = Ok (b, st')
        /\ (b = true <-> tensors_equal (mem lhs) (mem rhs) compare_data)).
Proof.
  clear kTVMFFIStaticObjectBegin fsequal_reduce_.
  intros Hc. unfold NDArrayEqual. repeat split.
  - intros ->. rewrite bool_decide_eq_true_2 by reflexivity. reflexivity.
  - intros Hne Hpre. rewrite bool_decide_eq_false_2 by exact Hne.
    unfold on_cpu_contiguous in Hpre.
    destruct (Z.eqb_spec (device_type (mem lhs)) kDLCPU) as [Hl|Hl];
      [|eexists; reflexivity].
    destruct (Z.eqb_spec (device_type (mem rhs)) kDLCPU) as [Hr|Hr];
      [|eexists; reflexivity].
    destruct (IsContiguous (mem lhs)) eqn:Hcl; [|eexists; reflexivity].
    destruct (IsContiguous (mem rhs)) eqn:Hcr; [|eexists; reflexivity].
    tauto.
  - intros Hne [Hdl Hcl] [Hdr Hcr].
    rewrite bool_decide_eq_false_2 by exact Hne.
    rewrite Hdl, Hdr, Z.eqb_refl, Hcl, Hcr. simpl negb. cbv iota.
    unfold tensors_equal.
    destruct (Z.eqb_spec (ndim (mem lhs)) (ndim (mem rhs))) as [Hn|Hn];
      simpl negb; cbv iota.
    2:{ exists false, st. split; [reflexivity|]. split; [discriminate|tauto]. }
    rewrite run_bind.
    destruct (run_shape_loop equal (shape (mem lhs)) (shape (mem rhs)) 0
                (shape_address (mem lhs)) (shape_address (mem rhs)) st)
      as (st1 & ->); [unfold ndim in Hn; lia | exact Hc |].
    destruct (decide (shape (mem lhs) = shape (mem rhs))) as [Hs|Hs].
    2:{ rewrite bool_decide_eq_false_2 by exact Hs. simpl negb. cbv iota.
        exists false, st1. split; [reflexivity|]. split; [discriminate|tauto]. }
    rewrite bool_decide_eq_true_2 by exact Hs. simpl negb. cbv iota.
    destruct (Z.eqb_spec (dtype_code (mem lhs)) (dtype_code (mem rhs))) as [Hco|Hco];
      [|exists false, st1; split; [reflexivity|]; split; [discriminate|tauto]].
    destruct (Z.eqb_spec (dtype_lanes (mem lhs)) (dtype_lanes (mem rhs))) as [Hla|Hla];
      [|exists false, st1; split; [reflexivity|]; split; [discriminate|tauto]].
    destruct (Z.eqb_spec (dtype_bits (mem lhs)) (dtype_bits (mem rhs))) as [Hbi|Hbi];
      [|exists false, st1; split; [reflexivity|]; split; [discriminate|tauto]].
    simpl andb. cbv iota.
    destruct compare_data.
    + eexists _, st1. split; [reflexivity|]. unfold memcmp.
      rewrite bool_decide_eq_true. tauto.
    + exists true, st1. split; [reflexivity|].
      split; [intros _|reflexivity]. repeat split; auto. discriminate.
Qed.

End Facts.

(** *** The callbacks in the conjunctive style *)

Section Callbacks.
Context (GetAttrKeyByAddress : ObjectRef -> Z -> option string).

Lemma disciplined_reduce_object (equal : SEqualReducer) (l r : ObjectRef)
    (la ra : Z) (K : bool -> Prog bool) :
  K false = Return false -> disciplined (K true) ->
  disciplined (reduce_object GetAttrKeyByAddress equal l r la ra ≫= K).
Proof.
  intros Hf Ht. unfold reduce_object, ObjectAttrsEqual, mbind, Prog_mbind.
  destruct (tracing_data_ equal) as [td|]; cbn.
  - constructor; [|exact Ht].
    constructor. intros [|]; cbn; rewrite Hf; repeat constructor.
  - constructor; [rewrite Hf; constructor | exact Ht].
Qed.

Lemma disciplined_reduce_int64 (equal : SEqualReducer) (l r la ra : Z)
    (K : bool -> Prog bool) :
  (forall b, disciplined (K b)) ->
  disciplined (reduce_int64 GetAttrKeyByAddress equal l r la ra None ≫= K).
Proof.
  intros HK.
  unfold reduce_int64, CompareAttributeValues,
    GetPathsFromAttrAddressesAndStoreMismatch, store_if_undefined,
    mbind, Prog_mbind.
  destruct (l =? r); cbn; [apply HK|].
  destruct (tracing_data_ equal) as [td|]; cbn; [|apply HK].
  constructor. intros [|]; cbn; [apply HK|].
  constructor. intros [|]; cbn; [apply HK|]. constructor. apply HK.
Qed.

Lemma disciplined_reduce_children (equal : SEqualReducer) (ls : list ObjectRef) :
  forall i rs, disciplined (reduce_children GetAttrKeyByAddress equal i ls rs).
Proof.
  induction ls as [|l ls IH]; intros i [|r rs]; cbn [reduce_children];
    try constructor.
  apply disciplined_reduce_object; [reflexivity | apply IH].
Qed.

Lemma disciplined_Node_SEqualReduce (heap : positive -> Node)
    (self other : positive) (equal : SEqualReducer) :
  disciplined (Node_SEqualReduce GetAttrKeyByAddress heap self other equal).
Proof.
  assert (H : disciplined (node_reduce_body GetAttrKeyByAddress heap self other equal)).
  { unfold node_reduce_body. apply disciplined_reduce_int64.
    intros [|]; [apply disciplined_reduce_children | constructor]. }
  unfold Node_SEqualReduce. destruct (node_is_graph (heap self));
    [constructor|]; exact H.
Qed.

Lemma calls_reduce_object {P} (equal : SEqualReducer) (l r : ObjectRef)
    (la ra : Z) (K : bool -> Prog bool) :
  (forall m c, P l r m c) -> (forall b, calls P (K b)) ->
  calls P (reduce_object GetAttrKeyByAddress equal l r la ra ≫= K).
Proof.
  intros HP HK. unfold reduce_object, ObjectAttrsEqual, mbind, Prog_mbind.
  destruct (tracing_data_ equal) as [td|]; cbn.
  - constructor; [apply HP|]. intros [|]; cbn; [apply HK|].
    constructor. intros [|]; cbn; [apply HK|]. constructor. apply HK.
  - constructor; [apply HP | exact HK].
Qed.

Lemma calls_reduce_int64 {P} (equal : SEqualReducer) (l r la ra : Z)
    (K : bool -> Prog bool) :
  (forall b, calls P (K b)) ->
  calls P (reduce_int64 GetAttrKeyByAddress equal l r la ra None ≫= K).
Proof.
  intros HK.
  unfold reduce_int64, CompareAttributeValues,
    GetPathsFromAttrAddressesAndStoreMismatch, store_if_undefined,
    mbind, Prog_mbind.
  destruct (l =? r); cbn; [apply HK|].
  destruct (tracing_data_ equal) as [td|]; cbn; [|apply HK].
  constructor. intros [|]; cbn; [apply HK|].
  constructor. intros [|]; cbn; [apply HK|]. constructor. apply HK.
Qed.

Lemma calls_reduce_children {P} (equal : SEqualReducer) (ls : list ObjectRef) :
  forall i rs,
    (forall l r m c, In l ls -> In r rs -> P l r m c) ->
    calls P (reduce_children GetAttrKeyByAddress equal i ls rs).
Proof.
  induction ls as [|l ls IH]; intros i [|r rs] HP; cbn [reduce_children];
    try constructor.
  apply calls_reduce_object.
  - intros m c. apply HP; now left.
  - intros [|]; [|constructor]. apply IH.
    intros l' r' m c Hl Hr. apply HP; now right.
Qed.

Lemma careful_reduce_object (equal : SEqualReducer) (l r : ObjectRef)
    (la ra : Z) (K : bool -> Prog bool) :
  tracing_data_ equal <> None ->
  K false = Return false -> careful (K true) ->
  careful (reduce_object GetAttrKeyByAddress equal l r la ra ≫= K).
Proof.
  intros Htd Hf Ht. unfold reduce_object, ObjectAttrsEqual, mbind, Prog_mbind.
  destruct (tracing_data_ equal) as [td|]; [|congruence]. cbn.
  constructor; [|exact Ht].
  constructor. intros [|]; cbn; rewrite Hf; repeat constructor.
Qed.

Lemma careful_reduce_int64 (equal : SEqualReducer) (l r la ra : Z)
    (K : bool -> Prog bool) :
  K false = Return false -> careful (K true) ->
  careful (reduce_int64 GetAttrKeyByAddress equal l r la ra None ≫= K).
Proof.
  intros Hf Ht.
  unfold reduce_int64, CompareAttributeValues,
    GetPathsFromAttrAddressesAndStoreMismatch, store_if_undefined,
    mbind, Prog_mbind.
  destruct (l =? r); cbn; [exact Ht|].
  destruct (tracing_data_ equal) as [td|]; cbn; rewrite ?Hf; [|constructor].
  constructor. intros [|]; cbn; rewrite ?Hf; [constructor|].
  constructor. intros [|]; cbn; rewrite ?Hf; repeat constructor.
Qed.

Lemma careful_reduce_children (equal : SEqualReducer) (ls : list ObjectRef) :
  tracing_data_ equal <> None ->
  forall i rs, careful (reduce_children GetAttrKeyByAddress equal i ls rs).
Proof.
  intros Htd.
  induction ls as [|l ls IH]; intros i [|r rs]; cbn [reduce_children];
    try constructor.
  apply careful_reduce_object; [exact Htd | reflexivity | apply IH].
Qed.

Lemma careful_Node_SEqualReduce (heap : positive -> Node)
    (self other : positive) (equal : SEqualReducer) :
  tracing_data_ equal <> None ->
  careful (Node_SEqualReduce GetAttrKeyByAddress heap self other equal).
Proof.
  intros Htd.
  assert (H : careful (node_reduce_body GetAttrKeyByAddress heap self other equal)).
  { unfold node_reduce_body. apply careful_reduce_int64; [reflexivity|].
    now apply careful_reduce_children. }
  unfold Node_SEqualReduce. destruct (node_is_graph (heap self));
    [constructor|]; exact H.
Qed.

Lemma guarded_store_if_undefined {A} (paths : ObjectPathPair) (k : Prog A) :
  guarded k -> guarded (_ ← store_if_undefined paths; k).
Proof.
  intros Hk. unfold store_if_undefined, mbind, Prog_mbind. cbn.
  eapply guarded_DefinedStore; [exact Hk | reflexivity | exact Hk].
Qed.

Lemma guarded_reduce_object (equal : SEqualReducer) (l r : ObjectRef)
    (la ra : Z) (K : bool -> Prog bool) :
  (forall b, guarded (K b)) ->
  guarded (reduce_object GetAttrKeyByAddress equal l r la ra ≫= K).
Proof.
  intros HK. unfold reduce_object, ObjectAttrsEqual, mbind, Prog_mbind.
  destruct (tracing_data_ equal) as [td|]; cbn.
  - constructor. intros [|]; cbn; [apply HK|].
    eapply guarded_DefinedStore; [apply HK | reflexivity | apply HK].
  - constructor. exact HK.
Qed.

Lemma guarded_reduce_int64 (equal : SEqualReducer) (l r la ra : Z)
    (K : bool -> Prog bool) :
  (forall b, guarded (K b)) ->
  guarded (reduce_int64 GetAttrKeyByAddress equal l r la ra None ≫= K).
Proof.
  intros HK.
  unfold reduce_int64, CompareAttributeValues,
    GetPathsFromAttrAddressesAndStoreMismatch, store_if_undefined,
    mbind, Prog_mbind.
  destruct (l =? r); cbn; [apply HK|].
  destruct (tracing_data_ equal) as [td|]; cbn; [|apply HK].
  constructor. intros [|]; cbn; [apply HK|].
  eapply guarded_DefinedStore; [apply HK | reflexivity | apply HK].
Qed.

Lemma guarded_RecordMismatchPaths {A} (equal : SEqualReducer)
    (paths : ObjectPathPair) (k : Prog A) :
  guarded k -> guarded (_ ← RecordMismatchPaths equal paths; k).
Proof.
  intros Hk. unfold RecordMismatchPaths.
  destruct (tracing_data_ equal) as [td|]; [|constructor].
  now apply guarded_store_if_undefined.
Qed.

Lemma guarded_reduce_children (equal : SEqualReducer) (ls : list ObjectRef) :
  forall i rs, guarded (reduce_children GetAttrKeyByAddress equal i ls rs).
Proof.
  induction ls as [|l ls IH]; intros i [|r rs]; cbn [reduce_children];
    try constructor.
  apply guarded_reduce_object. intros [|]; [apply IH | constructor].
Qed.

Lemma guarded_Node_SEqualReduce (heap : positive -> Node)
    (self other : positive) (equal : SEqualReducer) :
  guarded (Node_SEqualReduce GetAttrKeyByAddress heap self other equal).
Proof.
  assert (H : guarded (node_reduce_body GetAttrKeyByAddress heap self other equal)).
  { unfold node_reduce_body. apply guarded_reduce_int64.
    intros [|]; [apply guarded_reduce_children | constructor]. }
  unfold Node_SEqualReduce. destruct (node_is_graph (heap self));
    [constructor|]; exact H.
Qed.

Lemma reflexive_reduce_object (equal : SEqualReducer) (l : ObjectRef)
    (la ra : Z) (K : bool -> Prog bool) :
  reflexive (is_tracing equal) (K true) ->
  reflexive (is_tracing equal)
            (reduce_object GetAttrKeyByAddress equal l l la ra ≫= K).
Proof.
  intros HK. unfold reduce_object, ObjectAttrsEqual, is_tracing, mbind, Prog_mbind in *.
  destruct (tracing_data_ equal) as [td|]; cbn.
  - constructor; [eauto | exact HK].
  - constructor; [discriminate | exact HK].
Qed.

Lemma reflexive_reduce_int64 (equal : SEqualReducer) (v la ra : Z)
    (K : bool -> Prog bool) :
  reflexive (is_tracing equal) (K true) ->
  reflexive (is_tracing equal)
            (reduce_int64 GetAttrKeyByAddress equal v v la ra None ≫= K).
Proof.
  intros HK. unfold reduce_int64, CompareAttributeValues, mbind, Prog_mbind.
  rewrite Z.eqb_refl. exact HK.
Qed.

Lemma reflexive_reduce_children (equal : SEqualReducer) (ls : list ObjectRef) :
  forall i, reflexive (is_tracing equal)
                      (reduce_children GetAttrKeyByAddress equal i ls ls).
Proof.
  induction ls as [|l ls IH]; intros i; cbn [reduce_children];
    [constructor|].
  apply reflexive_reduce_object. apply IH.
Qed.

Lemma reflexive_Node_SEqualReduce (heap : positive -> Node) (a : positive)
    (equal : SEqualReducer) :
  reflexive (is_tracing equal)
            (Node_SEqualReduce GetAttrKeyByAddress heap a a equal).
Proof.
  assert (H : reflexive (is_tracing equal)
                (node_reduce_body GetAttrKeyByAddress heap a a equal)).
  { unfold node_reduce_body. apply reflexive_reduce_int64.
    apply reflexive_reduce_children. }
  unfold Node_SEqualReduce. destruct (node_is_graph (heap a));
    [constructor|]; exact H.
Qed.






(** The object attributes of every node are strictly below the node. *)
Definition heap_acyclic (rank : positive -> nat) (heap : positive -> Node) : Prop :=
  forall a c, In (Some c) (node_children (heap a)) -> (rank c < rank a)%nat.

Lemma calls_Node_SEqualReduce (rank : positive -> nat) (heap : positive -> Node)
    (self other : positive) (equal : SEqualReducer) :
  heap_acyclic rank heap ->
  calls (descends rank self other)
        (Node_SEqualReduce GetAttrKeyByAddress heap self other equal).
Proof.
  intros Hacyc.
  assert (H : calls (descends rank self other)
                (node_reduce_body GetAttrKeyByAddress heap self other equal)).
  { unfold node_reduce_body. apply calls_reduce_int64.
    intros [|]; [|constructor]. apply calls_reduce_children.
    intros l r m c Hl Hr. split.
    - intros a ->. now apply Hacyc.
    - intros b ->. now apply Hacyc. }
  unfold Node_SEqualReduce. destruct (node_is_graph (heap self));
    [constructor|]; exact H.
Qed.

End Callbacks.

(** *** Closed examples *)

(** The result of a call without the final state. *)
Definition verdict (r : option (Result (bool * Impl))) : option (Result bool) :=
  match r with
  | None => None
  | Some (Ok (b, _)) => Some (Ok b)
  | Some (Fatal m) => Some (Fatal m)
  | Some Unspecified => Some Unspecified
  end.


Definition no_attr_names : ObjectRef -> Z -> option string := fun _ _ => None.

Definition leaf : Node :=
  {| node_value := 0; node_children := []; node_is_graph := false |}.

(** Nodes are of type index 64, tensors of type index 65. *)
Definition node_type (_ : positive) : Z := 64.

Definition node_registry (heap : positive -> Node) (t : Z)
    : option (positive -> positive -> SEqualReducer -> Prog bool) :=
  if t =? 64 then Some (Node_SEqualReduce no_attr_names heap) else None.





(** An acyclic graph: node 1 has node 2 twice as object attribute; the other
    nodes are leaves. *)
Definition diamond_heap (a : positive) : Node :=
  if (a =? 1)%positive
  then {| node_value := 0;
          node_children := [Some 2%positive; Some 2%positive];
          node_is_graph := true |}
  else leaf.

Definition diamond_rank (a : positive) : nat :=
  if (a =? 1)%positive then 1%nat else 0%nat.

Lemma diamond_acyclic : heap_acyclic diamond_rank diamond_heap.
Proof.
  intros a c. unfold diamond_heap, diamond_rank.
  destruct (Pos.eqb_spec a 1) as [->|Ha]; cbn; [|tauto].
  intros [H|[H|[]]]; injection H as <-; cbn; lia.
Defined.

Lemma node_registry_descends (rank : positive -> nat) (heap : positive -> Node) :
  heap_acyclic rank heap ->
  registry_calls (node_registry heap) (descends rank).
Proof.
  intros Hacyc t f self other equal. unfold node_registry.
  destruct (t =? 64); [|discriminate].
  intros H. injection H as <-. now apply calls_Node_SEqualReduce.
Defined.

(** A callback that is not a comparison of children with children: applied
    to object 1 it compares object 2 with the other object itself; applied
    to any other object it returns true.  Both mark their node. *)
Definition crossing_registry (t : Z)
    : option (positive -> positive -> SEqualReducer -> Prog bool) :=
  Some (fun self other equal =>
          MarkGraphNodeOp
            (if (self =? 1)%positive
             then reduce_object no_attr_names equal (Some 2%positive) (Some other) 0 0
             else Return true)).

(** C9, as stated, fails: comparing object 1 with object 3 under
    [crossing_registry] returns true and leaves [equal_map_lhs_[2] = 3]
    while [equal_map_rhs_[3] = 1]. *)
Lemma maps_not_inverse :
  match SEqualHandlerDefault_Equal node_type 64 crossing_registry 10
          false None false (AnyObject 1) (AnyObject 3) false with
  | Some (Ok (b, st)) =>
      b = true
      /\ equal_map_lhs_ st !! Some 2%positive = Some (Some 3%positive)
      /\ equal_map_rhs_ st !! Some 3%positive = Some (Some 1%positive)
      /\ ~ inverse_maps st
  | _ => False
  end.
Proof.
  vm_compute SEqualHandlerDefault_Equal.
  split; [reflexivity|]. split; [reflexivity|]. split; [reflexivity|].
  intros H. specialize (H (Some 2%positive) (Some 3%positive)).
  destruct H as [H _]. specialize (H eq_refl). vm_compute in H. discriminate.
Qed.

(** The state in which the comparison of the diamond with itself enters the
    loop, and the state six iterations later. *)
Definition diamond_entry : Impl :=
  match Equal_enter node_type 64 (AnyObject 1) (AnyObject 1) false
                    (new_Impl false None false) with
  | inr st => st
  | inl _ => new_Impl false None false
  end.

Definition diamond_later : Impl :=
  match steps node_type (node_registry diamond_heap) 6 diamond_entry with
  | Continue st => st
  | Done _ => diamond_entry
  end.












Lemma maps_half_inverse_witness :
  equal_map_rhs_ diamond_later !! Some 1%positive = Some (Some 1%positive)
  /\ half_inverse diamond_later /\ inverse_maps diamond_later.
Proof.
  split; [vm_compute; reflexivity|].
  destruct (maps_half_inverse node_type 64 (node_registry diamond_heap)
              (AnyObject 1) (AnyObject 1) false (new_Impl false None false)
              diamond_entry diamond_later) as (Hhalf & _ & _ & Hinv).
  - vm_compute. reflexivity.
  - apply (steps_reachable node_type (node_registry diamond_heap) 6).
    vm_compute. reflexivity.
  - split; [exact Hhalf|].
    apply (Hinv diamond_rank).
    apply node_registry_descends. exact diamond_acyclic.
Defined.

(** A callback that does not look at the result of its comparison. *)
Definition careless_registry (t : Z)
    : option (positive -> positive -> SEqualReducer -> Prog bool) :=
  Some (fun self other equal =>
          reduce_object no_attr_names equal (Some 2%positive) None 0 0
          ≫= fun _ : bool => Return true).

(** A graph with tensors: objects 2 and 5 are tensors on a device that is not
    the CPU; node 1 has a tensor and node 3 as object attributes, node 4 a
    tensor and an undefined reference. *)
Definition mixed_type (a : positive) : Z :=
  if (a =? 2)%positive || (a =? 5)%positive then 65 else 64.

Definition gpu_tensor : Container :=
  {| device_type := 2; shape := [1]; dtype_code := 2; dtype_bits := 32;
     dtype_lanes := 1; strides := None; data := []; shape_address := 0 |}.

Definition mixed_heap (a : positive) : Node :=
  if (a =? 1)%positive
  then {| node_value := 0;
          node_children := [Some 2%positive; Some 3%positive];
          node_is_graph := false |}
  else if (a =? 4)%positive
  then {| node_value := 0;
          node_children := [Some 5%positive; None];
          node_is_graph := false |}
  else leaf.

Definition mixed_registry (t : Z)
    : option (positive -> positive -> SEqualReducer -> Prog bool) :=
  if t =? 64 then Some (Node_SEqualReduce no_attr_names mixed_heap)
  else if t =? 65
  then Some (NDArrayContainerTrait_SEqualReduce
               no_attr_names 1 (fun _ => true) (fun _ => 0%nat)
               (fun _ => gpu_tensor))
  else None.

(** C7, as stated, fails.  With the careless callback the engine without
    deferral returns true and the engine with deferral returns false.  With
    the callbacks in the conjunctive style, on the graph with tensors, the
    engine without deferral returns false and the engine with deferral does
    not return a boolean: it goes on to the tensors and aborts there. *)
Lemma deferral_changes_outcome :
  verdict (SEqualHandlerDefault_Equal node_type 64 careless_registry 10
             false (Some None) false (AnyObject 1) (AnyObject 1) false)
  = Some (Ok true)
  /\ verdict (SEqualHandlerDefault_Equal node_type 64 careless_registry 10
                false (Some None) true (AnyObject 1) (AnyObject 1) false)
     = Some (Ok false)
  /\ verdict (SEqualHandlerDefault_Equal mixed_type 64 mixed_registry 10
                false (Some None) false (AnyObject 1) (AnyObject 4) false)
     = Some (Ok false)
  /\ verdict (SEqualHandlerDefault_Equal mixed_type 64 mixed_registry 10
                false (Some None) true (AnyObject 1) (AnyObject 4) false)
     = Some (Fatal "can only compare CPU tensor").
Proof. repeat split; vm_compute; reflexivity. Qed.

Lemma node_registry_disciplined (heap : positive -> Node) :
  registry_disciplined (node_registry heap).
Proof.
  intros t f self other equal. unfold node_registry.
  destruct (t =? 64); [|discriminate].
  intros H. injection H as <-. apply disciplined_Node_SEqualReduce.
Defined.

Lemma deferral_same_boolean_witness :
  match SEqualHandlerDefault_Equal node_type 64 (node_registry mixed_heap) 10
          false (Some None) false (AnyObject 1) (AnyObject 4) false,
        SEqualHandlerDefault_Equal node_type 64 (node_registry mixed_heap) 10
          false (Some None) true (AnyObject 1) (AnyObject 4) false with
  | Some (Ok (bN, _)), Some (Ok (bD, _)) => bN = false /\ bN = bD
  | _, _ => False
  end.
Proof.
  destruct (SEqualHandlerDefault_Equal node_type 64 (node_registry mixed_heap) 10
              false (Some None) false (AnyObject 1) (AnyObject 4) false)
    as [[[bN stN]| |]|] eqn:HN;
    try (vm_compute in HN; discriminate).
  destruct (SEqualHandlerDefault_Equal node_type 64 (node_registry mixed_heap) 10
              false (Some None) true (AnyObject 1) (AnyObject 4) false)
    as [[[bD stD]| |]|] eqn:HD;
    try (vm_compute in HD; discriminate).
  split.
  - vm_compute in HN. congruence.
  - exact (deferral_same_boolean node_type 64 (node_registry mixed_heap)
             false (Some None) (AnyObject 1) (AnyObject 4) false 10 10
             bN bD stN stD (node_registry_disciplined mixed_heap) HN HD).
Defined.

Lemma node_registry_careful (heap : positive -> Node) :
  registry_careful (node_registry heap).
Proof.
  intros t f self other equal. unfold node_registry.
  destruct (t =? 64); [|discriminate].
  intros H Htd. injection H as <-. now apply careful_Node_SEqualReduce.
Defined.

Lemma GetFirstStructuralMismatch_defined_iff_witness :
  exists mismatch,
    node_GetFirstStructuralMismatch node_type 64 (node_registry mixed_heap)
      10 (AnyObject 1) (AnyObject 4) false = Some (Ok mismatch)
    /\ is_Some mismatch.
Proof.
  pose proof (GetFirstStructuralMismatch_defined_iff node_type 64
                (node_registry mixed_heap) 10 (AnyObject 1) (AnyObject 4) false
                (node_registry_careful mixed_heap)) as H.
  destruct (SEqualHandlerDefault_Equal node_type 64 (node_registry mixed_heap)
              10 false (Some None) true (AnyObject 1) (AnyObject 4) false)
    as [[[equal st]| |]|] eqn:He; try (vm_compute in He; discriminate).
  assert (equal = false) as -> by (vm_compute in He; congruence).
  destruct H as (mismatch & Hm & Hdef & _).
  exists mismatch. split; [exact Hm|]. now apply Hdef.
Defined.

(** A callback that is not careful: it compares two integers that differ,
    which records the mismatch, and returns true all the same.  The check
    returns true and the callable fails its own check. *)
Definition forgetful_registry (t : Z)
    : option (positive -> positive -> SEqualReducer -> Prog bool) :=
  Some (fun self other equal =>
          reduce_int64 no_attr_names equal 1 2 0 0 None
          ≫= fun _ : bool => Return true).

Lemma forgetful_callback_fails_check :
  verdict (SEqualHandlerDefault_Equal node_type 64 forgetful_registry 10
             false (Some None) true (AnyObject 1) (AnyObject 1) false)
  = Some (Ok true)
  /\ node_GetFirstStructuralMismatch node_type 64 forgetful_registry 10
       (AnyObject 1) (AnyObject 1) false
     = Some (Fatal "Check failed: (equal == !first_mismatch.defined()) is false").
Proof. split; vm_compute; reflexivity. Qed.

(** No callback is registered. *)
Definition empty_registry (t : Z)
    : option (positive -> positive -> SEqualReducer -> Prog bool) := None.

(** C10, as stated, fails.  With the forgetful callback the check on object 1
    and itself returns true, and the callable returns neither the undefined
    value nor a path pair: it fails its own check.  And the check need not
    return a boolean: with no callback registered, which is a careful
    registry, the callable applied to object 1 and itself ends with the
    error of the reflection table. *)
Lemma GetFirstStructuralMismatch_not_for_every_input :
  (verdict (SEqualHandlerDefault_Equal node_type 64 forgetful_registry 10
              false (Some None) true (AnyObject 1) (AnyObject 1) false)
   = Some (Ok true)
   /\ node_GetFirstStructuralMismatch node_type 64 forgetful_registry 10
        (AnyObject 1) (AnyObject 1) false
      = Some (Fatal "Check failed: (equal == !first_mismatch.defined()) is false"))
  /\ (registry_careful empty_registry
      /\ node_GetFirstStructuralMismatch node_type 64 empty_registry 1
           (AnyObject 1) (AnyObject 1) false
         = Some (Fatal not_registered)).
Proof.
  split; [split; vm_compute; reflexivity|].
  split; [|vm_compute; reflexivity].
  intros t f self other equal H. discriminate.
Qed.

(** A reducer without tracing data, and two tensors on the CPU. *)
Definition plain_reducer : SEqualReducer :=
  {| tracing_data_ := None; map_free_vars_ := false |}.

Definition cpu_tensor (bytes : list ascii) : Container :=
  {| device_type := 1; shape := [2]; dtype_code := 1; dtype_bits := 8;
     dtype_lanes := 1; strides := None; data := bytes; shape_address := 0 |}.

Definition two_tensors (a : positive) : Container :=
  if (a =? 1)%positive then cpu_tensor ["a"%char; "b"%char]
  else cpu_tensor ["a"%char; "b"%char; "c"%char].

(** C5, as stated, fails: a tensor that is not on the CPU, compared with
    itself, is equal; there is no fatal error. *)
Lemma NDArrayEqual_same_container :
  device_type gpu_tensor <> 1
  /\ run node_type
         (NDArrayEqual no_attr_names 1 (fun _ => true) (fun _ => 0%nat)
                       (fun _ => gpu_tensor) 2 2 plain_reducer true)
         (new_Impl false None false)
     = Ok (true, new_Impl false None false).
Proof. split; [discriminate | reflexivity]. Qed.

Lemma NDArrayEqual_spec_witness :
  exists b st',
    run node_type
        (NDArrayEqual no_attr_names 1 (fun _ => true) (fun _ => 2%nat)
                      two_tensors 1 2 plain_reducer true)
        (new_Impl false None false)
    = Ok (b, st')
    /\ (b = true <->
        tensors_equal (fun _ => 2%nat) (two_tensors 1) (two_tensors 2) true).
Proof.
  apply (proj2 (proj2 (NDArrayEqual_spec node_type no_attr_names 1
                         (fun _ => true) (fun _ => 2%nat) two_tensors 1 2
                         plain_reducer true (new_Impl false None false)
                         (or_introl eq_refl)))).
  - discriminate.
  - split; reflexivity.
  - split; reflexivity.
Defined.


Definition here : ObjectPathPair := {| lhs_path := Root; rhs_path := Root |}.


(** An integer compared with a different integer and with itself; a type
    index without callback. *)
Lemma Equal_POD_witness :
  (exists st,
      SEqualHandlerDefault_Equal node_type 64 (node_registry mixed_heap) 0
        false (Some None) true (AnyPOD 1 7) (AnyPOD 1 8) false
      = Some (Ok (false, st))
      /\ first_mismatch_ st = Some (Some here))
  /\ SEqualHandlerDefault_Equal node_type 64 (node_registry mixed_heap) 0
       true (Some None) true (AnyPOD 1 7) (AnyPOD 1 8) false
     = Some (Fatal check_failed).
Proof.
  split.
  - apply (proj2 (Equal_POD node_type 64 (node_registry mixed_heap) 0 false
                    (Some None) true 1 7 1 8 false (fun _ => eq_refl))).
    left. reflexivity.
  - apply (proj1 (Equal_POD node_type 64 (node_registry mixed_heap) 0 true
                    (Some None) true 1 7 1 8 false (fun _ => eq_refl)));
      [reflexivity | reflexivity | eauto].
Defined.

Definition tensor_only_registry (t : Z)
    : option (positive -> positive -> SEqualReducer -> Prog bool) :=
  if t =? 65 then mixed_registry 65 else None.

Lemma Equal_unregistered_witness :
  SEqualHandlerDefault_Equal mixed_type 64 tensor_only_registry 1
    false None false (AnyObject 1) (AnyObject 1) false
  = Some (Fatal not_registered).
Proof.
  apply (Equal_unregistered mixed_type 64 tensor_only_registry 0 false None
           false 1 1 false); [reflexivity | discriminate | reflexivity].
Defined.

Lemma node_registry_guarded (heap : positive -> Node) :
  registry_guarded (node_registry heap).
Proof.
  intros t f self other equal. unfold node_registry.
  destruct (t =? 64); [|discriminate].
  intros H. injection H as <-. apply guarded_Node_SEqualReduce.
Defined.

(** A mismatch found before the call. *)
Definition earlier : ObjectPathPair :=
  {| lhs_path := Attr Root (Some "a"); rhs_path := Attr Root (Some "b") |}.

Lemma first_mismatch_written_once_witness :
  match SEqualHandlerDefault_Equal node_type 64 (node_registry mixed_heap) 10
          false (Some (Some earlier)) true (AnyObject 1) (AnyObject 4) false with
  | Some (Ok (b, st)) => b = false /\ first_mismatch_ st = Some (Some earlier)
  | _ => False
  end.
Proof.
  destruct (SEqualHandlerDefault_Equal node_type 64 (node_registry mixed_heap) 10
              false (Some (Some earlier)) true (AnyObject 1) (AnyObject 4) false)
    as [[[b st]| |]|] eqn:H; try (vm_compute in H; discriminate).
  split.
  - vm_compute in H. congruence.
  - exact (proj2 (first_mismatch_written_once node_type 64
                    (node_registry mixed_heap) (node_registry_guarded mixed_heap))
                 10%nat false true (AnyObject 1) (AnyObject 4) false earlier b st H).
Defined.

Lemma callables_agree_witness :
  node_StructuralEqual node_type 64 (node_registry mixed_heap) 10
    (AnyObject 1) (AnyObject 4) false false = Some (Ok false)
  /\ exists mismatch,
       node_GetFirstStructuralMismatch node_type 64 (node_registry mixed_heap)
         10 (AnyObject 1) (AnyObject 4) false = Some (Ok mismatch)
       /\ (mismatch = None <-> false = true).
Proof.
  assert (H1 : node_StructuralEqual node_type 64 (node_registry mixed_heap) 10
                 (AnyObject 1) (AnyObject 4) false false = Some (Ok false))
    by (vm_compute; reflexivity).
  split; [exact H1|].
  destruct (node_GetFirstStructuralMismatch node_type 64
              (node_registry mixed_heap) 10 (AnyObject 1) (AnyObject 4) false)
    as [[mismatch| |]|] eqn:H2; try (vm_compute in H2; discriminate).
  exists mismatch. split; [reflexivity|].
  exact (callables_agree node_type 64 (node_registry mixed_heap) 10 10
           (AnyObject 1) (AnyObject 4) false false mismatch
           (node_registry_disciplined mixed_heap) H1 H2).
Defined.

Lemma node_registry_reflexive (heap : positive -> Node) :
  registry_reflexive node_type (node_registry heap).
Proof.
  intros a equal. eexists. split; [reflexivity|].
  apply reflexive_Node_SEqualReduce.
Defined.

Lemma Equal_reflexive_witness :
  (exists fuel,
      StructuralEqual node_type 64 (node_registry diamond_heap) fuel
        (Some 1%positive) (Some 1%positive) false = Some (Ok true))
  /\ (exists fuel,
         node_GetFirstStructuralMismatch node_type 64 (node_registry diamond_heap)
           fuel (AnyObject 1) (AnyObject 1) false = Some (Ok None)).
Proof.
  destruct (proj2 (Equal_reflexive node_type 64 (node_registry diamond_heap)
                     1 false (node_registry_reflexive diamond_heap)
                     (Z.le_refl 64))
                  diamond_rank
                  (node_registry_descends diamond_rank diamond_heap
                     diamond_acyclic))
    as (H1 & _ & H3).
  split; assumption.
Defined.

End SEqualFacts.
